(** * ThreadedSort: three-way quicksort of quicksort.c, sequential and threaded

    The development embeds [partition], [merge], [quicksort],
    [quicksort_threaded] and [main] of [quicksort.c] over an explicit
    C-like memory: a table of allocated blocks, pointers into them, and an
    allocator that may refuse a request.  The sequential functions are
    written in a small state-and-fault monad; the threaded sorter is a
    fork/join tree of threads that an arbitrary schedule interleaves.
    [main] takes its arguments, the files that can be opened (each as the
    integers [fscanf] reads from it) and the schedule of the threads, and
    returns its exit status with what it wrote.

    Conventions of the embedding.  The elements are C [int]s, which the
    program only compares and copies: they are integers here.  Sizes and
    indices are [size_t] counts of elements of arrays that exist in memory,
    so [size * sizeof(int)] does not wrap: they are natural numbers, and
    [malloc] and [memcpy] take a number of cells.  The message [partition]
    prints on [stderr] is left out.  [thread_count] is a C [int],
    incremented with wrap-around. *)

From stdpp Require Import prelude sorting gmap strings.

Set Default Proof Using "Type".
Set Warnings "-clear-no-such-hyp".
Open Scope Z_scope.

(** ** Memory *)

(** A pointer is the null pointer or a block identifier with an offset
    counted in [int] cells ([result + index] in [merge]). *)
Inductive ptr : Type :=
  | NULL
  | Ptr (b : nat) (off : nat).

Global Instance ptr_eq_dec : EqDecision ptr.
Proof. solve_decision. Defined.

(** A block is an array of [int] cells; a cell that was never written
    holds no value.  The values are C [int]s: the program only compares and
    copies them, so they are kept as integers without any arithmetic. *)
Abbreviation block := (list (option Z)).

(** The memory is a table of blocks in allocation order: [malloc] appends
    a block, [free] leaves a tombstone, identifiers are never reused.
    [oracle] lists the answers of the coming [malloc] calls ([false]: the
    request is refused); when it is exhausted every request is granted.
    [thread_count] is the global counter of [quicksort.c]. *)
Record state : Type := mkState {
  heap : list (option block);
  oracle : list bool;
  thread_count : Z
}.

Definition set_heap (h : list (option block)) (s : state) : state :=
  mkState h (oracle s) (thread_count s).

(** Outcome of running a piece of code: a value and the state it leaves,
    undefined behaviour ([Fault]: a bad dereference, a bad [free], ...) or
    an exhausted recursion budget. *)
Inductive outcome (A : Type) : Type :=
  | Done (a : A) (s : state)
  | Fault
  | OutOfFuel.
Arguments Done {A} a s.
Arguments Fault {A}.
Arguments OutOfFuel {A}.

Definition M (A : Type) : Type := state → outcome A.

Definition ret {A} (a : A) : M A := λ s, Done a s.

Definition bind {A B} (k : A → M B) (m : M A) : M B :=
  λ s, match m s with
       | Done a s' => k a s'
       | Fault => Fault
       | OutOfFuel => OutOfFuel
       end.

(** stdpp's notations [x ← m; k] and [m; k] for sequencing. *)
Global Instance M_ret : MRet M := @ret.
Global Instance M_bind : MBind M := @bind.

(** The block a pointer designates, when it is live. *)
Definition block_at (s : state) (b : nat) : option block :=
  heap s !! b ≫= id.

(** [malloc(n * sizeof(int))]: the next answer of the oracle decides; a
    granted request appends a block of [n] unwritten cells. *)
Definition malloc (n : nat) : M ptr := λ s,
  let grant o :=
    Done (Ptr (length (heap s)) 0)
         (mkState (heap s ++ [Some (replicate n None)]) o (thread_count s)) in
  match oracle s with
  | [] => grant []
  | true :: o => grant o
  | false :: o => Done NULL (mkState (heap s) o (thread_count s))
  end.

(** [free(p)]: nothing for the null pointer; otherwise [p] must be the
    start of a live block. *)
Definition free (p : ptr) : M unit := λ s,
  match p with
  | NULL => Done () s
  | Ptr b 0%nat =>
      match block_at s b with
      | Some _ => Done () (set_heap (<[b := None]> (heap s)) s)
      | None => Fault
      end
  | Ptr _ (S _) => Fault
  end.

(** [p[i]] read: the cell must lie in a live block and hold a value. *)
Definition load (p : ptr) (i : nat) : M Z := λ s,
  match p with
  | NULL => Fault
  | Ptr b off =>
      match block_at s b with
      | Some cells =>
          match cells !! (off + i)%nat with
          | Some (Some v) => Done v s
          | _ => Fault
          end
      | None => Fault
      end
  end.

(** [p[i] = v]: the cell must lie in a live block. *)
Definition store (p : ptr) (i : nat) (v : Z) : M unit := λ s,
  match p with
  | NULL => Fault
  | Ptr b off =>
      match block_at s b with
      | Some cells =>
          if decide (off + i < length cells)%nat
          then Done () (set_heap (<[b := Some (<[(off + i)%nat := Some v]> cells)]> (heap s)) s)
          else Fault
      | None => Fault
      end
  end.

(** [p + k] *)
Definition padd (p : ptr) (k : nat) : ptr :=
  match p with
  | NULL => NULL
  | Ptr b off => Ptr b (off + k)
  end.

(** Writing the cells [cs] into a block from offset [off] on. *)
Definition blit (cs : block) (off : nat) (dst : block) : block :=
  take off dst ++ cs ++ drop (off + length cs) dst.

(** [memcpy(dst, src, n * sizeof(int))].  A copy of zero cells does
    nothing, whatever the pointers (this is how [merge] is used when a
    partition is empty and its sorted form is the null pointer).  Otherwise
    both ranges must lie in live blocks and must not overlap; the cells
    are copied as they are, written or not. *)
Definition memcpy (dst src : ptr) (n : nat) : M unit := λ s,
  match n with
  | O => Done () s
  | S _ =>
      match dst, src with
      | Ptr bd od, Ptr bs os =>
          match block_at s bd, block_at s bs with
          | Some cd, Some cs =>
              if decide ((od + n ≤ length cd)%nat ∧ (os + n ≤ length cs)%nat ∧
                         (bd ≠ bs ∨ (od + n ≤ os)%nat ∨ (os + n ≤ od)%nat))
              then Done () (set_heap (<[bd := Some (blit (take n (drop os cs)) od cd)]> (heap s)) s)
              else Fault
          | _, _ => Fault
          end
      | _, _ => Fault
      end
  end.

(** ** [partition] *)

(** What [partition] hands back through its six out-parameters. *)
Record parts : Type := mkParts {
  less : ptr; less_size : nat;
  equal : ptr; equal_size : nat;
  more : ptr; more_size : nat
}.

(** The loop of [partition], from index [i] on, with [k] iterations left. *)
Fixpoint partition_loop (arr : ptr) (pivot : Z) (less_arr more_arr equal_arr : ptr)
    (k i less_count more_count equal_count : nat) : M (nat * nat * nat) :=
  match k with
  | O => ret (less_count, more_count, equal_count)
  | S k' =>
      a ← load arr i;
      if bool_decide (a < pivot) then
        v ← load arr i;
        store less_arr less_count v;;
        partition_loop arr pivot less_arr more_arr equal_arr k' (S i)
          (S less_count) more_count equal_count
      else
        b ← load arr i;
        if bool_decide (b > pivot) then
          v ← load arr i;
          store more_arr more_count v;;
          partition_loop arr pivot less_arr more_arr equal_arr k' (S i)
            less_count (S more_count) equal_count
        else
          v ← load arr i;
          store equal_arr equal_count v;;
          partition_loop arr pivot less_arr more_arr equal_arr k' (S i)
            less_count more_count (S equal_count)
  end.

(** [partition]: [None] is the return value -1 (the out-parameters are
    left untouched), [Some] is the return value 0 with the out-parameters. *)
Definition partition (arr : ptr) (size : nat) (pivot : Z) : M (option parts) :=
  less_arr ← malloc size;
  more_arr ← malloc size;
  equal_arr ← malloc size;
  if bool_decide (less_arr = NULL ∨ more_arr = NULL ∨ equal_arr = NULL) then
    ret None
  else
    c ← partition_loop arr pivot less_arr more_arr equal_arr size 0 0 0 0;
    let '(less_count, more_count, equal_count) := c in
    ret (Some (mkParts less_arr less_count equal_arr equal_count more_arr more_count)).

Definition partition_rc (r : option parts) : Z :=
  match r with Some _ => 0 | None => -1 end.

(** ** [merge] *)

Definition merge (result : ptr) (less : ptr) (less_size : nat)
    (equal : ptr) (equal_size : nat) (more : ptr) (more_size : nat) : M unit :=
  let index := 0%nat in
  memcpy (padd result index) less less_size;;
  let index := (index + less_size)%nat in
  memcpy (padd result index) equal equal_size;;
  let index := (index + equal_size)%nat in
  memcpy (padd result index) more more_size.

(** ** [quicksort] *)

(** The recursion of [quicksort] is on freshly partitioned arrays, so the
    embedding takes a recursion budget; [quicksort_no_timeout] below shows
    that any budget above [size] is enough. *)
Fixpoint quicksort (fuel : nat) (size : nat) (data : ptr) : M ptr :=
  match fuel with
  | O => λ _, OutOfFuel
  | S fuel' =>
      if bool_decide (size = 0%nat) then ret NULL
      else
        pivot ← load data 0;
        r ← partition data size pivot;
        match r with
        | None => ret NULL
        | Some p =>
            sorted_less ← quicksort fuel' (less_size p) (less p);
            sorted_more ← quicksort fuel' (more_size p) (more p);
            result ← malloc size;
            merge result sorted_less (less_size p) (equal p) (equal_size p)
                  sorted_more (more_size p);;
            free (less p);;
            free (more p);;
            free (equal p);;
            free sorted_less;;
            free sorted_more;;
            ret result
        end
  end.

(** Reading [n] elements back from a pointer, as [main] does when it prints
    an array of [size] elements; reading zero elements needs no valid
    pointer. *)
Fixpoint read_from (s : state) (p : ptr) (i n : nat) : option (list Z) :=
  match n with
  | O => Some []
  | S n' =>
      match load p i s with
      | Done v _ => cons v <$> read_from s p (S i) n'
      | _ => None
      end
  end.

Definition read_array (s : state) (p : ptr) (n : nat) : option (list Z) :=
  read_from s p 0 n.

(** A state holding the array [l] in one block, the way [main] has its
    input after reading the file. *)
Definition init_state (l : list Z) (o : list bool) : state :=
  mkState [Some (Some <$> l)] o 0.

(** The example of the specification. *)
Definition example_input : list Z := [5; 3; 8; 3; 1].

(** A memory for [merge]: an unwritten destination of five cells and three
    sorted groups, the first in a buffer larger than the group. *)
Definition merge_example_state : state :=
  mkState [Some [None; None; None; None; None];
           Some [Some 1; Some 3; Some 3; None]; Some [Some 5]; Some [Some 8]]
          [] 0.

Definition run_quicksort (l : list Z) (o : list bool) : option (list Z) :=
  match quicksort (S (length l)) (length l) (Ptr 0 0) (init_state l o) with
  | Done r s => read_array s r (length l)
  | _ => None
  end.

(** ** [quicksort_threaded] *)

(** [thread_count++] on a C [int], read as two's complement. *)
Definition wrap_int (z : Z) : Z := (z + 2 ^ 31) `mod` 2 ^ 32 - 2 ^ 31.

Record ThreadArgs : Type := mkArgs { data : ptr; size : nat }.

(** Lines 167-169: the increment of the counter under the mutex, one
    indivisible step. *)
Definition count_thread : M unit := λ s,
  Done () (mkState (heap s) (oracle s) (wrap_int (thread_count s + 1))).

(** Lines 171-183: the base case and the partitioning.  [inl r]: the
    thread ends with value [r] ([return NULL] for an empty array,
    [pthread_exit(NULL)] when [partition] fails); [inr p]: partitioned. *)
Definition split_thread (input : ThreadArgs) : M (ptr + parts) :=
  let size := size input in
  let data := data input in
  if bool_decide (size = 0%nat) then ret (inl NULL)
  else
    pivot ← load data 0;
    r ← partition data size pivot;
    match r with
    | None => ret (inl NULL)
    | Some p => ret (inr p)
    end.

(** Lines 197-205: allocate the result, merge, release, return. *)
Definition merge_thread (size : nat) (p : parts) (sorted_less sorted_more : ptr) : M ptr :=
  result ← malloc size;
  merge result sorted_less (less_size p) (equal p) (equal_size p)
        sorted_more (more_size p);;
  free (less p);;
  free (more p);;
  free (equal p);;
  free sorted_less;;
  free sorted_more;;
  ret result.

(** A thread running [quicksort_threaded], by the point it has reached.
    The threads it created and has not joined yet are part of it: the
    running sort is a tree of threads.  [pthread_create] is taken to
    succeed. *)
Inductive thread : Type :=
  | Start (args : ThreadArgs)
  | Entered (input : ThreadArgs)
  | Partitioned (size : nat) (p : parts)
  | Spawned1 (size : nat) (p : parts) (less_thread : thread)
  | Spawned2 (size : nat) (p : parts) (less_thread more_thread : thread)
  | Joined1 (size : nat) (p : parts) (sorted_less : ptr) (more_thread : thread)
  | Joined2 (size : nat) (p : parts) (sorted_less sorted_more : ptr)
  | Exited (r : ptr).

(** The scheduler picks the thread that runs next: the thread itself or a
    thread below one of its two children. *)
Inductive pick : Type :=
  | Self
  | LessThread (π : pick)
  | MoreThread (π : pick).

Inductive step_result : Type :=
  | Stepped (t : thread) (s : state)
  | Blocked     (* the picked thread cannot run: it waits in a join, it has
                   ended, or there is no such thread *)
  | Crashed.    (* undefined behaviour *)

Definition continue_with {A} (o : outcome A) (k : A → thread) : step_result :=
  match o with
  | Done a s => Stepped (k a) s
  | _ => Crashed
  end.

Definition in_child (r : step_result) (k : thread → thread) : step_result :=
  match r with
  | Stepped t s => Stepped (k t) s
  | r => r
  end.

(** One step of the picked thread.  The steps are the pieces of
    [quicksort_threaded] between its synchronisation points; between two of
    them a thread works on blocks that no other thread uses. *)
Fixpoint step (π : pick) (t : thread) (s : state) : step_result :=
  match π, t with
  | Self, Start args =>
      continue_with (count_thread s) (λ _, Entered args)
  | Self, Entered input =>
      continue_with (split_thread input s)
        (λ r, match r with
              | inl v => Exited v
              | inr p => Partitioned (size input) p
              end)
  | Self, Partitioned size p =>
      (* pthread_create(&less_thread, NULL, quicksort_threaded, &less_args) *)
      Stepped (Spawned1 size p (Start (mkArgs (less p) (less_size p)))) s
  | Self, Spawned1 size p less_thread =>
      (* pthread_create(&more_thread, NULL, quicksort_threaded, &more_args) *)
      Stepped (Spawned2 size p less_thread (Start (mkArgs (more p) (more_size p)))) s
  | Self, Spawned2 size p (Exited sorted_less) more_thread =>
      (* pthread_join(less_thread, &sorted_less) *)
      Stepped (Joined1 size p sorted_less more_thread) s
  | Self, Joined1 size p sorted_less (Exited sorted_more) =>
      (* pthread_join(more_thread, &sorted_more) *)
      Stepped (Joined2 size p sorted_less sorted_more) s
  | Self, Joined2 size p sorted_less sorted_more =>
      continue_with (merge_thread size p sorted_less sorted_more s) Exited
  | LessThread π', Spawned1 size p less_thread =>
      in_child (step π' less_thread s) (λ c, Spawned1 size p c)
  | LessThread π', Spawned2 size p less_thread more_thread =>
      in_child (step π' less_thread s) (λ c, Spawned2 size p c more_thread)
  | MoreThread π', Spawned2 size p less_thread more_thread =>
      in_child (step π' more_thread s) (λ c, Spawned2 size p less_thread c)
  | MoreThread π', Joined1 size p sorted_less more_thread =>
      in_child (step π' more_thread s) (λ c, Joined1 size p sorted_less c)
  | _, _ => Blocked
  end.

(** Running a schedule: a pick that cannot run is passed over. *)
Fixpoint run (sched : list pick) (t : thread) (s : state) : step_result :=
  match sched with
  | [] => Stepped t s
  | π :: sched' =>
      match step π t s with
      | Stepped t' s' => run sched' t' s'
      | Blocked => run sched' t s
      | Crashed => Crashed
      end
  end.

(** [main] creates the first thread on its array and joins it. *)
Definition run_threaded (sched : list pick) (l : list Z) (o : list bool) : step_result :=
  run sched (Start (mkArgs (Ptr 0 0) (length l))) (init_state l o).

(** The threads of a running sort, as the picks that reach them. *)
Fixpoint picks (t : thread) : list pick :=
  match t with
  | Spawned1 _ _ c => Self :: (LessThread <$> picks c)
  | Spawned2 _ _ c1 c2 => Self :: (LessThread <$> picks c1) ++ (MoreThread <$> picks c2)
  | Joined1 _ _ _ c => Self :: (MoreThread <$> picks c)
  | _ => [Self]
  end.

Definition runnable (t : thread) (s : state) (π : pick) : bool :=
  match step π t s with Stepped _ _ => true | _ => false end.

(** A scheduler given as a choice among the runnable threads, run for at
    most [fuel] steps. *)
Fixpoint schedule (choose : list pick → option pick) (fuel : nat)
    (t : thread) (s : state) : list pick :=
  match fuel with
  | O => []
  | S fuel' =>
      match choose (filter (λ π, runnable t s π = true) (picks t)) with
      | Some π =>
          match step π t s with
          | Stepped t' s' => π :: schedule choose fuel' t' s'
          | _ => []
          end
      | None => []
      end
  end.

(** The number of invocations of [quicksort_threaded] that sorting [l]
    makes: one, and for a non-empty array those of its two children. *)
Fixpoint invocations_upto (fuel : nat) (l : list Z) : nat :=
  match fuel, l with
  | S fuel', pivot :: _ =>
      S (invocations_upto fuel' (filter (λ x, x < pivot) l)
         + invocations_upto fuel' (filter (λ x, pivot < x) l))
  | _, _ => 1
  end.

Definition invocations (l : list Z) : nat := invocations_upto (length l) l.

(** ** [main] *)

(** What [main] itself writes.  The two measured times are printed with
    [%f]; the clock is not part of the embedding, a printed time is an
    output without a value.  The message that [partition] writes on the
    standard error when it fails is left out, as said above. *)
Inductive output : Type :=
  | Print (text : string)          (* printf of a text without conversions *)
  | PrintInt (v : Z)               (* printf("%d", v) *)
  | PrintTime                      (* printf("%f", a measured time) *)
  | PrintErr (text : string)       (* fprintf(stderr, ...) *)
  | Perror (text : string).        (* perror(...) *)

Definition newline : string := String (Ascii.ascii_of_nat 10) EmptyString.

(** [realloc(p, n * sizeof(int))] of the C library.  A refused request
    returns the null pointer and leaves the block as it is.  A granted one
    returns a block of [n] cells that starts with the cells of the old
    block, which is released.  (A C library may also extend the block in
    place; [main] does not use the old pointer any more, so it cannot
    tell the difference.) *)
Definition realloc (p : ptr) (n : nat) : M ptr := λ s,
  match p with
  | NULL => malloc n s
  | Ptr b 0%nat =>
      match block_at s b with
      | Some cells =>
          let grant o :=
            Done (Ptr (length (heap s)) 0)
                 (mkState (<[b := None]> (heap s)
                           ++ [Some (take n cells ++ replicate (n - length cells) None)])
                          o (thread_count s)) in
          match oracle s with
          | [] => grant []
          | true :: o => grant o
          | false :: o => Done NULL (mkState (heap s) o (thread_count s))
          end
      | None => Fault
      end
  | Ptr _ (S _) => Fault
  end.

(** Lines 259-270: the reading loop, on the integers that [fscanf] still
    delivers from the file (it stops at the end of the file or at the
    first text that is not an integer).  Each integer is stored at
    [data[size]]; when the array is full its capacity is doubled.
    [None]: [realloc] was refused, [main] returns 1. *)
Fixpoint read_loop (input : list Z) (data : ptr) (size capacity : nat)
    : M (option (ptr * nat)) :=
  match input with
  | [] => ret (Some (data, size))
  | v :: input' =>
      store data size v;;
      let size := S size in
      if bool_decide (size = capacity) then
        let capacity := (capacity * 2)%nat in
        data ← realloc data capacity;
        if bool_decide (data = NULL) then ret None
        else read_loop input' data size capacity
      else read_loop input' data size capacity
  end.

(** Lines 252-270: the first array of ten cells and the reading loop. *)
Definition read_input (input : list Z) : M (option (ptr * nat)) :=
  let size := 0%nat in
  let capacity := 10%nat in
  data ← malloc capacity;
  if bool_decide (data = NULL) then ret None
  else read_loop input data size capacity.

(** The loop that prints an array (lines 275-278, 293-296, 303-306 and
    328-331), from index [i] on, with [k] iterations left. *)
Fixpoint print_loop (p : ptr) (size : nat) (k i : nat) : M (list output) :=
  match k with
  | O => ret []
  | S k' =>
      v ← load p i;
      rest ← print_loop p size k' (S i);
      ret (PrintInt v
           :: (if bool_decide (i < size - 1)%nat then [Print ", "] else []) ++ rest)
  end.

Definition print_list (title : string) (p : ptr) (size : nat) : M (list output) :=
  body ← print_loop p size size 0;
  ret (Print title :: body ++ [Print newline]).

(** Lines 315-316: [main] creates the first thread and joins it.  The
    threads run as the schedule says; the join returns the value the
    first thread has ended with.  A schedule that stops before the first
    thread has ended is an exhausted budget. *)
Definition join_first (sched : list pick) (args : ThreadArgs) : M ptr := λ s,
  match run sched (Start args) s with
  | Stepped (Exited r) s' => Done r s'
  | Stepped _ _ => OutOfFuel
  | Blocked => OutOfFuel
  | Crashed => Fault
  end.

(** Lines 272-345: the two sorts, what is printed, and the release of the
    three arrays.  The budget of [quicksort] is above the size, which is
    always enough ([quicksort_no_timeout]). *)
Definition sort_and_report (print_flag : bool) (data : ptr) (size : nat)
    (sched : list pick) : M (list output) :=
  out1 ← (if print_flag
          then print_list "Unsorted list before non-threaded quicksort: " data size
          else ret []);
  sorted_non_threaded ← quicksort (S size) size data;
  let out2 := [Print "Non-threaded time:  "; PrintTime; Print newline] in
  out3 ← (if print_flag then print_list "Resulting list: " sorted_non_threaded size
          else ret []);
  out4 ← (if print_flag
          then print_list "Unsorted list before threaded quicksort: " data size
          else ret []);
  sorted_threaded ← join_first sched (mkArgs data size);
  count ← (λ s, Done (thread_count s) s);
  let out5 := [Print "Threaded time:      "; PrintTime; Print newline;
               Print "Threads spawned:    "; PrintInt count; Print newline] in
  out6 ← (if print_flag then print_list "Resulting list: " sorted_threaded size
          else ret []);
  free data;;
  free sorted_non_threaded;;
  free sorted_threaded;;
  ret (out1 ++ out2 ++ out3 ++ out4 ++ out5 ++ out6).

(** [main], on its arguments ([argc] is their number), the files that
    [fopen] can open, each with the integers that [fscanf] reads from it,
    and a schedule for the threads.  It returns its exit status and what
    it wrote.  With no argument at all [argv[0]] is a null pointer, which
    the usage message would print. *)
Definition main (argv : list string) (files : string → option (list Z))
    (sched : list pick) : M (Z * list output) :=
  let argc := length argv in
  if bool_decide (argc < 2 ∨ 3 < argc)%nat then
    match argv !! 0%nat with
    | Some prog =>
        ret (1, [PrintErr ("Usage: " +:+ prog +:+ " [-p] file_of_integers" +:+ newline)])
    | None => λ _, Fault
    end
  else
    let arg i := default EmptyString (argv !! i) in
    let print_flag := bool_decide (argc = 3%nat ∧ arg 1%nat = "-p") in
    let filename := if print_flag then arg 2%nat else arg 1%nat in
    match files filename with
    | None => ret (1, [Perror "Error opening file"])
    | Some input =>
        r ← read_input input;
        match r with
        | None => ret (1, [Perror "Memory allocation failed"])
        | Some (data, size) =>
            out ← sort_and_report print_flag data size sched;
            ret (0, out)
        end
    end.

(** The memory [main] starts in: nothing allocated, the counter at 0. *)
Definition start_state (o : list bool) : state := mkState [] o 0.

(** * Vocabulary of the statements *)

(** The array of [n] cells at [d] reads as [l]. *)
Definition reads (s : state) (d : ptr) (l : list Z) : Prop :=
  ∀ i v, l !! i = Some v → load d i s = Done v s.

(** Every coming allocation request is granted. *)
Definition granting (s : state) : Prop := Forall (λ a, a = true) (oracle s).

(** [s'] still has every block of [s] below [n], unchanged. *)
Definition extends (n : nat) (s s' : state) : Prop :=
  (length (heap s) ≤ length (heap s'))%nat ∧
  ∀ b, (b < n)%nat → heap s' !! b = heap s !! b.

(** Settles the comparisons of the code that linear arithmetic decides. *)
Ltac decide_by_lia :=
  repeat first [ rewrite bool_decide_eq_true_2 by lia
               | rewrite bool_decide_eq_false_2 by lia ].

(** The three groups [partition] forms around the pivot [p]. *)
Definition below (p : Z) (l : list Z) : list Z := filter (λ x, x < p) l.
Definition above (p : Z) (l : list Z) : list Z := filter (λ x, p < x) l.
Definition same (p : Z) (l : list Z) : list Z := filter (λ x, x = p) l.

(** The answer the allocator gives to its next request. *)
Definition next_answer (o : list bool) : bool := hd true o.

(** The buffer [partition] leaves for one group: the group, then the
    cells that were never written. *)
Definition buffer (n : nat) (g : list Z) : option block :=
  Some ((Some <$> g) ++ replicate (n - length g) None).

(** The state [partition] leaves when its three requests are granted. *)
Definition partitioned (p : Z) (l : list Z) (s : state) : state :=
  mkState (heap s ++ [buffer (length l) (below p l); buffer (length l) (above p l);
                      buffer (length l) (same p l)])
          (tail (tail (tail (oracle s)))) (thread_count s).

Definition parts_of (p : Z) (l : list Z) (s : state) : parts :=
  mkParts (Ptr (length (heap s)) 0) (length (below p l))
          (Ptr (S (S (length (heap s)))) 0) (length (same p l))
          (Ptr (S (length (heap s))) 0) (length (above p l)).

(** The array [l] is stored from the start of a block ([l] may be
    followed by cells that are not part of it). *)
Definition stored (s : state) (p : ptr) (l : list Z) : Prop :=
  ∃ b pad, p = Ptr b 0 ∧ heap s !! b = Some (Some ((Some <$> l) ++ pad)).

(** What a sorter returns for the sorted array [l']: the null pointer when
    there is nothing to return, a block holding exactly [l'] otherwise. *)
Definition result_at (s : state) (r : ptr) (l' : list Z) : Prop :=
  match l' with
  | [] => r = NULL
  | _ => ∃ b, r = Ptr b 0 ∧ heap s !! b = Some (Some (Some <$> l'))
  end.

(** The block of a pointer, if any. *)
Definition blk (p : ptr) : list nat :=
  match p with NULL => [] | Ptr b _ => [b] end.

(** Releasing a list of blocks. *)
Definition release_all (bs : list nat) (h : list (option block)) : list (option block) :=
  foldl (λ h b, <[b := None]> h) h bs.

(** The second half of both sorters: allocate the result, merge into it,
    release the five intermediate arrays (lines 140-150 of [quicksort] and
    197-205 of [quicksort_threaded]). *)
Definition merge_and_release (size : nat) (p : parts) (sorted_less sorted_more : ptr) : M ptr :=
  result ← malloc size;
  merge result sorted_less (less_size p) (equal p) (equal_size p)
        sorted_more (more_size p);;
  free (less p);;
  free (more p);;
  free (equal p);;
  free sorted_less;;
  free sorted_more;;
  ret result.

(** The blocks of the three buffers of a partition. *)
Definition pblocks (p : parts) : list nat := blk (less p) ++ blk (more p) ++ blk (equal p).

(** The blocks a thread and the threads below it are responsible for:
    the three buffers of its partition, the results it has collected,
    and the value it ended with until its parent collects it. *)
Fixpoint owned (t : thread) : list nat :=
  match t with
  | Start _ | Entered _ => []
  | Partitioned _ p => pblocks p
  | Spawned1 _ p c1 => pblocks p ++ owned c1
  | Spawned2 _ p c1 c2 => pblocks p ++ owned c1 ++ owned c2
  | Joined1 _ p sl c2 => pblocks p ++ blk sl ++ owned c2
  | Joined2 _ p sl sm => pblocks p ++ blk sl ++ blk sm
  | Exited r => blk r
  end.

(** An upper bound on the steps a thread and the threads below it still
    take; an invocation on [n] elements takes at most [11 * n + 2]. *)
Definition potential (n : nat) : nat := 11 * n + 2.

Fixpoint steps_left (t : thread) : nat :=
  match t with
  | Start a => potential (size a)
  | Entered a => 11 * size a + 1
  | Partitioned _ p => 5 + potential (less_size p) + potential (more_size p)
  | Spawned1 _ p c1 => 4 + steps_left c1 + potential (more_size p)
  | Spawned2 _ _ c1 c2 => 3 + steps_left c1 + steps_left c2
  | Joined1 _ _ _ c2 => 2 + steps_left c2
  | Joined2 _ _ _ _ => 1
  | Exited _ => 0
  end.

(** The steps a schedule really takes (picks that cannot run are not
    counted). *)
Fixpoint steps_taken (sched : list pick) (t : thread) (s : state) : nat :=
  match sched with
  | [] => 0
  | π :: sched' =>
      match step π t s with
      | Stepped t' s' => S (steps_taken sched' t' s')
      | Blocked => steps_taken sched' t s
      | Crashed => 0
      end
  end.

(** The partition of [l] around [x] is in the three buffers of [p]. *)
Definition split_at (s : state) (n : nat) (p : parts) (x : Z) (l : list Z) : Prop :=
  n = length l ∧
  less_size p = length (below x l) ∧ more_size p = length (above x l) ∧
  equal_size p = length (same x l) ∧
  stored s (less p) (below x l) ∧ stored s (more p) (above x l) ∧
  stored s (equal p) (same x l).

(** [r] is what a sorter returns for [l]. *)
Definition sorted_at (s : state) (r : ptr) (l : list Z) : Prop :=
  ∃ l', result_at s r l' ∧ l' ≡ₚ l ∧ StronglySorted Z.le l'.

(** The thread [t] was started on the array [l] at [d], and it and the
    threads below it are where they should be in sorting it. *)
Fixpoint sorting (t : thread) (s : state) (d : ptr) (l : list Z) : Prop :=
  match t with
  | Start a | Entered a => a = mkArgs d (length l) ∧ reads s d l
  | Partitioned n p => l ≠ [] ∧ split_at s n p (hd 0 l) l
  | Spawned1 n p c1 =>
      l ≠ [] ∧ split_at s n p (hd 0 l) l ∧
      sorting c1 s (less p) (below (hd 0 l) l)
  | Spawned2 n p c1 c2 =>
      l ≠ [] ∧ split_at s n p (hd 0 l) l ∧
      sorting c1 s (less p) (below (hd 0 l) l) ∧
      sorting c2 s (more p) (above (hd 0 l) l)
  | Joined1 n p sl c2 =>
      l ≠ [] ∧ split_at s n p (hd 0 l) l ∧
      sorted_at s sl (below (hd 0 l) l) ∧
      sorting c2 s (more p) (above (hd 0 l) l)
  | Joined2 n p sl sm =>
      l ≠ [] ∧ split_at s n p (hd 0 l) l ∧
      sorted_at s sl (below (hd 0 l) l) ∧
      sorted_at s sm (above (hd 0 l) l)
  | Exited r => sorted_at s r l
  end.

(** The invocations that have incremented the counter so far, in the
    tree of a thread started on [l]. *)
Fixpoint counted (t : thread) (l : list Z) : nat :=
  match t with
  | Start _ => 0
  | Entered _ | Partitioned _ _ => 1
  | Spawned1 _ _ c1 => 1 + counted c1 (below (hd 0 l) l)
  | Spawned2 _ _ c1 c2 =>
      1 + counted c1 (below (hd 0 l) l) + counted c2 (above (hd 0 l) l)
  | Joined1 _ _ _ c2 =>
      1 + invocations (below (hd 0 l) l) + counted c2 (above (hd 0 l) l)
  | Joined2 _ _ _ _ =>
      1 + invocations (below (hd 0 l) l) + invocations (above (hd 0 l) l)
  | Exited _ => invocations l
  end.

(** A step either leaves the counter alone or is the increment of one
    more invocation. *)
Definition counts (s s' : state) (k k' : nat) : Prop :=
  (thread_count s' = thread_count s ∧ k' = k) ∨
  (thread_count s' = wrap_int (thread_count s + 1) ∧ k' = S k).

(** Non-descending order, position by position. *)
Definition non_descending (l : list Z) : Prop :=
  ∀ i j x y, (i < j)%nat → l !! i = Some x → l !! j = Some y → x ≤ y.

(** A source of [merge]: an array at the start of a block other than the
    destination (nothing is asked of the pointer of an empty array). *)
Definition source (s : state) (bd : nat) (p : ptr) (l : list Z) : Prop :=
  l = [] ∨ ∃ bs pad, p = Ptr bs 0 ∧ bs ≠ bd ∧
                     heap s !! bs = Some (Some ((Some <$> l) ++ pad)).

(** The same memory with every stored value renamed by [f]. *)
Definition relabel_block (f : Z → Z) (c : block) : block :=
  fmap (M := list) (fmap (M := option) f) c.

Definition relabel (f : Z → Z) (s : state) : state :=
  mkState (fmap (M := list) (fmap (M := option) (relabel_block f)) (heap s))
          (oracle s) (thread_count s).

(** The three requests of [partition] are granted. *)
Definition three_granted (o : list bool) : Prop :=
  next_answer o = true ∧ next_answer (tail o) = true ∧
  next_answer (tail (tail o)) = true.

(** Every block allocated from [n] on is released, the block of [r]
    apart. *)
Definition tidy (n : nat) (s : state) (r : ptr) : Prop :=
  ∀ b, (n ≤ b < length (heap s))%nat → b ∉ blk r → heap s !! b = Some None.

(** The number of distinct values of an array. *)
Definition distinct (l : list Z) : nat := base.size (list_to_set l : gset Z).

(** The first [k] coming requests are granted. *)
Definition granted_upto (k : nat) (o : list bool) : Prop :=
  ∀ i, (i < k)%nat → next_answer (drop i o) = true.

(** How many of the first [k] coming requests are granted. *)
Definition granted_of (k : nat) (o : list bool) : nat :=
  length (filter (λ i, next_answer (drop i o) = true) (seq 0 k)).

(** An array with a repeated value, and an allocator that refuses its
    thirteenth request. *)
Definition repeated_input : list Z := [2; 1; 2; 3].
Definition twelve_granted : list bool := replicate 12 true ++ [false].

(** Every block of [s] is released, those of [bs] apart. *)
Definition released_but (bs : list nat) (s : state) : Prop :=
  ∀ b, (b < length (heap s))%nat → b ∉ bs → heap s !! b = Some None.

(** How often the reading loop doubles the capacity while it reads [k]
    more integers into an array that holds [size] of them. *)
Fixpoint doublings (k size capacity : nat) : nat :=
  match k with
  | O => 0
  | S k' =>
      if bool_decide (S size = capacity)
      then S (doublings k' (S size) (capacity * 2))
      else doublings k' (S size) capacity
  end.

(** The requests [main] makes for an input of [n] integers: the first
    array of ten cells, and one request each time the array is full. *)
Definition input_requests (n : nat) : nat := S (doublings n 0 10).

(** What printing the array [l] writes: the elements, with a comma
    between two of them. *)
Fixpoint shown_from (l : list Z) : list output :=
  match l with
  | [] => []
  | v :: l' =>
      PrintInt v :: match l' with [] => [] | _ => Print ", " :: shown_from l' end
  end.

Definition shown (title : string) (l : list Z) : list output :=
  Print title :: shown_from l ++ [Print newline].

(** What a run of [main] writes when both sorts succeed on the input [l]
    and the counter ends at [count]. *)
Definition report (print_flag : bool) (l : list Z) (count : Z) : list output :=
  (if print_flag then shown "Unsorted list before non-threaded quicksort: " l else [])
  ++ [Print "Non-threaded time:  "; PrintTime; Print newline]
  ++ (if print_flag then shown "Resulting list: " (merge_sort Z.le l) else [])
  ++ (if print_flag then shown "Unsorted list before threaded quicksort: " l else [])
  ++ [Print "Threaded time:      "; PrintTime; Print newline;
      Print "Threads spawned:    "; PrintInt count; Print newline]
  ++ (if print_flag then shown "Resulting list: " (merge_sort Z.le l) else []).

(** The command lines [main] accepts, with the print flag and the file
    they stand for: a third argument after a file name is ignored. *)
Inductive invoked : list string → bool → string → Prop :=
  | invoked_file prog file : invoked [prog; file] false file
  | invoked_print prog file : invoked [prog; "-p"; file] true file
  | invoked_more prog file more : file ≠ "-p" → invoked [prog; file; more] false file.

(** A file system with one file, which holds the example, and a
    schedule that runs the threads of the example to the end. *)
Definition example_files (name : string) : option (list Z) :=
  if decide (name = "numbers.txt") then Some example_input else None.

Definition example_schedule : list pick :=
  schedule head 60 (Start (mkArgs (Ptr 0 0) (length example_input)))
    (init_state example_input []).

(** [k] blocks of [n] cells that were never written are allocated from
    block [n0] on. *)
Definition left_behind (n0 k n : nat) (s : state) : Prop :=
  ∀ i, (i < k)%nat → block_at s (n0 + i) = Some (replicate n None).

(** What a thread may have ended with when requests can be refused: the
    null pointer, or what a sorter returns for [l]. *)
Definition ended_at (s : state) (r : ptr) (l : list Z) : Prop :=
  r = NULL ∨ sorted_at s r l.

(** [sorting] for an allocator that may refuse requests: a thread may have
    ended with the null pointer. *)
Fixpoint trying (t : thread) (s : state) (d : ptr) (l : list Z) : Prop :=
  match t with
  | Start a | Entered a => a = mkArgs d (length l) ∧ reads s d l
  | Partitioned n p => l ≠ [] ∧ split_at s n p (hd 0 l) l
  | Spawned1 n p c1 =>
      l ≠ [] ∧ split_at s n p (hd 0 l) l ∧
      trying c1 s (less p) (below (hd 0 l) l)
  | Spawned2 n p c1 c2 =>
      l ≠ [] ∧ split_at s n p (hd 0 l) l ∧
      trying c1 s (less p) (below (hd 0 l) l) ∧
      trying c2 s (more p) (above (hd 0 l) l)
  | Joined1 n p sl c2 =>
      l ≠ [] ∧ split_at s n p (hd 0 l) l ∧
      ended_at s sl (below (hd 0 l) l) ∧
      trying c2 s (more p) (above (hd 0 l) l)
  | Joined2 n p sl sm =>
      l ≠ [] ∧ split_at s n p (hd 0 l) l ∧
      ended_at s sl (below (hd 0 l) l) ∧
      ended_at s sm (above (hd 0 l) l)
  | Exited r => ended_at s r l
  end.

(** The thread has its three buffers, or has ended with an array. *)
Definition past_partition (t : thread) : Prop :=
  match t with
  | Start _ | Entered _ => False
  | Exited r => r ≠ NULL
  | _ => True
  end.

(** The requests that the threads of a tree started on [l] have made so
    far when none of them has met a refusal. *)
Fixpoint made (t : thread) (l : list Z) : nat :=
  match t with
  | Start _ | Entered _ => 0
  | Partitioned _ _ => 3
  | Spawned1 _ _ c1 => 3 + made c1 (below (hd 0 l) l)
  | Spawned2 _ _ c1 c2 =>
      3 + made c1 (below (hd 0 l) l) + made c2 (above (hd 0 l) l)
  | Joined1 _ _ _ c2 =>
      3 + 4 * distinct (below (hd 0 l) l) + made c2 (above (hd 0 l) l)
  | Joined2 _ _ _ _ =>
      3 + 4 * distinct (below (hd 0 l) l) + 4 * distinct (above (hd 0 l) l)
  | Exited _ => 4 * distinct l
  end.

(** No thread of the tree has ended with the null pointer on an array
    that is not empty. *)
Fixpoint unrefused (t : thread) (l : list Z) : Prop :=
  match t with
  | Start _ | Entered _ | Partitioned _ _ => True
  | Spawned1 _ _ c1 => unrefused c1 (below (hd 0 l) l)
  | Spawned2 _ _ c1 c2 =>
      unrefused c1 (below (hd 0 l) l) ∧ unrefused c2 (above (hd 0 l) l)
  | Joined1 _ _ sl c2 =>
      (sl = NULL → below (hd 0 l) l = []) ∧ unrefused c2 (above (hd 0 l) l)
  | Joined2 _ _ sl sm =>
      (sl = NULL → below (hd 0 l) l = []) ∧ (sm = NULL → above (hd 0 l) l = [])
  | Exited r => r = NULL → l = []
  end.

(** * Properties *)

(** ** The memory primitives *)

Lemma block_at_Some s b c : block_at s b = Some c ↔ heap s !! b = Some (Some c).
Proof.
  unfold block_at. destruct (heap s !! b) as [[c'|]|]; simpl; naive_solver.
Qed.

Lemma load_Done p i s v s' :
  load p i s = Done v s' →
  s' = s ∧ ∃ b off c, p = Ptr b off ∧ heap s !! b = Some (Some c) ∧
                      c !! (off + i)%nat = Some (Some v).
Proof.
  unfold load. destruct p as [|b off]; [done|].
  destruct (block_at s b) as [c|] eqn:Hb; [|done].
  destruct (c !! (off + i)%nat) as [[w|]|] eqn:Hc; intros; simplify_eq.
  split; [done|]. exists b, off, c. by rewrite <-block_at_Some.
Qed.

Lemma load_intro b off c i v s :
  heap s !! b = Some (Some c) → c !! (off + i)%nat = Some (Some v) →
  load (Ptr b off) i s = Done v s.
Proof.
  intros Hb Hc. unfold load. apply block_at_Some in Hb. by rewrite Hb, Hc.
Qed.

(** A read depends on the block read only. *)
Lemma load_stable p i s v s' :
  load p i s = Done v s →
  (∀ b, (b < length (heap s))%nat → heap s' !! b = heap s !! b) →
  load p i s' = Done v s'.
Proof.
  intros (_ & b & off & c & -> & Hb & Hc)%load_Done Hs.
  apply load_intro with c; [|done].
  rewrite Hs; [done|]. by eapply lookup_lt_Some.
Qed.

Lemma reads_stable s s' d l :
  reads s d l →
  (∀ b, (b < length (heap s))%nat → heap s' !! b = heap s !! b) →
  reads s' d l.
Proof. intros Hr Hs i v Hi. eapply load_stable; eauto. Qed.

Lemma reads_nil s d : reads s d [].
Proof. intros i v Hi. by rewrite lookup_nil in Hi. Qed.

Lemma reads_block s b (l : list Z) pad :
  heap s !! b = Some (Some ((Some <$> l) ++ pad)) → reads s (Ptr b 0) l.
Proof.
  intros Hb i v Hi. apply load_intro with ((Some <$> l) ++ pad); [done|].
  simpl. rewrite lookup_app_l by (rewrite length_fmap; by eapply lookup_lt_Some).
  by rewrite list_lookup_fmap, Hi.
Qed.

Lemma read_from_spec s p n : ∀ i l,
  read_from s p i n = Some l ↔
  length l = n ∧ ∀ j v, l !! j = Some v → load p (i + j) s = Done v s.
Proof.
  induction n as [|n IH]; intros i l; simpl.
  - split.
    + intros [= <-]. split; [done|]. intros j v Hj. by rewrite lookup_nil in Hj.
    + intros [Hl _]. by destruct l.
  - split.
    + destruct (load p i s) as [v s1| |] eqn:Hload; [|done..].
      destruct (read_from s p (S i) n) as [l'|] eqn:Hrec; [|done].
      simpl. intros [= <-]. apply IH in Hrec as [Hlen Hrec].
      apply load_Done in Hload as Hs1. destruct Hs1 as [-> _].
      split; [simpl; by rewrite Hlen|].
      intros [|j] w Hj; simpl in Hj.
      * injection Hj as <-. by rewrite Nat.add_0_r.
      * rewrite <-Nat.add_succ_comm. by apply Hrec.
    + intros [Hlen Hall]. destruct l as [|w l]; [done|].
      pose proof (Hall 0%nat w eq_refl) as Hw. rewrite Nat.add_0_r in Hw.
      rewrite Hw.
      assert (read_from s p (S i) n = Some l) as ->; [|done].
      apply IH. split; [simpl in Hlen; lia|].
      intros j v Hj. rewrite Nat.add_succ_comm. by apply (Hall (S j)).
Qed.

Lemma read_array_reads s p l : read_array s p (length l) = Some l ↔ reads s p l.
Proof.
  unfold read_array. rewrite read_from_spec. unfold reads. simpl.
  split; [by intros [_ ?]|by split].
Qed.

Lemma read_array_length s p n l : read_array s p n = Some l → length l = n.
Proof. unfold read_array. rewrite read_from_spec. by intros [? _]. Qed.

Lemma granting_tail s : granting s → Forall (λ a, a = true) (tail (oracle s)).
Proof. unfold granting. destruct (oracle s); [done|]. by inversion 1. Qed.

Lemma malloc_granted n s :
  granting s →
  malloc n s = Done (Ptr (length (heap s)) 0)
    (mkState (heap s ++ [Some (replicate n None)]) (tail (oracle s)) (thread_count s)).
Proof.
  unfold granting, malloc. destruct (oracle s) as [|[] o]; try done.
  inversion 1; simplify_eq.
Qed.

Lemma free_live b c s :
  heap s !! b = Some (Some c) →
  free (Ptr b 0) s = Done () (set_heap (<[b := None]> (heap s)) s).
Proof. intros Hb%block_at_Some. unfold free. by rewrite Hb. Qed.

Lemma free_Done p s u s' :
  free p s = Done u s' →
  (p = NULL ∧ s' = s) ∨
  (∃ b c, p = Ptr b 0 ∧ heap s !! b = Some (Some c) ∧
          s' = set_heap (<[b := None]> (heap s)) s).
Proof.
  unfold free. destruct p as [|b [|off]]; [naive_solver| |done].
  destruct (block_at s b) as [c|] eqn:Hb; [|done].
  apply block_at_Some in Hb. intros; simplify_eq. right. eauto.
Qed.

Lemma store_live b off c i v s :
  heap s !! b = Some (Some c) → (off + i < length c)%nat →
  store (Ptr b off) i v s =
    Done () (set_heap (<[b := Some (<[(off + i)%nat := Some v]> c)]> (heap s)) s).
Proof.
  intros Hb%block_at_Some Hi. unfold store. rewrite Hb. by rewrite decide_True.
Qed.

Lemma store_Done p i v s u s' :
  store p i v s = Done u s' →
  ∃ b off c, p = Ptr b off ∧ heap s !! b = Some (Some c) ∧
    s' = set_heap (<[b := Some (<[(off + i)%nat := Some v]> c)]> (heap s)) s.
Proof.
  unfold store. destruct p as [|b off]; [done|].
  destruct (block_at s b) as [c|] eqn:Hb; [|done].
  apply block_at_Some in Hb. case_decide; intros; simplify_eq. eauto 10.
Qed.

Lemma memcpy_Done dst src n s u s' :
  memcpy dst src n s = Done u s' →
  s' = s ∨ ∃ b off c, dst = Ptr b off ∧ s' = set_heap (<[b := Some c]> (heap s)) s.
Proof.
  unfold memcpy. destruct n as [|n]; [naive_solver|].
  destruct dst as [|bd od], src as [|bs os]; try done.
  destruct (block_at s bd) as [cd|], (block_at s bs) as [cs|]; try done.
  case_decide; intros; simplify_eq. right. eauto 10.
Qed.

(** ** [partition] *)

Lemma below_cons p x l :
  below p (x :: l) = if bool_decide (x < p) then x :: below p l else below p l.
Proof. unfold below. rewrite filter_cons. by repeat case_decide; case_bool_decide. Qed.

Lemma above_cons p x l :
  above p (x :: l) = if bool_decide (p < x) then x :: above p l else above p l.
Proof. unfold above. rewrite filter_cons. by repeat case_decide; case_bool_decide. Qed.

Lemma same_cons p x l :
  same p (x :: l) = if bool_decide (x = p) then x :: same p l else same p l.
Proof. unfold same. rewrite filter_cons. by repeat case_decide; case_bool_decide. Qed.

Lemma three_way_length p l :
  (length (below p l) + length (same p l) + length (above p l))%nat = length l.
Proof.
  induction l as [|x l IH]; [done|].
  rewrite below_cons, above_cons, same_cons.
  repeat case_bool_decide; simpl; lia.
Qed.

Lemma three_way_perm p l : below p l ++ same p l ++ above p l ≡ₚ l.
Proof.
  induction l as [|x l IH]; [done|].
  rewrite below_cons, above_cons, same_cons.
  repeat case_bool_decide; try lia; simpl.
  - by rewrite IH.
  - rewrite <-Permutation_middle. by rewrite IH.
  - rewrite app_assoc, <-Permutation_middle, <-app_assoc. by rewrite IH.
Qed.

Lemma same_hd p l : (0 < length (same p (p :: l)))%nat.
Proof. rewrite same_cons. rewrite bool_decide_eq_true_2 by done. simpl. lia. Qed.

Section heap_tail.
Context (h0 : list (option block)) (x y z : option block).

Lemma tail3_lookup_0 : (h0 ++ [x; y; z]) !! length h0 = Some x.
Proof. by rewrite lookup_app_r, Nat.sub_diag. Qed.

Lemma tail3_lookup_1 : (h0 ++ [x; y; z]) !! S (length h0) = Some y.
Proof.
  rewrite lookup_app_r by lia.
  by replace (S (length h0) - length h0)%nat with 1%nat by lia.
Qed.

Lemma tail3_lookup_2 : (h0 ++ [x; y; z]) !! S (S (length h0)) = Some z.
Proof.
  rewrite lookup_app_r by lia.
  by replace (S (S (length h0)) - length h0)%nat with 2%nat by lia.
Qed.

Lemma tail3_insert_0 w : <[length h0 := w]> (h0 ++ [x; y; z]) = h0 ++ [w; y; z].
Proof. by rewrite insert_app_r_alt, Nat.sub_diag. Qed.

Lemma tail3_insert_1 w : <[S (length h0) := w]> (h0 ++ [x; y; z]) = h0 ++ [x; w; z].
Proof.
  rewrite insert_app_r_alt by lia.
  by replace (S (length h0) - length h0)%nat with 1%nat by lia.
Qed.

Lemma tail3_insert_2 w : <[S (S (length h0)) := w]> (h0 ++ [x; y; z]) = h0 ++ [x; y; w].
Proof.
  rewrite insert_app_r_alt by lia.
  by replace (S (S (length h0)) - length h0)%nat with 2%nat by lia.
Qed.

End heap_tail.

(** Appending a value to the written prefix of a buffer. *)
Lemma buffer_push (xs : list Z) (v : Z) (c : option Z) (pad : block) :
  <[(0 + length xs)%nat := Some v]> ((Some <$> xs) ++ c :: pad)
  = (Some <$> (xs ++ [v])) ++ pad.
Proof.
  simpl. rewrite insert_app_r_alt by (rewrite length_fmap; lia).
  rewrite length_fmap, Nat.sub_diag. simpl.
  by rewrite fmap_app, <-app_assoc.
Qed.

(** The loop of [partition] over the remaining elements [l2], with the
    three output buffers being the last three blocks of the memory. *)
Lemma partition_loop_spec p d h0 o tc (l2 : list Z) :
  ∀ i xs ys zs px py pz,
  (∀ j v, l2 !! j = Some v →
     load d (i + j) (mkState h0 o tc) = Done v (mkState h0 o tc)) →
  (length l2 ≤ length px)%nat → (length l2 ≤ length py)%nat →
  (length l2 ≤ length pz)%nat →
  partition_loop d p (Ptr (length h0) 0) (Ptr (S (length h0)) 0)
      (Ptr (S (S (length h0))) 0)
      (length l2) i (length xs) (length ys) (length zs)
      (mkState (h0 ++ [Some ((Some <$> xs) ++ px); Some ((Some <$> ys) ++ py);
                       Some ((Some <$> zs) ++ pz)]) o tc)
  = Done (length (xs ++ below p l2), length (ys ++ above p l2),
          length (zs ++ same p l2))
      (mkState (h0 ++ [Some ((Some <$> xs ++ below p l2) ++ drop (length (below p l2)) px);
                       Some ((Some <$> ys ++ above p l2) ++ drop (length (above p l2)) py);
                       Some ((Some <$> zs ++ same p l2) ++ drop (length (same p l2)) pz)])
               o tc).
Proof.
  induction l2 as [|a l2 IH]; intros i xs ys zs px py pz Hload Hx Hy Hz.
  { simpl. unfold below, above, same. simpl. by rewrite !app_nil_r. }
  simpl in Hx, Hy, Hz.
  assert (∀ s', heap s' = h0 ++ [Some ((Some <$> xs) ++ px);
                                  Some ((Some <$> ys) ++ py);
                                  Some ((Some <$> zs) ++ pz)] →
                load d i s' = Done a s') as Ha.
  { intros s' Hs'. apply load_stable with (mkState h0 o tc).
    - specialize (Hload 0%nat a eq_refl). by rewrite Nat.add_0_r in Hload.
    - intros b Hb. simpl in *. rewrite Hs'. by apply lookup_app_l. }
  assert (∀ j v, l2 !! j = Some v →
            load d (S i + j) (mkState h0 o tc) = Done v (mkState h0 o tc)) as Hload'.
  { intros j v Hj. rewrite Nat.add_succ_comm. by apply (Hload (S j)). }
  rewrite below_cons, above_cons, same_cons.
  cbn [partition_loop length]. unfold mbind, M_bind, bind.
  rewrite !Ha by done.
  destruct (decide (a < p)) as [Hlt|Hlt]; [|destruct (decide (p < a)) as [Hgt|Hgt]];
    repeat (progress (decide_by_lia; rewrite ?Ha by done; cbn beta iota)).
  - destruct px as [|cx px]; [simpl in Hx; lia|]. simpl in Hx.
    erewrite store_live; [|apply tail3_lookup_0|rewrite length_app, length_fmap; simpl; lia].
    unfold set_heap. cbn [heap oracle thread_count].
    rewrite tail3_insert_0, buffer_push.
    replace (S (length xs)) with (length (xs ++ [a])) by (rewrite length_app; simpl; lia).
    rewrite (IH (S i) (xs ++ [a]) ys zs px py pz) by (done || lia).
    by rewrite <-!(app_assoc xs [a]).
  - destruct py as [|cy py]; [simpl in Hy; lia|]. simpl in Hy.
    erewrite store_live; [|apply tail3_lookup_1|rewrite length_app, length_fmap; simpl; lia].
    unfold set_heap. cbn [heap oracle thread_count].
    rewrite tail3_insert_1, buffer_push.
    replace (S (length ys)) with (length (ys ++ [a])) by (rewrite length_app; simpl; lia).
    rewrite (IH (S i) xs (ys ++ [a]) zs px py pz) by (done || lia).
    by rewrite <-!(app_assoc ys [a]).
  - destruct pz as [|cz pz]; [simpl in Hz; lia|]. simpl in Hz.
    erewrite store_live; [|apply tail3_lookup_2|rewrite length_app, length_fmap; simpl; lia].
    unfold set_heap. cbn [heap oracle thread_count].
    rewrite tail3_insert_2, buffer_push.
    replace (S (length zs)) with (length (zs ++ [a])) by (rewrite length_app; simpl; lia).
    rewrite (IH (S i) xs ys (zs ++ [a]) px py pz) by (done || lia).
    by rewrite <-!(app_assoc zs [a]).
Qed.

Lemma malloc_answer n s :
  malloc n s =
    if next_answer (oracle s)
    then Done (Ptr (length (heap s)) 0)
           (mkState (heap s ++ [Some (replicate n None)]) (tail (oracle s)) (thread_count s))
    else Done NULL (mkState (heap s) (tail (oracle s)) (thread_count s)).
Proof. unfold malloc, next_answer. by destruct (oracle s) as [|[] o]. Qed.

Lemma granting_answer s : granting s → next_answer (oracle s) = true.
Proof. unfold granting, next_answer. destruct (oracle s); [done|]. by inversion 1. Qed.

Lemma partition_granted s d l p :
  next_answer (oracle s) = true →
  next_answer (tail (oracle s)) = true →
  next_answer (tail (tail (oracle s))) = true →
  reads s d l →
  partition d (length l) p s = Done (Some (parts_of p l s)) (partitioned p l s).
Proof.
  intros H1 H2 H3 Hr. unfold partition, mbind, M_bind, bind.
  rewrite malloc_answer, H1. rewrite malloc_answer. cbn [heap oracle thread_count].
  rewrite H2. rewrite malloc_answer. cbn [heap oracle thread_count]. rewrite H3.
  rewrite bool_decide_eq_false_2 by naive_solver.
  rewrite !length_app. cbn [length]. rewrite !Nat.add_1_r.
  rewrite <-!app_assoc. cbn [app].
  pose proof (partition_loop_spec p d (heap s) (tail (tail (tail (oracle s))))
    (thread_count s) l 0 [] [] []
    (replicate (length l) None) (replicate (length l) None) (replicate (length l) None))
    as Hloop.
  cbn [fmap list_fmap app length] in Hloop. rewrite Hloop; clear Hloop.
  - unfold ret, partitioned, parts_of, buffer. rewrite !drop_replicate. done.
  - intros j v Hj. apply load_stable with s; [by apply Hr|done].
  - by rewrite length_replicate.
  - by rewrite length_replicate.
  - by rewrite length_replicate.
Qed.

Lemma partition_refused s d n p :
  ¬ (next_answer (oracle s) = true ∧ next_answer (tail (oracle s)) = true ∧
     next_answer (tail (tail (oracle s))) = true) →
  ∃ s', partition d n p s = Done None s' ∧
        oracle s' = tail (tail (tail (oracle s))) ∧
        thread_count s' = thread_count s ∧
        heap s' = heap s
          ++ (if next_answer (oracle s) then [Some (replicate n None)] else [])
          ++ (if next_answer (tail (oracle s)) then [Some (replicate n None)] else [])
          ++ (if next_answer (tail (tail (oracle s))) then [Some (replicate n None)] else []).
Proof.
  intros Hno. unfold partition, mbind, M_bind, bind.
  rewrite malloc_answer.
  destruct (next_answer (oracle s)) eqn:H1; rewrite malloc_answer;
    cbn [heap oracle thread_count];
    (destruct (next_answer (tail (oracle s))) eqn:H2); rewrite malloc_answer;
    cbn [heap oracle thread_count];
    (destruct (next_answer (tail (tail (oracle s)))) eqn:H3);
    try (exfalso; by apply Hno);
    (rewrite bool_decide_eq_true_2 by naive_solver);
    eexists; (split; [reflexivity|]); cbn [heap oracle thread_count];
    rewrite <-?app_assoc, ?app_nil_r; done.
Qed.

(** Whatever the memory and the allocator: the counters of the loop
    advance by one in each iteration and never go back, and the loop
    leaves the blocks below its three buffers alone. *)
Lemma partition_loop_counts d p bl bm be n k :
  ∀ i lc mc ec s c s',
  (n ≤ bl)%nat → (n ≤ bm)%nat → (n ≤ be)%nat →
  partition_loop d p (Ptr bl 0) (Ptr bm 0) (Ptr be 0) k i lc mc ec s = Done c s' →
  (c.1.1 + c.1.2 + c.2 = lc + mc + ec + k)%nat ∧
  (lc ≤ c.1.1)%nat ∧ (mc ≤ c.1.2)%nat ∧ (ec ≤ c.2)%nat ∧
  oracle s' = oracle s ∧ thread_count s' = thread_count s ∧
  length (heap s') = length (heap s) ∧
  ∀ b, (b < n)%nat → heap s' !! b = heap s !! b.
Proof.
  induction k as [|k IH]; intros i lc mc ec s c s' Hbl Hbm Hbe.
  { simpl. unfold ret. intros [= <- <-]. simpl. repeat split; auto with lia. }
  cbn [partition_loop]. unfold mbind, M_bind, bind.
  destruct (load d i s) as [a s1| |] eqn:Ha; [|done..].
  apply load_Done in Ha as Hs1. destruct Hs1 as [-> _].
  assert (∀ q j u s2, store q j a s = Done u s2 →
            q = Ptr bl 0 ∨ q = Ptr bm 0 ∨ q = Ptr be 0 →
            oracle s2 = oracle s ∧ thread_count s2 = thread_count s ∧
            length (heap s2) = length (heap s) ∧
            ∀ b, (b < n)%nat → heap s2 !! b = heap s !! b) as Hstore.
  { intros q j u s2 (b & off & cells & -> & Hb & ->)%store_Done Hq.
    unfold set_heap. cbn [heap oracle thread_count].
    rewrite length_insert. repeat split; [].
    intros b' Hb'. apply list_lookup_insert_ne. naive_solver lia. }
  assert (∀ q j,
     q = Ptr bl 0 ∨ q = Ptr bm 0 ∨ q = Ptr be 0 →
     ∀ lc' mc' ec', (lc' + mc' + ec' = S (lc + mc + ec))%nat →
     (lc ≤ lc')%nat → (mc ≤ mc')%nat → (ec ≤ ec')%nat →
     match store q j a s with
     | Done _ s2 => partition_loop d p (Ptr bl 0) (Ptr bm 0) (Ptr be 0) k (S i) lc' mc' ec' s2
     | Fault => Fault
     | OutOfFuel => OutOfFuel
     end = Done c s' →
     (c.1.1 + c.1.2 + c.2 = lc + mc + ec + S k)%nat ∧
     (lc ≤ c.1.1)%nat ∧ (mc ≤ c.1.2)%nat ∧ (ec ≤ c.2)%nat ∧
     oracle s' = oracle s ∧ thread_count s' = thread_count s ∧
     length (heap s') = length (heap s) ∧
     ∀ b, (b < n)%nat → heap s' !! b = heap s !! b) as Hbranch.
  { intros q j Hq lc' mc' ec' Hsum Hlc Hmc Hec.
    destruct (store q j a s) as [u s2| |] eqn:Hst; [|done..].
    apply Hstore in Hst as (Ho & Ht & Hlen & Hfr); [|done].
    intros Hrec. apply IH in Hrec as (Hsum' & ? & ? & ? & Ho' & Ht' & Hlen' & Hfr');
      [|done..].
    repeat split; [lia..|congruence|congruence|congruence|].
    intros b Hb. by rewrite Hfr', Hfr. }
  destruct (bool_decide (a < p)).
  - rewrite Ha. cbn beta iota. apply Hbranch; auto with lia.
  - rewrite Ha. cbn beta iota. destruct (bool_decide (a > p)).
    + rewrite Ha. cbn beta iota. apply Hbranch; auto with lia.
    + rewrite Ha. cbn beta iota. apply Hbranch; auto with lia.
Qed.

(** When the value at index [i] is the pivot, the equal group grows. *)
Lemma partition_loop_pivot d p bl bm be k i lc mc ec s c s' :
  load d i s = Done p s →
  partition_loop d p (Ptr bl 0) (Ptr bm 0) (Ptr be 0) (S k) i lc mc ec s = Done c s' →
  (ec < c.2)%nat.
Proof.
  intros Hp. cbn [partition_loop]. unfold mbind, M_bind, bind.
  repeat (progress (decide_by_lia; rewrite ?Hp; cbn beta iota)).
  match goal with
  | |- context [store ?q ?j p s] =>
      destruct (store q j p s) as [u s2| |] eqn:Hst; [|done..]
  end.
  intros Hrec.
  eapply (partition_loop_counts _ _ _ _ _ 0%nat) in Hrec; [lia|lia..].
Qed.

(** ** Blocks that a piece of code leaves alone *)

Lemma extends_refl n s : extends n s s.
Proof. by split. Qed.

Lemma extends_trans n s1 s2 s3 : extends n s1 s2 → extends n s2 s3 → extends n s1 s3.
Proof.
  intros [Hl1 H1] [Hl2 H2]. split; [lia|]. intros b Hb. by rewrite H2, H1.
Qed.

Lemma extends_weaken n m s s' : extends n s s' → (m ≤ n)%nat → extends m s s'.
Proof. intros [Hl H] Hm. split; [done|]. intros b Hb. apply H. lia. Qed.

Lemma extends_append n ext o tc s :
  (n ≤ length (heap s))%nat → extends n s (mkState (heap s ++ ext) o tc).
Proof.
  intros Hn. split; simpl; [rewrite length_app; lia|].
  intros b Hb. apply lookup_app_l. lia.
Qed.

Lemma reads_extends s s' d l :
  reads s d l → extends (length (heap s)) s s' → reads s' d l.
Proof. intros Hr [_ Hs]. by eapply reads_stable. Qed.

Lemma malloc_frame n s p s' :
  malloc n s = Done p s' →
  thread_count s' = thread_count s ∧ extends (length (heap s)) s s' ∧
  (length (heap s') ≤ S (length (heap s)))%nat ∧
  (p = NULL ∨ (p = Ptr (length (heap s)) 0 ∧ length (heap s') = S (length (heap s)))).
Proof.
  rewrite malloc_answer. destruct (next_answer (oracle s)); intros [= <- <-]; simpl.
  - split; [done|]. split; [by apply extends_append|].
    rewrite length_app. simpl. split; [lia|]. right. split; [done|lia].
  - split; [done|]. split; [by split|]. split; [lia|]. by left.
Qed.

Lemma free_frame n p s u s' :
  free p s = Done u s' →
  (∀ b off, p = Ptr b off → (n ≤ b)%nat) →
  oracle s' = oracle s ∧ thread_count s' = thread_count s ∧
  length (heap s') = length (heap s) ∧ extends n s s'.
Proof.
  intros [[-> ->]|(b & c & -> & Hb & ->)]%free_Done Hp.
  - repeat split; done.
  - repeat split; simpl; [by rewrite length_insert| |].
    + by rewrite length_insert.
    + intros b' Hb'. apply list_lookup_insert_ne. specialize (Hp b 0%nat eq_refl). lia.
Qed.

Lemma memcpy_frame n dst src k s u s' :
  memcpy dst src k s = Done u s' →
  (∀ b off, dst = Ptr b off → (n ≤ b)%nat) →
  oracle s' = oracle s ∧ thread_count s' = thread_count s ∧
  length (heap s') = length (heap s) ∧ extends n s s'.
Proof.
  intros [->|(b & off & c & -> & ->)]%memcpy_Done Hp.
  - repeat split; done.
  - repeat split; simpl; [by rewrite length_insert| |].
    + by rewrite length_insert.
    + intros b' Hb'. apply list_lookup_insert_ne. specialize (Hp b off eq_refl). lia.
Qed.

Lemma merge_frame n result sl ls eq es sm ms s u s' :
  merge result sl ls eq es sm ms s = Done u s' →
  (∀ b off, result = Ptr b off → (n ≤ b)%nat) →
  oracle s' = oracle s ∧ thread_count s' = thread_count s ∧
  length (heap s') = length (heap s) ∧ extends n s s'.
Proof.
  intros Hm Hres. unfold merge, mbind, M_bind, bind in Hm.
  assert (∀ k b off, padd result k = Ptr b off → (n ≤ b)%nat) as Hdst.
  { intros k b off. destruct result as [|b' off']; [done|]. simpl.
    intros [= <- <-]. by eapply Hres. }
  destruct (memcpy _ sl ls s) as [[] s1| |] eqn:H1; [|done..].
  destruct (memcpy _ eq es s1) as [[] s2| |] eqn:H2; [|done..].
  eapply memcpy_frame in H1 as (Ho1 & Ht1 & Hl1 & He1); [|by eauto].
  eapply memcpy_frame in H2 as (Ho2 & Ht2 & Hl2 & He2); [|by eauto].
  eapply memcpy_frame in Hm as (Ho3 & Ht3 & Hl3 & He3); [|by eauto].
  repeat split; [congruence..| |].
  - destruct He1, He2, He3. lia.
  - intros b Hb. destruct He1 as [_ E1], He2 as [_ E2], He3 as [_ E3].
    by rewrite E3, E2, E1.
Qed.

(** What [partition] does to the memory whatever the allocator answers:
    it only adds blocks; when it succeeds, its three buffers are the three
    new blocks, the three sizes add up to [n], and the equal group is not
    empty if the pivot is the first element. *)
Lemma partition_Done d n p s r s' :
  partition d n p s = Done r s' →
  thread_count s' = thread_count s ∧ extends (length (heap s)) s s' ∧
  (length (heap s') ≤ 3 + length (heap s))%nat ∧
  ∀ ps, r = Some ps →
    less ps = Ptr (length (heap s)) 0 ∧ more ps = Ptr (S (length (heap s))) 0 ∧
    equal ps = Ptr (S (S (length (heap s)))) 0 ∧
    length (heap s') = (3 + length (heap s))%nat ∧
    (less_size ps + more_size ps + equal_size ps = n)%nat ∧
    (load d 0 s = Done p s → (0 < n)%nat → (0 < equal_size ps)%nat).
Proof.
  unfold partition, mbind, M_bind, bind.
  destruct (malloc n s) as [pl s1| |] eqn:H1; [|done..].
  destruct (malloc n s1) as [pm s2| |] eqn:H2; [|done..].
  destruct (malloc n s2) as [pe s3| |] eqn:H3; [|done..].
  apply malloc_frame in H1 as (Ht1 & He1 & Hb1 & Hp1).
  apply malloc_frame in H2 as (Ht2 & He2 & Hb2 & Hp2).
  apply malloc_frame in H3 as (Ht3 & He3 & Hb3 & Hp3).
  assert (extends (length (heap s)) s s3) as He.
  { pose proof He1 as [? _]. pose proof He2 as [? _].
    eapply extends_trans; [done|]. eapply extends_trans.
    - eapply extends_weaken; [done|lia].
    - eapply extends_weaken; [done|lia]. }
  case_bool_decide as Hnull.
  { unfold ret. intros [= <- <-].
    split; [congruence|]. split; [done|]. split; [lia|]. by intros ps. }
  destruct Hp1 as [->|[-> Hl1]]; [tauto|].
  destruct Hp2 as [->|[-> Hl2]]; [tauto|].
  destruct Hp3 as [->|[-> Hl3]]; [tauto|].
  rewrite Hl2, Hl1.
  destruct (partition_loop _ _ _ _ _ _ _ _ _ _ s3) as [[[lc mc] ec] s4| |] eqn:Hloop;
    [|done..].
  unfold ret. intros [= <- <-].
  pose proof Hloop as Hcount.
  apply (partition_loop_counts _ _ _ _ _ (length (heap s))) in Hcount
    as (Hsum & _ & _ & _ & Ho & Ht & Hlen & Hfr); [|lia..].
  simpl in Hsum.
  split; [congruence|]. split.
  { destruct He as [? He]. split; [lia|]. intros b Hb. by rewrite Hfr, He. }
  split; [lia|].
  intros ps [= <-]. simpl. repeat split; [lia..|].
  intros Hpiv Hn. destruct n as [|n]; [lia|].
  eapply partition_loop_pivot in Hloop; [simpl in Hloop; lia|].
  eapply load_stable; [done|]. apply He.
Qed.

(** ** Termination *)

Lemma bind_no_timeout {A B} (m : M A) (k : A → M B) s :
  m s ≠ OutOfFuel →
  (∀ a s', m s = Done a s' → k a s' ≠ OutOfFuel) →
  (m ≫= k) s ≠ OutOfFuel.
Proof.
  intros Hm Hk. unfold mbind, M_bind, bind.
  destruct (m s) as [a s'| |]; [by apply Hk|done..].
Qed.

Lemma load_no_timeout p i s : load p i s ≠ OutOfFuel.
Proof.
  unfold load. destruct p; [done|]. destruct (block_at s b); [|done].
  by destruct (l !! _) as [[]|].
Qed.

Lemma store_no_timeout p i v s : store p i v s ≠ OutOfFuel.
Proof.
  unfold store. destruct p; [done|]. destruct (block_at s b); [|done].
  by case_decide.
Qed.

Lemma malloc_no_timeout n s : malloc n s ≠ OutOfFuel.
Proof. rewrite malloc_answer. by destruct (next_answer _). Qed.

Lemma free_no_timeout p s : free p s ≠ OutOfFuel.
Proof.
  unfold free. destruct p as [|b [|off]]; [done| |done]. by destruct (block_at s b).
Qed.

Lemma memcpy_no_timeout dst src n s : memcpy dst src n s ≠ OutOfFuel.
Proof.
  unfold memcpy. destruct n; [done|]. destruct dst, src; try done.
  destruct (block_at s b), (block_at s b0); try done. by case_decide.
Qed.

Lemma merge_no_timeout result sl ls eq es sm ms s :
  merge result sl ls eq es sm ms s ≠ OutOfFuel.
Proof.
  unfold merge. apply bind_no_timeout; [apply memcpy_no_timeout|]. intros _ s1 _.
  apply bind_no_timeout; [apply memcpy_no_timeout|]. intros _ s2 _.
  apply memcpy_no_timeout.
Qed.

Lemma partition_loop_no_timeout d p pl pm pe k :
  ∀ i lc mc ec s, partition_loop d p pl pm pe k i lc mc ec s ≠ OutOfFuel.
Proof.
  induction k as [|k IH]; intros i lc mc ec s; [done|].
  cbn [partition_loop].
  apply bind_no_timeout; [apply load_no_timeout|]. intros a s1 _.
  destruct (bool_decide (a < p)).
  { apply bind_no_timeout; [apply load_no_timeout|]. intros v s2 _.
    apply bind_no_timeout; [apply store_no_timeout|]. intros _ s3 _. apply IH. }
  apply bind_no_timeout; [apply load_no_timeout|]. intros b s2 _.
  destruct (bool_decide (b > p)).
  - apply bind_no_timeout; [apply load_no_timeout|]. intros v s3 _.
    apply bind_no_timeout; [apply store_no_timeout|]. intros _ s4 _. apply IH.
  - apply bind_no_timeout; [apply load_no_timeout|]. intros v s3 _.
    apply bind_no_timeout; [apply store_no_timeout|]. intros _ s4 _. apply IH.
Qed.

Lemma partition_no_timeout d n p s : partition d n p s ≠ OutOfFuel.
Proof.
  unfold partition.
  apply bind_no_timeout; [apply malloc_no_timeout|]. intros pl s1 _.
  apply bind_no_timeout; [apply malloc_no_timeout|]. intros pm s2 _.
  apply bind_no_timeout; [apply malloc_no_timeout|]. intros pe s3 _.
  case_bool_decide; [done|].
  apply bind_no_timeout; [apply partition_loop_no_timeout|].
  by intros [[lc mc] ec] s4 _.
Qed.

(** A budget above the size is enough, in any memory and whatever the
    allocator answers. *)
Lemma quicksort_no_timeout fuel :
  ∀ size data s, (size < fuel)%nat → quicksort fuel size data s ≠ OutOfFuel.
Proof.
  induction fuel as [|fuel IH]; intros size data s Hfuel; [lia|].
  cbn [quicksort]. case_bool_decide as Hsize; [done|].
  apply bind_no_timeout; [apply load_no_timeout|]. intros pivot s0 Hpiv.
  apply load_Done in Hpiv as Hs0. destruct Hs0 as [-> _].
  apply bind_no_timeout; [apply partition_no_timeout|]. intros [ps|] s1 Hpart; [|done].
  apply partition_Done in Hpart as (_ & _ & _ & Hps).
  destruct (Hps ps eq_refl) as (_ & _ & _ & _ & Hsum & Heq).
  specialize (Heq Hpiv ltac:(lia)).
  apply bind_no_timeout; [apply IH; lia|]. intros sl s2 _.
  apply bind_no_timeout; [apply IH; lia|]. intros sm s3 _.
  apply bind_no_timeout; [apply malloc_no_timeout|]. intros res s4 _.
  apply bind_no_timeout; [apply merge_no_timeout|]. intros _ s5 _.
  repeat (apply bind_no_timeout; [apply free_no_timeout|]; intros _ ? _).
  done.
Qed.

(** ** Merging and releasing *)

Lemma bind_Done {A B} (m : M A) (k : A → M B) s b s' :
  (m ≫= k) s = Done b s' → ∃ a s1, m s = Done a s1 ∧ k a s1 = Done b s'.
Proof.
  unfold mbind, M_bind, bind. destruct (m s) as [a s1| |]; [|done..]. eauto.
Qed.

Lemma set_heap_id s : set_heap (heap s) s = s.
Proof. by destruct s. Qed.

Lemma blit_nil off (c : block) : blit [] off c = c.
Proof. unfold blit. simpl. rewrite Nat.add_0_r. apply take_drop. Qed.

(** Copying [cs] right after the part of a buffer that is already filled. *)
Lemma blit_fill (filled cs : list Z) (k : nat) :
  blit (Some <$> cs) (length filled)
       ((Some <$> filled) ++ replicate (length cs + k) None)
  = (Some <$> (filled ++ cs)) ++ replicate k None.
Proof.
  unfold blit. rewrite take_app_length' by (by rewrite length_fmap).
  rewrite drop_app_ge by (rewrite !length_fmap; lia).
  rewrite !length_fmap, drop_replicate.
  replace (length cs + k - (length filled + length cs - length filled))%nat with k by lia.
  by rewrite fmap_app, <-app_assoc.
Qed.

Lemma stored_reads s p l : stored s p l → reads s p l.
Proof. intros (b & pad & -> & Hb). by eapply reads_block. Qed.

Lemma result_at_reads s r l : result_at s r l → reads s r l.
Proof.
  destruct l as [|x l]; [intros _; apply reads_nil|].
  intros (b & -> & Hb). apply reads_block with []. by rewrite app_nil_r.
Qed.

Lemma memcpy_copy s bd od cd src (l : list Z) :
  heap s !! bd = Some (Some cd) → (od + length l ≤ length cd)%nat →
  l = [] ∨ (∃ bs pad, src = Ptr bs 0 ∧ bs ≠ bd ∧
                      heap s !! bs = Some (Some ((Some <$> l) ++ pad))) →
  memcpy (Ptr bd od) src (length l) s
  = Done () (set_heap (<[bd := Some (blit (Some <$> l) od cd)]> (heap s)) s).
Proof.
  intros Hbd Hlen [->|(bs & pad & -> & Hne & Hbs)].
  { simpl. rewrite blit_nil, list_insert_id by done. by rewrite set_heap_id. }
  destruct l as [|x l].
  { simpl. rewrite blit_nil, list_insert_id by done. by rewrite set_heap_id. }
  unfold memcpy. cbn [length].
  apply block_at_Some in Hbd as Hbd'. apply block_at_Some in Hbs as Hbs'.
  rewrite Hbd', Hbs'. rewrite decide_True.
  - rewrite drop_0. rewrite take_app_length' by (by rewrite length_fmap). done.
  - split; [done|]. split; [|by left].
    rewrite length_app, length_fmap. simpl. lia.
Qed.

Lemma release_all_other bs h b : b ∉ bs → release_all bs h !! b = h !! b.
Proof.
  revert h. induction bs as [|b' bs IH]; intros h Hb; [done|].
  apply not_elem_of_cons in Hb as [Hne Hb]. simpl.
  rewrite IH by done. by apply list_lookup_insert_ne.
Qed.

Lemma release_all_length bs h : length (release_all bs h) = length h.
Proof.
  revert h. induction bs as [|b bs IH]; intros h; [done|].
  simpl. by rewrite IH, length_insert.
Qed.

Lemma release_all_freed bs h b :
  b ∈ bs → (b < length h)%nat → release_all bs h !! b = Some None.
Proof.
  revert h. induction bs as [|b' bs IH]; intros h Hb Hlt; [by apply elem_of_nil in Hb|].
  simpl. destruct (decide (b ∈ bs)) as [Hin|Hnin].
  - apply IH; [done|by rewrite length_insert].
  - apply elem_of_cons in Hb as [->|?]; [|done].
    rewrite release_all_other by done. by apply list_lookup_insert_eq.
Qed.

(** A run of [free] calls on pointers that are null or the starts of
    distinct live blocks. *)
Lemma frees_run {A} (ps : list ptr) (k : M A) s :
  NoDup (ps ≫= blk) →
  (∀ p, p ∈ ps → p = NULL ∨ ∃ b c, p = Ptr b 0 ∧ heap s !! b = Some (Some c)) →
  foldr (λ p m, free p ≫= λ _, m) k ps s
  = k (set_heap (release_all (ps ≫= blk) (heap s)) s).
Proof.
  revert s. induction ps as [|p ps IH]; intros s Hnd Hlive.
  { simpl. by rewrite set_heap_id. }
  cbn [foldr]. unfold mbind at 1, M_bind at 1, bind at 1.
  destruct (Hlive p) as [->|(b & c & -> & Hb)]; [left| |].
  - simpl. apply IH; [done|]. intros q Hq. apply Hlive. by right.
  - rewrite (free_live _ _ _ Hb).
    change (Ptr b 0 :: ps ≫= blk) with (b :: (ps ≫= blk)) in *.
    apply NoDup_cons in Hnd as [Hnotin Hnd].
    rewrite IH; [done|done|].
    intros q Hq. destruct (Hlive q) as [->|(b' & c' & -> & Hb')]; [by right|by left|].
    right. exists b', c'. split; [done|]. simpl.
    rewrite list_lookup_insert_ne; [done|].
    intros ->. apply Hnotin. apply list_elem_of_bind. exists (Ptr b' 0).
    split; [by left|done].
Qed.

Lemma result_at_source (h : list (option block)) o tc r l x :
  result_at (mkState h o tc) r l →
  l = [] ∨ ∃ bs pad, r = Ptr bs 0 ∧ bs ≠ length h ∧
                     (h ++ [x]) !! bs = Some (Some ((Some <$> l) ++ pad)).
Proof.
  destruct l as [|a l]; [by left|]. intros (b & -> & Hb). right. simpl in Hb.
  exists b, []. apply lookup_lt_Some in Hb as Hlt.
  split; [done|]. split; [lia|]. rewrite lookup_app_l by done. by rewrite app_nil_r.
Qed.

Lemma memcpy_last (h : list (option block)) o tc od cd src (l : list Z) :
  (od + length l ≤ length cd)%nat →
  l = [] ∨ (∃ bs pad, src = Ptr bs 0 ∧ bs ≠ length h ∧
                      (h ++ [Some cd]) !! bs = Some (Some ((Some <$> l) ++ pad))) →
  memcpy (Ptr (length h) od) src (length l) (mkState (h ++ [Some cd]) o tc)
  = Done () (mkState (h ++ [Some (blit (Some <$> l) od cd)]) o tc).
Proof.
  intros Hlen Hsrc. erewrite memcpy_copy; [|by apply list_lookup_middle|done|done].
  unfold set_heap. simpl. by rewrite insert_app_r_alt, Nat.sub_diag.
Qed.

Lemma merge_and_release_spec s size p sl sm bl bm be cl cm pad (L E G : list Z) :
  next_answer (oracle s) = true →
  size = (length L + length E + length G)%nat →
  less_size p = length L → equal_size p = length E → more_size p = length G →
  less p = Ptr bl 0 → more p = Ptr bm 0 → equal p = Ptr be 0 →
  heap s !! bl = Some (Some cl) → heap s !! bm = Some (Some cm) →
  heap s !! be = Some (Some ((Some <$> E) ++ pad)) →
  result_at s sl L → result_at s sm G →
  NoDup ([bl; bm; be] ++ blk sl ++ blk sm) →
  merge_and_release size p sl sm s
  = Done (Ptr (length (heap s)) 0)
      (mkState (release_all ([bl; bm; be] ++ blk sl ++ blk sm)
                  (heap s ++ [Some (Some <$> (L ++ E ++ G))]))
               (tail (oracle s)) (thread_count s)).
Proof.
  intros Hg -> HL HE HG Hl Hm He Hbl Hbm Hbe Hsl Hsm Hnd.
  destruct s as [h o tc]. simpl in *.
  unfold merge_and_release.
  unfold mbind at 1, M_bind at 1, bind at 1. rewrite malloc_answer.
  cbn [heap oracle thread_count]. rewrite Hg.
  unfold mbind at 1, M_bind at 1, bind at 1.
  assert (merge (Ptr (length h) 0) sl (less_size p) (equal p) (equal_size p) sm
            (more_size p)
            (mkState (h ++ [Some (replicate (length L + length E + length G) None)])
                     (tail o) tc)
          = Done () (mkState (h ++ [Some (Some <$> (L ++ E ++ G))]) (tail o) tc)) as ->.
  { unfold merge, padd, mbind, M_bind, bind. rewrite HL, HE, HG, He.
    rewrite (memcpy_last h (tail o) tc (0 + 0)
               (replicate (length L + length E + length G) None) sl L);
      [|rewrite length_replicate; lia|by eapply result_at_source].
    change (replicate (length L + length E + length G) None)
      with ((Some <$> @nil Z) ++ @replicate (option Z) (length L + length E + length G) None).
    change (0 + 0)%nat with (length (@nil Z)).
    rewrite <-Nat.add_assoc, blit_fill. cbn [app].
    change (0 + (0 + length L))%nat with (length L).
    rewrite (memcpy_last h (tail o) tc (length L) _ (Ptr be 0) E); cycle 1.
    { rewrite length_app, length_fmap, length_replicate. lia. }
    { right. exists be, pad. split; [done|].
      apply lookup_lt_Some in Hbe as Hlt'. split; [lia|]. by rewrite lookup_app_l. }
    rewrite blit_fill.
    change (0 + (0 + length L + length E))%nat with (length L + length E)%nat.
    rewrite <-length_app.
    replace (replicate (length G) None)
      with (@replicate (option Z) (length G + 0) None) by (f_equal; lia).
    rewrite (memcpy_last h (tail o) tc (length (L ++ E)) _ sm G); cycle 1.
    { rewrite !length_app, length_fmap, length_replicate, !length_app. lia. }
    { by eapply result_at_source. }
    rewrite blit_fill. simpl. by rewrite app_nil_r, <-app_assoc. }
  rewrite Hl, Hm, He.
  change (free (Ptr bl 0);; free (Ptr bm 0);; free (Ptr be 0);; free sl;; free sm;;
          ret (Ptr (length h) 0))
    with (foldr (λ q m, free q ≫= λ _, m) (ret (Ptr (length h) 0) : M ptr)
            [Ptr bl 0; Ptr bm 0; Ptr be 0; sl; sm]).
  assert ([Ptr bl 0; Ptr bm 0; Ptr be 0; sl; sm] ≫= blk = [bl; bm; be] ++ blk sl ++ blk sm)
    as Hblks.
  { simpl. by rewrite app_nil_r. }
  rewrite frees_run.
  - by rewrite Hblks.
  - by rewrite Hblks.
  - cbn [heap]. intros q Hq.
    assert (∀ b c, h !! b = Some (Some c) →
              ∃ c', (h ++ [Some (Some <$> L ++ E ++ G)]) !! b = Some (Some c')) as Hkeep.
    { intros b c Hb. exists c. rewrite lookup_app_l; [done|]. by eapply lookup_lt_Some. }
    assert (∀ r l, result_at (mkState h o tc) r l →
              r = NULL ∨ ∃ b c, r = Ptr b 0 ∧
                (h ++ [Some (Some <$> L ++ E ++ G)]) !! b = Some (Some c)) as Hres.
    { intros r [|a l]; [by left|]. intros (b & -> & Hb). right.
      destruct (Hkeep _ _ Hb) as [c' Hc']. eauto. }
    rewrite !elem_of_cons in Hq.
    destruct Hq as [->|[->|[->|[->|[->|Hq]]]]]; [..|by apply elem_of_nil in Hq].
    + right. destruct (Hkeep _ _ Hbl) as [c' Hc']. eauto.
    + right. destruct (Hkeep _ _ Hbm) as [c' Hc']. eauto.
    + right. destruct (Hkeep _ _ Hbe) as [c' Hc']. eauto.
    + by eapply Hres.
    + by eapply Hres.
Qed.

Lemma quicksort_unfold fuel size data :
  quicksort (S fuel) size data =
    if bool_decide (size = 0%nat) then ret NULL
    else
      pivot ← load data 0;
      r ← partition data size pivot;
      match r with
      | None => ret NULL
      | Some p =>
          sorted_less ← quicksort fuel (less_size p) (less p);
          sorted_more ← quicksort fuel (more_size p) (more p);
          merge_and_release size p sorted_less sorted_more
      end.
Proof. reflexivity. Qed.

(** Whatever the allocator answers, the second half only touches the
    blocks of the five arrays it releases and the block it allocates. *)
Lemma merge_and_release_frame n size p sl sm s r s' :
  merge_and_release size p sl sm s = Done r s' →
  (n ≤ length (heap s))%nat →
  (∀ q b off, q ∈ [less p; more p; equal p; sl; sm] → q = Ptr b off → (n ≤ b)%nat) →
  thread_count s' = thread_count s ∧ extends n s s' ∧
  (r = NULL ∨ (r = Ptr (length (heap s)) 0 ∧ length (heap s') = S (length (heap s)))).
Proof.
  intros Hrun Hn Hq. unfold merge_and_release in Hrun.
  apply bind_Done in Hrun as (res & s1 & Hmalloc & Hrun).
  apply bind_Done in Hrun as ([] & s2 & Hmerge & Hrun).
  apply bind_Done in Hrun as ([] & s3 & Hf1 & Hrun).
  apply bind_Done in Hrun as ([] & s4 & Hf2 & Hrun).
  apply bind_Done in Hrun as ([] & s5 & Hf3 & Hrun).
  apply bind_Done in Hrun as ([] & s6 & Hf4 & Hrun).
  apply bind_Done in Hrun as ([] & s7 & Hf5 & Hrun).
  injection Hrun as <- <-.
  apply malloc_frame in Hmalloc as (Ht1 & He1 & _ & Hres).
  apply (merge_frame n) in Hmerge as (_ & Ht2 & Hl2 & He2).
  2:{ intros b off ->. destruct Hres as [?|[[= -> ->] _]]; [done|lia]. }
  apply (free_frame n) in Hf1 as (_ & Ht3 & Hl3 & He3);
    [|intros b off; apply Hq; by repeat constructor].
  apply (free_frame n) in Hf2 as (_ & Ht4 & Hl4 & He4);
    [|intros b off; apply Hq; by repeat constructor].
  apply (free_frame n) in Hf3 as (_ & Ht5 & Hl5 & He5);
    [|intros b off; apply Hq; by repeat constructor].
  apply (free_frame n) in Hf4 as (_ & Ht6 & Hl6 & He6);
    [|intros b off; apply Hq; by repeat constructor].
  apply (free_frame n) in Hf5 as (_ & Ht7 & Hl7 & He7);
    [|intros b off; apply Hq; by repeat constructor].
  split; [congruence|]. split.
  - eapply extends_trans; [by eapply extends_weaken|].
    repeat (eapply extends_trans; [eassumption|]). done.
  - destruct Hres as [->|[-> Hl1]]; [by left|right]. split; [done|]. congruence.
Qed.

(** [quicksort] leaves every block it was given as it was: it writes to
    and releases only blocks it allocated itself.  This holds whatever the
    allocator answers. *)
Lemma quicksort_frame fuel :
  ∀ size data s r s',
  quicksort fuel size data s = Done r s' →
  thread_count s' = thread_count s ∧ extends (length (heap s)) s s' ∧
  (r = NULL ∨ ∃ b, r = Ptr b 0 ∧ (length (heap s) ≤ b < length (heap s'))%nat).
Proof.
  induction fuel as [|fuel IH]; intros size data s r s'; [done|].
  rewrite quicksort_unfold. case_bool_decide as Hsize.
  { intros [= <- <-]. split; [done|]. split; [apply extends_refl|by left]. }
  intros Hrun.
  apply bind_Done in Hrun as (pivot & s0 & Hpiv & Hrun).
  apply load_Done in Hpiv as [-> _].
  apply bind_Done in Hrun as ([ps|] & s1 & Hpart & Hrun).
  2:{ injection Hrun as <- <-.
      apply partition_Done in Hpart as (Ht & He & _). split; [done|]. split; [done|by left]. }
  apply partition_Done in Hpart as (Ht1 & He1 & _ & Hps).
  destruct (Hps ps eq_refl) as (Hless & Hmore & Hequal & Hl1 & _).
  apply bind_Done in Hrun as (sl & s2 & Hrec1 & Hrun).
  apply bind_Done in Hrun as (sm & s3 & Hrec2 & Hrun).
  apply IH in Hrec1 as (Ht2 & He2 & Hsl).
  apply IH in Hrec2 as (Ht3 & He3 & Hsm).
  pose proof He1 as [Hlen1 _]. pose proof He2 as [Hlen2 _]. pose proof He3 as [Hlen3 _].
  apply (merge_and_release_frame (length (heap s))) in Hrun as (Ht4 & He4 & Hres); [|lia|].
  2:{ intros q b off Hq ->. rewrite !elem_of_cons in Hq.
      destruct Hq as [Hq|[Hq|[Hq|[Hq|[Hq|Hq]]]]]; [..|by apply elem_of_nil in Hq].
      - rewrite Hless in Hq. injection Hq as -> ->. lia.
      - rewrite Hmore in Hq. injection Hq as -> ->. lia.
      - rewrite Hequal in Hq. injection Hq as -> ->. lia.
      - destruct Hsl as [->|(b' & -> & ?)]; [done|]. injection Hq as -> ->. lia.
      - destruct Hsm as [->|(b' & -> & ?)]; [done|]. injection Hq as -> ->. lia. }
  split; [congruence|]. split.
  - eapply extends_trans; [done|]. eapply extends_trans.
    { eapply extends_weaken; [done|lia]. }
    eapply extends_trans; [|done].
    eapply extends_weaken; [done|lia].
  - destruct Hres as [->|[-> Hl4]]; [by left|right].
    eexists. split; [done|]. lia.
Qed.

(** The budget is immaterial: any two budgets above the size give the same
    outcome, in any memory and whatever the allocator answers. *)
Lemma quicksort_budget fuel :
  ∀ fuel' size data s, (size < fuel)%nat → (size < fuel')%nat →
  quicksort fuel size data s = quicksort fuel' size data s.
Proof.
  induction fuel as [|fuel IH]; intros [|fuel'] size data s Hfuel Hfuel'; try lia.
  rewrite !quicksort_unfold. case_bool_decide as Hsize; [done|].
  unfold mbind, M_bind, bind.
  destruct (load data 0 s) as [pivot s0| |] eqn:Hpiv; [|done..].
  apply load_Done in Hpiv as Hs0. destruct Hs0 as [-> _].
  destruct (partition data size pivot s) as [[ps|] s1| |] eqn:Hpart; [|done..].
  apply partition_Done in Hpart as (_ & _ & _ & Hps).
  destruct (Hps ps eq_refl) as (_ & _ & _ & _ & Hsum & Heq).
  specialize (Heq Hpiv ltac:(lia)).
  rewrite (IH fuel' (less_size ps)) by lia.
  destruct (quicksort fuel' (less_size ps) (less ps) s1) as [sl s2| |]; [|done..].
  by rewrite (IH fuel' (more_size ps)) by lia.
Qed.

(** ** Order *)

Lemma below_spec p l x : x ∈ below p l ↔ x < p ∧ x ∈ l.
Proof. unfold below. by rewrite list_elem_of_filter. Qed.
Lemma above_spec p l x : x ∈ above p l ↔ p < x ∧ x ∈ l.
Proof. unfold above. by rewrite list_elem_of_filter. Qed.
Lemma same_spec p l x : x ∈ same p l ↔ x = p ∧ x ∈ l.
Proof. unfold same. by rewrite list_elem_of_filter. Qed.

Lemma same_sorted p l : StronglySorted Z.le (same p l).
Proof.
  assert (∀ g : list Z, (∀ x, x ∈ g → x = p) → StronglySorted Z.le g) as Hconst.
  { induction g as [|a g IH]; intros Hg; constructor.
    - apply IH. intros x Hx. apply Hg. by right.
    - apply Forall_forall. intros x Hx.
      rewrite (Hg a) by (by left). rewrite (Hg x) by (by right). done. }
  apply Hconst. intros x Hx. by apply same_spec in Hx as [-> _].
Qed.

(** Sorted [below] group, then the [same] group, then the sorted [above]
    group: sorted. *)
Lemma three_way_sorted p l l1 l2 :
  l1 ≡ₚ below p l → l2 ≡ₚ above p l →
  StronglySorted Z.le l1 → StronglySorted Z.le l2 →
  StronglySorted Z.le (l1 ++ same p l ++ l2).
Proof.
  intros H1 H2 Hs1 Hs2.
  apply StronglySorted_app_2; [|done|apply StronglySorted_app_2; [|apply same_sorted|done]].
  - intros x1 x2 Hx1 Hx2. rewrite H1 in Hx1. apply below_spec in Hx1 as [Hx1 _].
    apply elem_of_app in Hx2 as [Hx2|Hx2].
    + apply same_spec in Hx2 as [-> _]. lia.
    + rewrite H2 in Hx2. apply above_spec in Hx2 as [Hx2 _]. lia.
  - intros x1 x2 Hx1 Hx2. apply same_spec in Hx1 as [-> _].
    rewrite H2 in Hx2. apply above_spec in Hx2 as [Hx2 _]. lia.
Qed.

Lemma three_way_sizes x l :
  (length (below x (x :: l)) + length (above x (x :: l)) < length (x :: l))%nat.
Proof.
  pose proof (three_way_length x (x :: l)). pose proof (same_hd x l). lia.
Qed.

(** ** [quicksort] is correct when the allocator grants every request *)

Lemma granting_partitioned p l s : granting s → granting (partitioned p l s).
Proof.
  unfold granting, partitioned. simpl. intros Hg.
  destruct (oracle s) as [|a1 [|a2 [|a3 o]]]; simpl; try done.
  by do 3 (apply Forall_cons in Hg as [_ Hg]).
Qed.

Lemma result_at_extends s s' r l :
  result_at s r l → extends (length (heap s)) s s' → result_at s' r l.
Proof.
  destruct l as [|a l]; [done|]. intros (b & -> & Hb) [_ He].
  exists b. split; [done|]. rewrite He; [done|]. by eapply lookup_lt_Some.
Qed.

Lemma result_at_blk s r l b : result_at s r l → b ∈ blk r → (b < length (heap s))%nat.
Proof.
  destruct l as [|a l]; [by intros -> Hb; apply elem_of_nil in Hb|].
  intros (b' & -> & Hb') Hb. apply list_elem_of_singleton in Hb as ->.
  by eapply lookup_lt_Some.
Qed.

(** ** The threads: what holds whatever the allocator and the scheduler do *)

Lemma merge_thread_eq : merge_thread = merge_and_release.
Proof. reflexivity. Qed.

Lemma free_touch p s u s' :
  free p s = Done u s' →
  oracle s' = oracle s ∧ thread_count s' = thread_count s ∧
  length (heap s') = length (heap s) ∧
  ∀ b, b ∉ blk p → heap s' !! b = heap s !! b.
Proof.
  intros [[-> ->]|(b & c & -> & Hb & ->)]%free_Done; [done|].
  simpl. rewrite length_insert. repeat split.
  intros b' Hb'. apply list_lookup_insert_ne. set_solver.
Qed.

Lemma merge_and_release_touch sz p sl sm s r s' :
  merge_and_release sz p sl sm s = Done r s' →
  thread_count s' = thread_count s ∧
  (length (heap s) ≤ length (heap s'))%nat ∧
  (∀ b, (b < length (heap s))%nat → b ∉ pblocks p ++ blk sl ++ blk sm →
        heap s' !! b = heap s !! b) ∧
  (r = NULL ∨ (r = Ptr (length (heap s)) 0 ∧ length (heap s') = S (length (heap s)))).
Proof.
  intros Hrun. unfold merge_and_release in Hrun.
  apply bind_Done in Hrun as (res & s1 & Hmalloc & Hrun).
  apply bind_Done in Hrun as ([] & s2 & Hmerge & Hrun).
  apply bind_Done in Hrun as ([] & s3 & Hf1 & Hrun).
  apply bind_Done in Hrun as ([] & s4 & Hf2 & Hrun).
  apply bind_Done in Hrun as ([] & s5 & Hf3 & Hrun).
  apply bind_Done in Hrun as ([] & s6 & Hf4 & Hrun).
  apply bind_Done in Hrun as ([] & s7 & Hf5 & Hrun).
  injection Hrun as <- <-.
  apply malloc_frame in Hmalloc as (Ht1 & [Hle1 He1] & _ & Hres).
  apply (merge_frame (length (heap s))) in Hmerge as (_ & Ht2 & Hl2 & [_ He2]).
  2:{ intros b off ->. destruct Hres as [?|[[= -> ->] _]]; [done|lia]. }
  apply free_touch in Hf1 as (_ & Ht3 & Hl3 & He3).
  apply free_touch in Hf2 as (_ & Ht4 & Hl4 & He4).
  apply free_touch in Hf3 as (_ & Ht5 & Hl5 & He5).
  apply free_touch in Hf4 as (_ & Ht6 & Hl6 & He6).
  apply free_touch in Hf5 as (_ & Ht7 & Hl7 & He7).
  split; [congruence|]. split; [lia|]. split.
  - intros b Hb Hnot. unfold pblocks in Hnot.
    rewrite He7, He6, He5, He4, He3, He2, He1 by (done || set_solver). done.
  - destruct Hres as [->|[-> Hl1]]; [by left|right]. split; [done|]. congruence.
Qed.

(** A step writes to and releases only blocks of the tree that steps, and
    what the tree is responsible for afterwards it already was, or is new. *)
Lemma step_touch t :
  ∀ π s t' s',
  step π t s = Stepped t' s' →
  (length (heap s) ≤ length (heap s'))%nat ∧
  (∀ b, (b < length (heap s))%nat → b ∉ owned t → heap s' !! b = heap s !! b) ∧
  (∀ b, b ∈ owned t' → b ∈ owned t ∨ (length (heap s) ≤ b < length (heap s'))%nat).
Proof.
  induction t as [a|a|n p|n p c1 IH1|n p c1 IH1 c2 IH2|n p sl c2 IH2|n p sl sm|r];
    intros [|π|π] s t' s' Hstep; simpl in Hstep; try done.
  - (* Start *) injection Hstep as <- <-. simpl. set_solver.
  - (* Entered *)
    unfold split_thread in Hstep. case_bool_decide.
    { injection Hstep as <- <-. simpl. set_solver. }
    destruct (load (data a) 0 s) as [pivot s0| |] eqn:Hpiv;
      unfold mbind, M_bind, bind in Hstep; rewrite Hpiv in Hstep; [|done..].
    apply load_Done in Hpiv as [-> _].
    destruct (partition (data a) (size a) pivot s) as [[ps|] s1| |] eqn:Hpart; [| |done..].
    + injection Hstep as <- <-.
      apply partition_Done in Hpart as (_ & [Hle He] & _ & Hps).
      destruct (Hps ps eq_refl) as (Hl & Hm & Heq & Hlen & _).
      split; [done|]. split; [by auto|].
      simpl. unfold pblocks. rewrite Hl, Hm, Heq. simpl. intros b Hb. right.
      set_unfold. lia.
    + injection Hstep as <- <-.
      apply partition_Done in Hpart as (_ & [Hle He] & _ & _).
      split; [done|]. split; [by auto|]. simpl. set_solver.
  - (* Partitioned *) injection Hstep as <- <-. simpl. set_solver.
  - (* Spawned1, itself *) injection Hstep as <- <-. simpl. set_solver.
  - (* Spawned1, below *)
    destruct (step π c1 s) as [c1' s1| |] eqn:Hc; [|done..].
    injection Hstep as <- <-. apply IH1 in Hc as (Hle & Hkeep & Hnew).
    split; [done|]. split.
    + intros b Hb Hnot. apply Hkeep; [done|]. simpl in Hnot. set_solver.
    + simpl. intros b Hb. set_unfold. naive_solver.
  - (* Spawned2, itself *)
    destruct c1; try done. injection Hstep as <- <-. simpl. set_solver.
  - destruct (step π c1 s) as [c1' s1| |] eqn:Hc; [|done..].
    injection Hstep as <- <-. apply IH1 in Hc as (Hle & Hkeep & Hnew).
    split; [done|]. split.
    + intros b Hb Hnot. apply Hkeep; [done|]. simpl in Hnot. set_solver.
    + simpl. intros b Hb. set_unfold. naive_solver.
  - destruct (step π c2 s) as [c2' s1| |] eqn:Hc; [|done..].
    injection Hstep as <- <-. apply IH2 in Hc as (Hle & Hkeep & Hnew).
    split; [done|]. split.
    + intros b Hb Hnot. apply Hkeep; [done|]. simpl in Hnot. set_solver.
    + simpl. intros b Hb. set_unfold. naive_solver.
  - (* Joined1, itself *)
    destruct c2; try done. injection Hstep as <- <-. simpl. set_solver.
  - destruct (step π c2 s) as [c2' s1| |] eqn:Hc; [|done..].
    injection Hstep as <- <-. apply IH2 in Hc as (Hle & Hkeep & Hnew).
    split; [done|]. split.
    + intros b Hb Hnot. apply Hkeep; [done|]. simpl in Hnot. set_solver.
    + simpl. intros b Hb. set_unfold. naive_solver.
  - (* Joined2 *)
    destruct (merge_thread n p sl sm s) as [r s1| |] eqn:Hrun; [|done..].
    injection Hstep as <- <-. rewrite merge_thread_eq in Hrun.
    apply merge_and_release_touch in Hrun as (_ & Hle & Hkeep & Hr).
    split; [done|]. split; [done|].
    simpl. intros b Hb. right. destruct Hr as [->|[-> Hlen]]; set_unfold; [done|lia].
Qed.

Lemma step_decreases t :
  ∀ π s t' s', step π t s = Stepped t' s' → (steps_left t' < steps_left t)%nat.
Proof.
  induction t as [a|a|n p|n p c1 IH1|n p c1 IH1 c2 IH2|n p sl c2 IH2|n p sl sm|r];
    intros [|π|π] s t' s' Hstep; simpl in Hstep; try done.
  - injection Hstep as <- <-. cbn [steps_left size]; unfold potential; lia.
  - unfold split_thread in Hstep. case_bool_decide.
    { injection Hstep as <- <-. cbn [steps_left size]; unfold potential; lia. }
    destruct (load (data a) 0 s) as [pivot s0| |] eqn:Hpiv;
      unfold mbind, M_bind, bind in Hstep; rewrite Hpiv in Hstep; [|done..].
    apply load_Done in Hpiv as Hs0. destruct Hs0 as [-> _].
    destruct (partition (data a) (size a) pivot s) as [[ps|] s1| |] eqn:Hpart; [| |done..].
    + injection Hstep as <- <-.
      apply partition_Done in Hpart as (_ & _ & _ & Hps).
      destruct (Hps ps eq_refl) as (_ & _ & _ & _ & Hsum & Heq).
      specialize (Heq Hpiv ltac:(lia)). cbn [steps_left size]; unfold potential; lia.
    + injection Hstep as <- <-. cbn [steps_left size]; unfold potential; lia.
  - injection Hstep as <- <-. cbn [steps_left size]; unfold potential; lia.
  - injection Hstep as <- <-. cbn [steps_left size]; unfold potential; lia.
  - destruct (step π c1 s) as [c1' s1| |] eqn:Hc; [|done..].
    injection Hstep as <- <-. apply IH1 in Hc. cbn [steps_left size]; unfold potential; lia.
  - destruct c1; try done. injection Hstep as <- <-. cbn [steps_left size]; unfold potential; lia.
  - destruct (step π c1 s) as [c1' s1| |] eqn:Hc; [|done..].
    injection Hstep as <- <-. apply IH1 in Hc. cbn [steps_left size]; unfold potential; lia.
  - destruct (step π c2 s) as [c2' s1| |] eqn:Hc; [|done..].
    injection Hstep as <- <-. apply IH2 in Hc. cbn [steps_left size]; unfold potential; lia.
  - destruct c2; try done. injection Hstep as <- <-. cbn [steps_left size]; unfold potential; lia.
  - destruct (step π c2 s) as [c2' s1| |] eqn:Hc; [|done..].
    injection Hstep as <- <-. apply IH2 in Hc. cbn [steps_left size]; unfold potential; lia.
  - destruct (merge_thread n p sl sm s) as [r s1| |] eqn:Hrun; [|done..].
    injection Hstep as <- <-. cbn [steps_left size]; unfold potential; lia.
Qed.

Lemma run_bounded sched :
  ∀ t s t' s', run sched t s = Stepped t' s' →
  (steps_taken sched t s + steps_left t' ≤ steps_left t)%nat.
Proof.
  induction sched as [|π sched IH]; intros t s t' s' Hrun; simpl in *.
  { injection Hrun as <- <-. lia. }
  destruct (step π t s) as [t1 s1| |] eqn:Hstep; [| |done].
  - apply step_decreases in Hstep. apply IH in Hrun. lia.
  - by eapply IH.
Qed.

Lemma run_app sched1 sched2 t s :
  run (sched1 ++ sched2) t s =
    match run sched1 t s with
    | Stepped t' s' => run sched2 t' s'
    | r => r
    end.
Proof.
  revert t s. induction sched1 as [|π sched1 IH]; intros t s; simpl; [done|].
  destruct (step π t s) as [t1 s1| |]; [apply IH|apply IH|done].
Qed.

(** ** The threads when the allocator grants every request *)

Lemma stored_blk s p l b : stored s p l → b ∈ blk p → (b < length (heap s))%nat.
Proof.
  intros (b' & pad & -> & Hb') Hb. apply list_elem_of_singleton in Hb as ->.
  by eapply lookup_lt_Some.
Qed.

Lemma split_at_blk s n p x l b :
  split_at s n p x l → b ∈ pblocks p → (b < length (heap s))%nat.
Proof.
  intros (_ & _ & _ & _ & Hl & Hm & He). unfold pblocks. rewrite !elem_of_app.
  intros [?|[?|?]];
    [by apply (stored_blk _ _ _ _ Hl)|by apply (stored_blk _ _ _ _ Hm)
    |by apply (stored_blk _ _ _ _ He)].
Qed.

Lemma sorted_at_blk s r l b : sorted_at s r l → b ∈ blk r → (b < length (heap s))%nat.
Proof. intros (l' & Hr & _). by eapply result_at_blk. Qed.

(** What a thread is responsible for is allocated. *)
Lemma owned_allocated t :
  ∀ s d l b, sorting t s d l → b ∈ owned t → (b < length (heap s))%nat.
Proof.
  induction t as [a|a|n p|n p c1 IH1|n p c1 IH1 c2 IH2|n p sl c2 IH2|n p sl sm|r];
    intros s d l b Hs Hb; simpl in *.
  - by apply elem_of_nil in Hb.
  - by apply elem_of_nil in Hb.
  - destruct Hs as (_ & Hs). apply (split_at_blk _ _ _ _ _ _ Hs Hb).
  - destruct Hs as (_ & Hs & Hc1). apply elem_of_app in Hb as [Hb|Hb].
    + apply (split_at_blk _ _ _ _ _ _ Hs Hb).
    + apply (IH1 _ _ _ _ Hc1 Hb).
  - destruct Hs as (_ & Hs & Hc1 & Hc2). rewrite !elem_of_app in Hb.
    destruct Hb as [Hb|[Hb|Hb]].
    + apply (split_at_blk _ _ _ _ _ _ Hs Hb).
    + apply (IH1 _ _ _ _ Hc1 Hb).
    + apply (IH2 _ _ _ _ Hc2 Hb).
  - destruct Hs as (_ & Hs & Hsl & Hc2). rewrite !elem_of_app in Hb.
    destruct Hb as [Hb|[Hb|Hb]].
    + apply (split_at_blk _ _ _ _ _ _ Hs Hb).
    + apply (sorted_at_blk _ _ _ _ Hsl Hb).
    + apply (IH2 _ _ _ _ Hc2 Hb).
  - destruct Hs as (_ & Hs & Hsl & Hsm). rewrite !elem_of_app in Hb.
    destruct Hb as [Hb|[Hb|Hb]].
    + apply (split_at_blk _ _ _ _ _ _ Hs Hb).
    + apply (sorted_at_blk _ _ _ _ Hsl Hb).
    + apply (sorted_at_blk _ _ _ _ Hsm Hb).
  - apply (sorted_at_blk _ _ _ _ Hs Hb).
Qed.

Lemma reads_same s s' d l :
  reads s d l → (∀ b, b ∈ blk d → heap s' !! b = heap s !! b) → reads s' d l.
Proof.
  intros Hr Hs i v Hi. apply Hr in Hi as (_ & b & off & c & -> & Hb & Hc)%load_Done.
  apply load_intro with c; [|done]. rewrite Hs; [done|]. simpl. by left.
Qed.

Lemma stored_same s s' p l :
  stored s p l → (∀ b, b ∈ blk p → heap s' !! b = heap s !! b) → stored s' p l.
Proof.
  intros (b & pad & -> & Hb) Hs. exists b, pad. split; [done|].
  rewrite Hs; [done|]. simpl. by left.
Qed.

Lemma sorted_at_same s s' r l :
  sorted_at s r l → (∀ b, b ∈ blk r → heap s' !! b = heap s !! b) → sorted_at s' r l.
Proof.
  intros (l' & Hr & Hp & Hsort) Hs. exists l'. split; [|done].
  destruct l' as [|a l']; [done|]. destruct Hr as (b & -> & Hb).
  exists b. split; [done|]. rewrite Hs; [done|]. simpl. by left.
Qed.

Lemma split_at_same s s' n p x l :
  split_at s n p x l → (∀ b, b ∈ pblocks p → heap s' !! b = heap s !! b) →
  split_at s' n p x l.
Proof.
  intros (Hn & Hls & Hms & Hes & Hl & Hm & He) Hs. unfold pblocks in Hs.
  repeat split; try done; eapply stored_same; try done; intros b Hb; apply Hs; set_solver.
Qed.

(** [sorting] looks only at the blocks the thread is responsible for and
    at the array it was started on. *)
Lemma sorting_same t :
  ∀ s s' d l, sorting t s d l →
  (∀ b, b ∈ owned t ++ blk d → heap s' !! b = heap s !! b) →
  sorting t s' d l.
Proof.
  induction t as [a|a|n p|n p c1 IH1|n p c1 IH1 c2 IH2|n p sl c2 IH2|n p sl sm|r];
    intros s s' d l Hs Hsame; simpl in *.
  - destruct Hs as [-> Hr]. split; [done|]. by eapply reads_same.
  - destruct Hs as [-> Hr]. split; [done|]. by eapply reads_same.
  - destruct Hs as (Hne & Hs). split; [done|].
    eapply split_at_same; [done|]. intros b Hb. apply Hsame. set_solver.
  - destruct Hs as (Hne & Hs & Hc1). split; [done|]. split.
    + eapply split_at_same; [done|]. intros b Hb. apply Hsame. set_solver.
    + eapply IH1; [done|]. intros b Hb. apply Hsame. unfold pblocks. set_solver.
  - destruct Hs as (Hne & Hs & Hc1 & Hc2). split; [done|]. split; [|split].
    + eapply split_at_same; [done|]. intros b Hb. apply Hsame. set_solver.
    + eapply IH1; [done|]. intros b Hb. apply Hsame. unfold pblocks. set_solver.
    + eapply IH2; [done|]. intros b Hb. apply Hsame. unfold pblocks. set_solver.
  - destruct Hs as (Hne & Hs & Hsl & Hc2). split; [done|]. split; [|split].
    + eapply split_at_same; [done|]. intros b Hb. apply Hsame. set_solver.
    + eapply sorted_at_same; [done|]. intros b Hb. apply Hsame. set_solver.
    + eapply IH2; [done|]. intros b Hb. apply Hsame. unfold pblocks. set_solver.
  - destruct Hs as (Hne & Hs & Hsl & Hsm). split; [done|]. split; [|split].
    + eapply split_at_same; [done|]. intros b Hb. apply Hsame. set_solver.
    + eapply sorted_at_same; [done|]. intros b Hb. apply Hsame. set_solver.
    + eapply sorted_at_same; [done|]. intros b Hb. apply Hsame. set_solver.
  - eapply sorted_at_same; [done|]. intros b Hb. apply Hsame. set_solver.
Qed.

(** The second half of a sorter whose request for the result is granted:
    the state it leaves, with the merged array in the new block and the
    five intermediate arrays released. *)
Lemma merge_and_release_done s n p sl sm l :
  next_answer (oracle s) = true → l ≠ [] → split_at s n p (hd 0 l) l →
  sorted_at s sl (below (hd 0 l) l) → sorted_at s sm (above (hd 0 l) l) →
  NoDup (pblocks p ++ blk sl ++ blk sm) →
  ∃ out,
    merge_and_release n p sl sm s
    = Done (Ptr (length (heap s)) 0)
        (mkState (release_all (pblocks p ++ blk sl ++ blk sm)
                    (heap s ++ [Some (Some <$> out)]))
                 (tail (oracle s)) (thread_count s)) ∧
    out ≠ [] ∧ out ≡ₚ l ∧ StronglySorted Z.le out ∧
    ∀ b, b ∈ pblocks p ++ blk sl ++ blk sm → (b < length (heap s))%nat.
Proof.
  intros Hg Hne Hsplit (l1 & Hr1 & Hp1 & Hs1) (l2 & Hr2 & Hp2 & Hs2) Hnd.
  destruct l as [|x l0]; [done|]. cbn [hd] in *. set (l := x :: l0) in *.
  pose proof Hsplit as (-> & Hls & Hms & Hes & Hl & Hm & He).
  destruct Hl as (bl & padl & Hless & Hbl).
  destruct Hm as (bm & padm & Hmore & Hbm).
  destruct He as (be & pade & Hequal & Hbe).
  assert (pblocks p = [bl; bm; be]) as Hpb.
  { unfold pblocks. by rewrite Hless, Hmore, Hequal. }
  exists (l1 ++ same x l ++ l2). split; [|split; [|split; [|split]]].
  - rewrite Hpb in *.
    eapply (merge_and_release_spec s _ _ sl sm bl bm be _ _ _ l1 (same x l) l2);
      [done| |by rewrite Hp1|done|by rewrite Hp2|done..].
    rewrite Hp1, Hp2. pose proof (three_way_length x l). lia.
  - intros [_ [Hsame _]%app_eq_nil]%app_eq_nil.
    pose proof (same_hd x l0) as Hhd. fold l in Hhd. rewrite Hsame in Hhd.
    simpl in Hhd. lia.
  - rewrite Hp1, Hp2. apply three_way_perm.
  - by apply three_way_sorted.
  - intros b Hin. rewrite !elem_of_app in Hin. destruct Hin as [Hin|[Hin|Hin]].
    + by apply (split_at_blk _ _ _ _ _ _ Hsplit) in Hin.
    + by apply (result_at_blk _ _ _ _ Hr1) in Hin.
    + by apply (result_at_blk _ _ _ _ Hr2) in Hin.
Qed.

(** The merged array is where the second half says it is. *)
Lemma merged_sorted_at (h : list (option block)) bs o tc (out l : list Z) :
  (∀ b, b ∈ bs → (b < length h)%nat) →
  out ≠ [] → out ≡ₚ l → StronglySorted Z.le out →
  sorted_at (mkState (release_all bs (h ++ [Some (Some <$> out)])) o tc)
            (Ptr (length h) 0) l.
Proof.
  intros Hbs Hne Hp Hs. exists out. split; [|done].
  destruct out as [|y out]; [done|].
  exists (length h). split; [done|]. cbn [heap].
  rewrite release_all_other; [by apply list_lookup_middle|].
  intros Hin%Hbs. lia.
Qed.

Lemma merge_and_release_sorted s n p sl sm l :
  granting s → l ≠ [] → split_at s n p (hd 0 l) l →
  sorted_at s sl (below (hd 0 l) l) → sorted_at s sm (above (hd 0 l) l) →
  NoDup (pblocks p ++ blk sl ++ blk sm) →
  ∃ s', merge_and_release n p sl sm s = Done (Ptr (length (heap s)) 0) s' ∧
        granting s' ∧ thread_count s' = thread_count s ∧
        sorted_at s' (Ptr (length (heap s)) 0) l.
Proof.
  intros Hg Hne Hsplit Hsl Hsm Hnd.
  destruct (merge_and_release_done s n p sl sm l) as (out & Hrun & Hout & Hp & Hs & Hbs);
    [by apply granting_answer|done..|].
  eexists. split; [done|]. split; [by apply granting_tail|]. split; [done|].
  by apply merged_sorted_at.
Qed.

(** [quicksort] on an array stored in memory, with an allocator that
    grants every request: it returns, and what it returns is the sorted
    array. *)
Lemma quicksort_correct fuel :
  ∀ l d s, (length l < fuel)%nat → granting s → reads s d l →
  ∃ r s', quicksort fuel (length l) d s = Done r s' ∧ granting s' ∧ sorted_at s' r l.
Proof.
  induction fuel as [|fuel IH]; intros l d s Hfuel Hg Hr; [lia|].
  rewrite quicksort_unfold. destruct l as [|x l].
  { exists NULL, s. split; [done|]. split; [done|]. exists [].
    split; [done|]. split; [done|constructor]. }
  rewrite bool_decide_eq_false_2 by done.
  unfold mbind at 1, M_bind at 1, bind at 1. rewrite (Hr 0%nat x eq_refl).
  unfold mbind at 1, M_bind at 1, bind at 1.
  pose proof (granting_partitioned x (x :: l) s Hg) as Hg1.
  rewrite partition_granted; [|by apply granting_answer| | |done].
  2:{ apply (granting_answer (mkState (heap s) (tail (oracle s)) 0)).
      by apply granting_tail. }
  2:{ apply (granting_answer (mkState (heap s) (tail (tail (oracle s))) 0)).
      apply (granting_tail (mkState (heap s) (tail (oracle s)) 0)).
      by apply granting_tail. }
  set (s1 := partitioned x (x :: l) s) in *.
  set (n := length (heap s)).
  assert (heap s1 !! n = Some (buffer (length (x :: l)) (below x (x :: l)))) as Hbl
    by apply tail3_lookup_0.
  assert (heap s1 !! S n = Some (buffer (length (x :: l)) (above x (x :: l)))) as Hbm
    by apply tail3_lookup_1.
  assert (heap s1 !! S (S n) = Some (buffer (length (x :: l)) (same x (x :: l)))) as Hbe
    by apply tail3_lookup_2.
  assert (length (heap s1) = S (S (S n))) as Hlen1.
  { unfold s1, partitioned. simpl. rewrite length_app. simpl. lia. }
  pose proof (three_way_sizes x l) as Hsizes.
  cbn [parts_of less less_size more more_size equal equal_size]. fold n.
  (* the less group *)
  destruct (IH (below x (x :: l)) (Ptr n 0) s1) as (r1 & s2 & Hrun1 & Hg2 & Hsl);
    [simpl in *; lia|done|by eapply reads_block|].
  unfold mbind at 1, M_bind at 1, bind at 1. rewrite Hrun1.
  apply quicksort_frame in Hrun1 as (_ & He2 & Hr1).
  (* the more group *)
  destruct (IH (above x (x :: l)) (Ptr (S n) 0) s2) as (r2 & s3 & Hrun2 & Hg3 & Hsm);
    [simpl in *; lia|done| |].
  { eapply reads_extends; [|done]. by eapply reads_block. }
  unfold mbind at 1, M_bind at 1, bind at 1. rewrite Hrun2.
  apply quicksort_frame in Hrun2 as (_ & He3 & Hr2).
  (* merging *)
  pose proof He2 as [Hlen2 Hkeep2]. pose proof He3 as [Hlen3 Hkeep3].
  assert (∀ b v, (b < length (heap s1))%nat → heap s1 !! b = Some v → heap s3 !! b = Some v)
    as Hkeep.
  { intros b v Hb Hv. rewrite Hkeep3 by lia. by rewrite Hkeep2. }
  destruct (merge_and_release_sorted s3 (length (x :: l))
              (mkParts (Ptr n 0) (length (below x (x :: l))) (Ptr (S (S n)) 0)
                 (length (same x (x :: l))) (Ptr (S n) 0) (length (above x (x :: l))))
              r1 r2 (x :: l)) as (s' & Hfin & Hg' & _ & Hsorted); [done|done| | | | |].
  - unfold split_at, stored. cbn [hd less more equal less_size more_size equal_size].
    split; [done|]. split; [done|]. split; [done|]. split; [done|].
    split; [|split]; eexists _, _; (split; [done|]); apply Hkeep; (lia || done).
  - destruct Hsl as (l1 & Hres1 & Hp1 & Hs1). exists l1. split; [|done].
    by eapply result_at_extends.
  - done.
  - unfold pblocks. cbn [less more equal blk app].
    change (NoDup ([n; S n; S (S n)] ++ blk r1 ++ blk r2)).
    apply NoDup_app. split; [|split].
    + repeat constructor; rewrite ?elem_of_cons, ?elem_of_nil; lia.
    + intros b Hb Hin. rewrite !elem_of_cons in Hb.
      assert (length (heap s1) ≤ b)%nat as Hge.
      { apply elem_of_app in Hin as [Hin|Hin].
        - destruct Hr1 as [->|(b1 & -> & ?)]; [by apply elem_of_nil in Hin|].
          apply list_elem_of_singleton in Hin as ->. lia.
        - destruct Hr2 as [->|(b2 & -> & ?)]; [by apply elem_of_nil in Hin|].
          apply list_elem_of_singleton in Hin as ->. lia. }
      destruct Hb as [->|[->|[->|Hb]]]; [lia..|by apply elem_of_nil in Hb].
    + apply NoDup_app. split; [|split].
      * destruct r1; simpl; [constructor|apply NoDup_singleton].
      * intros b Hb1 Hb2.
        destruct Hr1 as [->|(b1 & -> & ?)]; [by apply elem_of_nil in Hb1|].
        destruct Hr2 as [->|(b2 & -> & ?)]; [by apply elem_of_nil in Hb2|].
        apply list_elem_of_singleton in Hb1 as ->.
        apply list_elem_of_singleton in Hb2. lia.
      * destruct r2; simpl; [constructor|apply NoDup_singleton].
  - exists (Ptr (length (heap s3)) 0), s'. unfold parts_of. fold n. by rewrite Hfin.
Qed.

(** The step of a thread that has just incremented the counter. *)
Lemma split_step d l s :
  granting s → reads s d l →
  ∃ t' s', step Self (Entered (mkArgs d (length l))) s = Stepped t' s' ∧
           granting s' ∧ thread_count s' = thread_count s ∧
           NoDup (owned t') ∧ sorting t' s' d l ∧
           (l = [] → t' = Exited NULL) ∧
           (l ≠ [] → ∃ p, t' = Partitioned (length l) p).
Proof.
  intros Hg Hr. cbn [step]. unfold split_thread. cbn [size data].
  destruct l as [|x l0].
  { exists (Exited NULL), s. rewrite bool_decide_eq_true_2 by done. simpl.
    split; [done|]. split; [done|]. split; [done|]. split; [constructor|].
    split; [|done]. exists []. split; [done|]. split; [done|constructor]. }
  set (l := x :: l0) in *.
  rewrite bool_decide_eq_false_2 by done.
  unfold mbind at 1, M_bind at 1, bind at 1. rewrite (Hr 0%nat x eq_refl).
  unfold mbind at 1, M_bind at 1, bind at 1.
  rewrite partition_granted; [|by apply granting_answer| | |done].
  2:{ apply (granting_answer (mkState (heap s) (tail (oracle s)) 0)).
      by apply granting_tail. }
  2:{ apply (granting_answer (mkState (heap s) (tail (tail (oracle s))) 0)).
      apply (granting_tail (mkState (heap s) (tail (oracle s)) 0)).
      by apply granting_tail. }
  exists (Partitioned (length l) (parts_of x l s)), (partitioned x l s).
  split; [done|]. split; [by apply granting_partitioned|]. split; [done|].
  split; [|split; [|split]].
  - simpl. unfold pblocks, parts_of. simpl.
    repeat constructor; set_unfold; lia.
  - cbn [sorting hd]. split; [done|].
    unfold split_at, parts_of, partitioned, stored. cbn [less more equal less_size
      more_size equal_size heap].
    repeat split; eexists _, _; (split; [done|]);
      [apply tail3_lookup_0|apply tail3_lookup_1|apply tail3_lookup_2].
  - done.
  - intros _. by eexists.
Qed.

(** The step of a thread that has collected both results. *)
Lemma merge_step s n p sl sm d l :
  granting s → NoDup (owned (Joined2 n p sl sm)) → sorting (Joined2 n p sl sm) s d l →
  ∃ r s', step Self (Joined2 n p sl sm) s = Stepped (Exited r) s' ∧
          granting s' ∧ thread_count s' = thread_count s ∧
          NoDup (owned (Exited r)) ∧ sorting (Exited r) s' d l.
Proof.
  intros Hg Hnd (Hne & Hsplit & Hsl & Hsm). cbn [owned] in Hnd.
  destruct (merge_and_release_sorted s n p sl sm l) as (s' & Hrun & Hg' & Ht & Hres);
    [done..|].
  exists (Ptr (length (heap s)) 0), s'. cbn [step]. rewrite merge_thread_eq, Hrun.
  repeat split; try done. simpl. apply NoDup_singleton.
Qed.

(** ** Counting the invocations *)

Lemma invocations_upto_enough f1 :
  ∀ f2 l, (length l ≤ f1)%nat → (length l ≤ f2)%nat →
  invocations_upto f1 l = invocations_upto f2 l.
Proof.
  induction f1 as [|f1 IH]; intros f2 l H1 H2.
  { destruct l; [|simpl in H1; lia]. by destruct f2. }
  destruct l as [|x l]; [by destruct f2|].
  destruct f2 as [|f2]; [simpl in H2; lia|].
  pose proof (three_way_sizes x l) as Hsz.
  cbn [invocations_upto]. fold (below x (x :: l)). fold (above x (x :: l)).
  simpl in H1, H2, Hsz.
  rewrite (IH f2 (below x (x :: l))) by lia.
  rewrite (IH f2 (above x (x :: l))) by lia. done.
Qed.

Lemma invocations_cons x l :
  invocations (x :: l) =
    S (invocations (below x (x :: l)) + invocations (above x (x :: l))).
Proof.
  unfold invocations. cbn [length invocations_upto].
  fold (below x (x :: l)). fold (above x (x :: l)).
  pose proof (three_way_sizes x l) as Hsz. simpl in Hsz.
  rewrite (invocations_upto_enough (length l) (length (below x (x :: l)))) by lia.
  rewrite (invocations_upto_enough (length l) (length (above x (x :: l)))) by lia.
  done.
Qed.

Lemma child_frame π c s c' s' outer :
  step π c s = Stepped c' s' →
  NoDup (outer ++ owned c) → (∀ b, b ∈ outer → (b < length (heap s))%nat) →
  NoDup (owned c') →
  (∀ b, b ∈ outer → heap s' !! b = heap s !! b) ∧ NoDup (outer ++ owned c').
Proof.
  intros (Hle & Hkeep & Hnew)%step_touch (Hnd1 & Hdisj & Hnd2)%NoDup_app Hlt Hnd'.
  split.
  - intros b Hb. apply Hkeep; [by apply Hlt|]. by apply Hdisj.
  - apply NoDup_app. split; [done|]. split; [|done].
    intros b Hb Hb'. destruct (Hnew b Hb') as [Hin|Hfresh].
    + by apply (Hdisj b).
    + apply Hlt in Hb. lia.
Qed.

(** Under an allocator that grants every request, a step of any thread
    never crashes and keeps the whole tree on its way to the sorted array. *)
Lemma step_sound t :
  ∀ π s d l,
  granting s → NoDup (owned t) → sorting t s d l →
  match step π t s with
  | Stepped t' s' =>
      granting s' ∧ NoDup (owned t') ∧ sorting t' s' d l ∧
      counts s s' (counted t l) (counted t' l)
  | Blocked => True
  | Crashed => False
  end.
Proof.
  induction t as [a|a|n p|n p c1 IH1|n p c1 IH1 c2 IH2|n p sl c2 IH2|n p sl sm|r];
    intros [|π|π] s d l Hg Hnd Hs; try exact I.
  - (* Start *)
    cbn [step count_thread continue_with]. destruct Hs as [-> Hr].
    split; [done|]. split; [constructor|]. split; [|by right].
    split; [done|]. by eapply reads_same.
  - (* Entered *)
    destruct Hs as [-> Hr].
    destruct (split_step d l s Hg Hr) as (t' & s' & -> & Hg' & Ht & Hnd' & Hs' & Hnil & Hcons).
    split; [done|]. split; [done|]. split; [done|]. left. split; [done|].
    destruct l as [|x l0].
    + by rewrite Hnil.
    + destruct Hcons as [p ->]; done.
  - (* Partitioned *)
    cbn [step]. destruct Hs as (Hne & Hsplit).
    pose proof Hsplit as (_ & Hls & _ & _ & Hl & _).
    split; [done|]. split; [cbn [owned]; by rewrite app_nil_r|]. split; [|by left].
    cbn [sorting]. rewrite Hls. split; [done|]. split; [done|]. split; [done|].
    by apply stored_reads.
  - (* Spawned1, itself *)
    cbn [step]. destruct Hs as (Hne & Hsplit & Hc1).
    pose proof Hsplit as (_ & _ & Hms & _ & _ & Hm & _).
    split; [done|]. split; [cbn [owned]; by rewrite app_nil_r|]. split.
    + cbn [sorting]. rewrite Hms. split; [done|]. split; [done|]. split; [done|].
      split; [done|]. by apply stored_reads.
    + left. split; [done|]. simpl. lia.
  - (* Spawned1, a thread below *)
    cbn [step]. destruct Hs as (Hne & Hsplit & Hc1). cbn [owned] in Hnd.
    pose proof Hnd as (_ & _ & Hnd1)%NoDup_app.
    specialize (IH1 π s (less p) (below (hd 0 l) l) Hg Hnd1 Hc1).
    destruct (step π c1 s) as [c1' s1| |] eqn:Hstep; [|done..].
    destruct IH1 as (Hg' & Hnd1' & Hc1' & Hcount). cbn [in_child].
    destruct (child_frame _ _ _ _ _ (pblocks p) Hstep Hnd) as [Hkeep Hnd']; [|done|].
    { intros b Hb. by eapply split_at_blk. }
    split; [done|]. split; [done|]. split.
    + split; [done|]. split; [by eapply split_at_same|done].
    + destruct Hcount as [[? ?]|[? ?]]; [left|right]; (split; [done|]); simpl; lia.
  - (* Spawned2, itself: joining the first child *)
    destruct c1; try exact I. cbn [step].
    destruct Hs as (Hne & Hsplit & Hc1 & Hc2).
    split; [done|]. split; [done|]. split; [done|]. by left.
  - (* Spawned2, below the first child *)
    cbn [step]. destruct Hs as (Hne & Hsplit & Hc1 & Hc2). cbn [owned] in Hnd.
    assert (NoDup ((pblocks p ++ owned c2) ++ owned c1)) as Hnd0.
    { rewrite <-app_assoc. by rewrite (Permutation_app_comm (owned c2)). }
    pose proof Hnd0 as (_ & _ & Hnd1)%NoDup_app.
    specialize (IH1 π s (less p) (below (hd 0 l) l) Hg Hnd1 Hc1).
    destruct (step π c1 s) as [c1' s1| |] eqn:Hstep; [|done..].
    destruct IH1 as (Hg' & Hnd1' & Hc1' & Hcount). cbn [in_child].
    destruct (child_frame _ _ _ _ _ (pblocks p ++ owned c2) Hstep Hnd0) as [Hkeep Hnd'];
      [|done|].
    { intros b [Hb|Hb]%elem_of_app; [by eapply split_at_blk|].
      apply (owned_allocated _ _ _ _ _ Hc2 Hb). }
    split; [done|]. split.
    { cbn [owned]. rewrite (Permutation_app_comm (owned c1')). by rewrite app_assoc. }
    split.
    + split; [done|]. split; [|split; [done|]].
      * eapply split_at_same; [done|]. intros b Hb. apply Hkeep. set_solver.
      * eapply sorting_same; [done|]. intros b Hb. apply Hkeep.
        unfold pblocks. set_solver.
    + destruct Hcount as [[? ?]|[? ?]]; [left|right]; (split; [done|]); simpl; lia.
  - (* Spawned2, below the second child *)
    cbn [step]. destruct Hs as (Hne & Hsplit & Hc1 & Hc2). cbn [owned] in Hnd.
    rewrite app_assoc in Hnd.
    pose proof Hnd as (_ & _ & Hnd2)%NoDup_app.
    specialize (IH2 π s (more p) (above (hd 0 l) l) Hg Hnd2 Hc2).
    destruct (step π c2 s) as [c2' s1| |] eqn:Hstep; [|done..].
    destruct IH2 as (Hg' & Hnd2' & Hc2' & Hcount). cbn [in_child].
    destruct (child_frame _ _ _ _ _ (pblocks p ++ owned c1) Hstep Hnd) as [Hkeep Hnd'];
      [|done|].
    { intros b [Hb|Hb]%elem_of_app; [by eapply split_at_blk|].
      apply (owned_allocated _ _ _ _ _ Hc1 Hb). }
    split; [done|]. split; [cbn [owned]; by rewrite app_assoc|]. split.
    + split; [done|]. split; [|split; [|done]].
      * eapply split_at_same; [done|]. intros b Hb. apply Hkeep. set_solver.
      * eapply sorting_same; [done|]. intros b Hb. apply Hkeep.
        unfold pblocks. set_solver.
    + destruct Hcount as [[? ?]|[? ?]]; [left|right]; (split; [done|]); simpl; lia.
  - (* Joined1, itself: joining the second child *)
    destruct c2; try exact I. cbn [step].
    destruct Hs as (Hne & Hsplit & Hsl & Hc2).
    split; [done|]. split; [done|]. split; [done|]. by left.
  - (* Joined1, below the second child *)
    cbn [step]. destruct Hs as (Hne & Hsplit & Hsl & Hc2). cbn [owned] in Hnd.
    rewrite app_assoc in Hnd.
    pose proof Hnd as (_ & _ & Hnd2)%NoDup_app.
    specialize (IH2 π s (more p) (above (hd 0 l) l) Hg Hnd2 Hc2).
    destruct (step π c2 s) as [c2' s1| |] eqn:Hstep; [|done..].
    destruct IH2 as (Hg' & Hnd2' & Hc2' & Hcount). cbn [in_child].
    destruct (child_frame _ _ _ _ _ (pblocks p ++ blk sl) Hstep Hnd) as [Hkeep Hnd'];
      [|done|].
    { intros b [Hb|Hb]%elem_of_app; [by eapply split_at_blk|by eapply sorted_at_blk]. }
    split; [done|]. split; [cbn [owned]; by rewrite app_assoc|]. split.
    + split; [done|]. split; [|split; [|done]].
      * eapply split_at_same; [done|]. intros b Hb. apply Hkeep. set_solver.
      * eapply sorted_at_same; [done|]. intros b Hb. apply Hkeep. set_solver.
    + destruct Hcount as [[? ?]|[? ?]]; [left|right]; (split; [done|]); simpl; lia.
  - (* Joined2 *)
    destruct (merge_step s n p sl sm d l Hg Hnd Hs) as (r & s' & -> & Hg' & Ht & Hnd' & Hs').
    split; [done|]. split; [done|]. split; [done|]. left. split; [done|].
    destruct Hs as (Hne & _). destruct l as [|x l0]; [done|].
    cbn [counted hd]. rewrite invocations_cons. lia.
Qed.

(** Until the first thread has ended, some thread can run. *)
Lemma progress t :
  ∀ s d l, granting s → NoDup (owned t) → sorting t s d l →
  (∃ r, t = Exited r) ∨ ∃ π t' s', step π t s = Stepped t' s'.
Proof.
  induction t as [a|a|n p|n p c1 IH1|n p c1 IH1 c2 IH2|n p sl c2 IH2|n p sl sm|r];
    intros s d l Hg Hnd Hs.
  - right. by exists Self, (Entered a), (mkState (heap s) (oracle s) (wrap_int (thread_count s + 1))).
  - right. destruct Hs as [-> Hr].
    destruct (split_step d l s Hg Hr) as (t' & s' & Hstep & _). eauto.
  - right. exists Self. by eexists _, _.
  - right. exists Self. by eexists _, _.
  - right. destruct Hs as (_ & _ & Hc1 & _). cbn [owned] in Hnd.
    apply NoDup_app in Hnd as (_ & _ & (Hnd1 & _ & _)%NoDup_app).
    destruct (IH1 s _ _ Hg Hnd1 Hc1) as [[r ->]|(π & c1' & s' & Hstep)].
    + exists Self. by eexists _, _.
    + exists (LessThread π). eexists _, _. cbn [step]. by rewrite Hstep.
  - right. destruct Hs as (_ & _ & _ & Hc2). cbn [owned] in Hnd.
    apply NoDup_app in Hnd as (_ & _ & (_ & _ & Hnd2)%NoDup_app).
    destruct (IH2 s _ _ Hg Hnd2 Hc2) as [[r ->]|(π & c2' & s' & Hstep)].
    + exists Self. by eexists _, _.
    + exists (MoreThread π). eexists _, _. cbn [step]. by rewrite Hstep.
  - right. destruct (merge_step s n p sl sm d l Hg Hnd Hs) as (r & s' & Hstep & _). eauto.
  - left. by exists r.
Qed.

Lemma wrap_int_succ a : wrap_int (wrap_int a + 1) = wrap_int (a + 1).
Proof.
  unfold wrap_int.
  replace ((a + 2 ^ 31) `mod` 2 ^ 32 - 2 ^ 31 + 1 + 2 ^ 31)
    with ((a + 2 ^ 31) `mod` 2 ^ 32 + 1) by lia.
  rewrite Z.add_mod_idemp_l by lia.
  f_equal. f_equal. lia.
Qed.

Lemma wrap_int_small a : - 2 ^ 31 ≤ a < 2 ^ 31 → wrap_int a = a.
Proof. intros Ha. unfold wrap_int. rewrite Z.mod_small by lia. lia. Qed.

(** Any schedule, run from a tree that is on its way, never crashes and
    leaves a tree that is on its way; the counter has advanced by the
    invocations that were entered meanwhile. *)
Lemma run_sound sched :
  ∀ t s d l, granting s → NoDup (owned t) → sorting t s d l →
  ∃ t' s', run sched t s = Stepped t' s' ∧
    granting s' ∧ NoDup (owned t') ∧ sorting t' s' d l ∧
    ∀ base, thread_count s = wrap_int (base + Z.of_nat (counted t l)) →
            thread_count s' = wrap_int (base + Z.of_nat (counted t' l)).
Proof.
  induction sched as [|π sched IH]; intros t s d l Hg Hnd Hs.
  { exists t, s. simpl. by repeat split. }
  cbn [run]. pose proof (step_sound t π s d l Hg Hnd Hs) as Hstep.
  destruct (step π t s) as [t1 s1| |]; [|by apply IH|done].
  destruct Hstep as (Hg1 & Hnd1 & Hs1 & Hcount).
  destruct (IH t1 s1 d l Hg1 Hnd1 Hs1) as (t' & s' & Hrun & Hg' & Hnd' & Hs' & Hcount').
  exists t', s'. repeat split; try done.
  intros base Hbase. apply Hcount'.
  destruct Hcount as [[-> ->]|[-> ->]]; [done|].
  rewrite Hbase, wrap_int_succ. f_equal. lia.
Qed.

(** Any tree that is on its way can be run to the end of its first
    thread. *)
Lemma run_complete k :
  ∀ t s d l, (steps_left t ≤ k)%nat →
  granting s → NoDup (owned t) → sorting t s d l →
  ∃ sched r s', run sched t s = Stepped (Exited r) s'.
Proof.
  induction k as [|k IH]; intros t s d l Hk Hg Hnd Hs.
  - destruct (progress t s d l Hg Hnd Hs) as [[r ->]|(π & t' & s' & Hstep)].
    + by exists [], r, s.
    + apply step_decreases in Hstep. lia.
  - destruct (progress t s d l Hg Hnd Hs) as [[r ->]|(π & t' & s' & Hstep)].
    + by exists [], r, s.
    + pose proof (step_sound t π s d l Hg Hnd Hs) as Hsound. rewrite Hstep in Hsound.
      destruct Hsound as (Hg' & Hnd' & Hs' & _).
      pose proof (step_decreases _ _ _ _ _ Hstep) as Hdec.
      destruct (IH t' s' d l) as (sched & r & s'' & Hrun); [lia|done..|].
      exists (π :: sched), r, s''. cbn [run]. by rewrite Hstep.
Qed.

(** ** Reading the result *)

Lemma StronglySorted_non_descending l : StronglySorted Z.le l ↔ non_descending l.
Proof.
  split.
  - induction 1 as [|x l Hl IH Hx]; intros i j a b Hij Hi Hj.
    { by rewrite lookup_nil in Hi. }
    destruct j as [|j]; [lia|]. simpl in Hj. destruct i as [|i]; simpl in Hi.
    + injection Hi as <-. rewrite Forall_forall in Hx. apply Hx.
      by eapply list_elem_of_lookup_2.
    + apply (IH i j); [lia|done..].
  - induction l as [|x l IH]; intros Hl; constructor.
    + apply IH. intros i j a b Hij Hi Hj. by apply (Hl (S i) (S j)); [lia|..].
    + apply Forall_forall. intros y [j Hj]%list_elem_of_lookup_1.
      by apply (Hl 0%nat (S j)); [lia|..].
Qed.

Lemma result_at_read s r l : result_at s r l → read_array s r (length l) = Some l.
Proof. intros Hr. by apply read_array_reads, result_at_reads. Qed.

(** ** [merge] in general *)

Lemma blit_after (pre cs rest : block) :
  blit cs (length pre) (pre ++ rest) = pre ++ cs ++ drop (length cs) rest.
Proof.
  unfold blit. by rewrite take_app_length, drop_app_add.
Qed.

Lemma memcpy_into s bd cd od p (l : list Z) :
  heap s !! bd = Some (Some cd) → (od + length l ≤ length cd)%nat →
  source s bd p l →
  ∃ s', memcpy (Ptr bd od) p (length l) s = Done () s' ∧
        heap s' = <[bd := Some (blit (Some <$> l) od cd)]> (heap s) ∧
        oracle s' = oracle s ∧ thread_count s' = thread_count s.
Proof.
  intros Hbd Hlen Hsrc. eexists. split; [by apply memcpy_copy|]. done.
Qed.

Lemma source_insert s s' bd c p l :
  heap s' = <[bd := c]> (heap s) → source s bd p l → source s' bd p l.
Proof.
  intros Hs' [->|(bs & pad & -> & Hne & Hbs)]; [by left|right].
  exists bs, pad. split; [done|]. split; [done|].
  rewrite Hs'. by rewrite list_lookup_insert_ne.
Qed.

Lemma merge_spec s bd cd pl pe pm (L E G : list Z) :
  heap s !! bd = Some (Some cd) →
  length cd = (length L + length E + length G)%nat →
  source s bd pl L → source s bd pe E → source s bd pm G →
  merge (Ptr bd 0) pl (length L) pe (length E) pm (length G) s
  = Done () (set_heap (<[bd := Some (Some <$> (L ++ E ++ G))]> (heap s)) s).
Proof.
  intros Hbd Hlen HL HE HG. apply lookup_lt_Some in Hbd as Hlt.
  unfold merge, padd, mbind, M_bind, bind.
  destruct (memcpy_into s bd cd (0 + 0) pl L Hbd) as (s1 & -> & Hh1 & Ho1 & Ht1);
    [lia|done|].
  assert (blit (Some <$> L) (0 + 0) cd = (Some <$> L) ++ drop (length L) cd) as Hc1.
  { change (0 + 0)%nat with (length (@nil (option Z))).
    change cd with ([] ++ cd) at 1. rewrite blit_after. simpl. by rewrite length_fmap. }
  rewrite Hc1 in Hh1.
  assert (heap s1 !! bd = Some (Some ((Some <$> L) ++ drop (length L) cd))) as Hbd1.
  { rewrite Hh1. by apply list_lookup_insert_eq. }
  destruct (memcpy_into s1 bd _ (0 + (0 + length L)) pe E Hbd1) as (s2 & -> & Hh2 & Ho2 & Ht2);
    [rewrite length_app, length_fmap, length_drop; lia|by eapply source_insert|].
  assert (blit (Some <$> E) (0 + (0 + length L)) ((Some <$> L) ++ drop (length L) cd)
          = (Some <$> L ++ E) ++ drop (length L + length E) cd) as Hc2.
  { replace (0 + (0 + length L))%nat with (length (Some <$> L)) by (by rewrite length_fmap).
    rewrite blit_after, length_fmap, drop_drop. by rewrite fmap_app, <-app_assoc. }
  rewrite Hc2 in Hh2.
  assert (heap s2 !! bd = Some (Some ((Some <$> L ++ E) ++ drop (length L + length E) cd)))
    as Hbd2.
  { rewrite Hh2. apply list_lookup_insert_eq. rewrite Hh1, length_insert. done. }
  destruct (memcpy_into s2 bd _ (0 + (0 + length L + length E)) pm G Hbd2)
    as (s3 & -> & Hh3 & Ho3 & Ht3).
  { rewrite length_app, length_fmap, length_app, length_drop. lia. }
  { eapply source_insert; [done|]. by eapply source_insert. }
  f_equal. destruct s3 as [h3 o3 t3]. simpl in *. unfold set_heap. f_equal; [|congruence..].
  rewrite Hh3, Hh2, Hh1, !list_insert_insert_eq. f_equal. f_equal.
  assert ((length L + length E)%nat = length (Some <$> L ++ E)) as ->
    by (by rewrite length_fmap, length_app).
  rewrite blit_after, drop_drop.
  rewrite drop_ge by (rewrite !length_fmap, length_app; lia).
  by rewrite app_nil_r, <-fmap_app, <-app_assoc.
Qed.

Lemma block_at_relabel f s b :
  block_at (relabel f s) b = relabel_block f <$> block_at s b.
Proof.
  unfold block_at, relabel. simpl. rewrite list_lookup_fmap.
  by destruct (heap s !! b) as [[c|]|].
Qed.

(** [memcpy] moves the cells without looking at the values in them. *)
Lemma memcpy_relabel f dst src n s :
  memcpy dst src n (relabel f s) =
    match memcpy dst src n s with
    | Done u s' => Done u (relabel f s')
    | Fault => Fault
    | OutOfFuel => OutOfFuel
    end.
Proof.
  unfold memcpy. destruct n as [|n]; [done|].
  destruct dst as [|bd od], src as [|bs os]; try done.
  rewrite !block_at_relabel.
  destruct (block_at s bd) as [cd|], (block_at s bs) as [cs|]; try done.
  simpl.
  assert (length (relabel_block f cd) = length cd) as Hd by apply length_fmap.
  assert (length (relabel_block f cs) = length cs) as Hs by apply length_fmap.
  destruct (decide _) as [H1|H1], (decide _) as [H2|H2];
    [|exfalso; apply H2; rewrite <-Hd, <-Hs; apply H1
     |exfalso; apply H1; rewrite Hd, Hs; apply H2|done].
  f_equal. unfold relabel, set_heap. simpl. f_equal.
  rewrite list_fmap_insert. simpl. f_equal. f_equal.
  unfold blit, relabel_block. rewrite !fmap_app, !fmap_take, !fmap_drop.
  by rewrite !length_take, !length_drop, !length_fmap.
Qed.

Lemma merge_relabel f result pl ls pe es pm ms s :
  merge result pl ls pe es pm ms (relabel f s) =
    match merge result pl ls pe es pm ms s with
    | Done u s' => Done u (relabel f s')
    | Fault => Fault
    | OutOfFuel => OutOfFuel
    end.
Proof.
  unfold merge, mbind, M_bind, bind.
  rewrite memcpy_relabel. destruct (memcpy _ pl ls s) as [[] s1| |]; [|done..].
  rewrite memcpy_relabel. destruct (memcpy _ pe es s1) as [[] s2| |]; [|done..].
  by rewrite memcpy_relabel.
Qed.

(** * The claims *)

(** The example of the specification. *)
Example quicksort_example : run_quicksort example_input [] = Some [1; 3; 3; 5; 8].
Proof. vm_compute. reflexivity. Qed.

Lemma sorted_at_read s r l :
  sorted_at s r l →
  ∃ out, read_array s r (length l) = Some out ∧ out ≡ₚ l ∧ StronglySorted Z.le out.
Proof.
  intros (out & Hr & Hp & Hs). exists out. split; [|done].
  rewrite <-(Permutation_length Hp). by apply result_at_read.
Qed.

Lemma sorted_unique (l1 l2 l : list Z) :
  l1 ≡ₚ l → l2 ≡ₚ l → StronglySorted Z.le l1 → StronglySorted Z.le l2 → l1 = l2.
Proof.
  intros H1 H2 Hs1 Hs2. apply (StronglySorted_unique Z.le); [done..|].
  by rewrite H1, H2.
Qed.

(** C1. For every input sequence, when the allocator grants its requests,
    [quicksort] returns an array that reads back as a permutation of the
    input (same multiset, same length) in non-descending order: for all
    positions [i < j] of the output, [output[i] ≤ output[j]].  Any
    recursion budget above the size is enough. *)
Theorem quicksort_sorts fuel s data l :
  (length l < fuel)%nat → granting s → read_array s data (length l) = Some l →
  ∃ r s' out,
    quicksort fuel (length l) data s = Done r s' ∧
    read_array s' r (length l) = Some out ∧
    out ≡ₚ l ∧ length out = length l ∧ non_descending out.
Proof.
  intros Hfuel Hg Hr%read_array_reads.
  destruct (quicksort_correct fuel l data s Hfuel Hg Hr)
    as (r & s' & Hrun & _ & out & Hres & Hp & Hs).
  exists r, s', out. split; [done|]. split; [|split; [done|split]].
  - rewrite <-(Permutation_length Hp). by apply result_at_read.
  - by apply Permutation_length.
  - by apply StronglySorted_non_descending.
Qed.

Lemma quicksort_sorts_witness :
  (length [5; 3; 8; 3; 1] < 6)%nat ∧
  ∃ r s' out,
    quicksort 6 (length [5; 3; 8; 3; 1]) (Ptr 0 0) (init_state [5; 3; 8; 3; 1] [true])
      = Done r s' ∧
    read_array s' r (length [5; 3; 8; 3; 1]) = Some out ∧
    out ≡ₚ [5; 3; 8; 3; 1] ∧ length out = length [5; 3; 8; 3; 1] ∧ non_descending out.
Proof.
  split; [simpl; lia|].
  apply (quicksort_sorts 6 (init_state [5; 3; 8; 3; 1] [true]) (Ptr 0 0) [5; 3; 8; 3; 1]).
  - simpl. lia.
  - repeat constructor.
  - reflexivity.
Defined.

(** Whatever the allocator answers later: when [partition] succeeds on an
    array stored in memory, its three buffers hold the three groups. *)
Lemma partition_success s arr l pivot ps s' :
  reads s arr l →
  partition arr (length l) pivot s = Done (Some ps) s' →
  read_array s' (less ps) (less_size ps) = Some (below pivot l) ∧
  read_array s' (equal ps) (equal_size ps) = Some (same pivot l) ∧
  read_array s' (more ps) (more_size ps) = Some (above pivot l) ∧
  (less_size ps + equal_size ps + more_size ps = length l)%nat.
Proof.
  intros Hr Hrun.
  destruct (decide (next_answer (oracle s) = true ∧ next_answer (tail (oracle s)) = true ∧
                    next_answer (tail (tail (oracle s))) = true)) as [(H1 & H2 & H3)|Hno].
  2:{ destruct (partition_refused s arr (length l) pivot Hno) as (s1 & Hfail & _).
      congruence. }
  rewrite (partition_granted s arr l pivot H1 H2 H3 Hr) in Hrun.
  injection Hrun as <- <-.
  cbn [parts_of less less_size equal equal_size more more_size].
  split; [|split; [|split]].
  - apply read_array_reads. eapply reads_block. apply tail3_lookup_0.
  - apply read_array_reads. eapply reads_block. apply tail3_lookup_2.
  - apply read_array_reads. eapply reads_block. apply tail3_lookup_1.
  - apply three_way_length.
Qed.

(** C3. For every sequence and pivot, when [partition] succeeds its three
    buffers hold three sequences such that every element of [less] is
    strictly less than the pivot, every element of [equal] is equal to it,
    every element of [more] is strictly greater, the three together are a
    permutation of the input (each element goes to exactly one of them),
    and the three sizes sum to the size of the input. *)
Theorem partition_three_way s arr l pivot ps s' :
  read_array s arr (length l) = Some l →
  partition arr (length l) pivot s = Done (Some ps) s' →
  ∃ L E G,
    read_array s' (less ps) (less_size ps) = Some L ∧
    read_array s' (equal ps) (equal_size ps) = Some E ∧
    read_array s' (more ps) (more_size ps) = Some G ∧
    Forall (λ x, x < pivot) L ∧ Forall (λ x, x = pivot) E ∧
    Forall (λ x, pivot < x) G ∧
    L ++ E ++ G ≡ₚ l ∧
    (less_size ps + equal_size ps + more_size ps = length l)%nat.
Proof.
  intros Hr%read_array_reads Hrun.
  destruct (partition_success s arr l pivot ps s' Hr Hrun) as (HL & HE & HG & Hsizes).
  exists (below pivot l), (same pivot l), (above pivot l).
  split; [done|]. split; [done|]. split; [done|].
  split; [|split; [|split; [|split]]].
  - apply Forall_forall. by intros x [? _]%below_spec.
  - apply Forall_forall. by intros x [? _]%same_spec.
  - apply Forall_forall. by intros x [? _]%above_spec.
  - apply three_way_perm.
  - done.
Qed.

Lemma partition_three_way_witness :
  ∃ ps s',
    partition (Ptr 0 0) 5 5 (init_state [5; 3; 8; 3; 1] []) = Done (Some ps) s' ∧
    read_array s' (less ps) (less_size ps) = Some [3; 3; 1] ∧
    read_array s' (equal ps) (equal_size ps) = Some [5] ∧
    read_array s' (more ps) (more_size ps) = Some [8] ∧
    ∃ L E G,
      read_array s' (less ps) (less_size ps) = Some L ∧
      read_array s' (equal ps) (equal_size ps) = Some E ∧
      read_array s' (more ps) (more_size ps) = Some G ∧
      Forall (λ x, x < 5) L ∧ Forall (λ x, x = 5) E ∧ Forall (λ x, 5 < x) G ∧
      L ++ E ++ G ≡ₚ [5; 3; 8; 3; 1] ∧
      (less_size ps + equal_size ps + more_size ps = length [5; 3; 8; 3; 1])%nat.
Proof.
  eexists _, _. split; [vm_compute; reflexivity|].
  split; [reflexivity|]. split; [reflexivity|]. split; [reflexivity|].
  apply (partition_three_way (init_state [5; 3; 8; 3; 1] []) (Ptr 0 0) [5; 3; 8; 3; 1] 5).
  - reflexivity.
  - vm_compute. reflexivity.
Defined.

(** The first thread of a sort of [l] at [data]. *)
Lemma start_sorting s data l :
  reads s data l → sorting (Start (mkArgs data (length l))) s data l.
Proof. by split. Qed.

(** C2. For every input sequence, when the allocator grants its requests,
    the threaded sorter produces exactly the output of the sequential one:
    under every schedule the threads never crash, take at most
    [11 * size + 2] steps, can always be run on until the first thread has
    ended, and when it has ended its value reads back as the array
    [quicksort] returns. *)
Theorem quicksort_threaded_same_output s data l :
  granting s → read_array s data (length l) = Some l →
  ∃ out r s1,
    quicksort (S (length l)) (length l) data s = Done r s1 ∧
    read_array s1 r (length l) = Some out ∧
    ∀ sched, ∃ t s2,
      run sched (Start (mkArgs data (length l))) s = Stepped t s2 ∧
      (steps_taken sched (Start (mkArgs data (length l))) s ≤ 11 * length l + 2)%nat ∧
      (∀ r', t = Exited r' → read_array s2 r' (length l) = Some out) ∧
      ∃ rest r' s3,
        run rest t s2 = Stepped (Exited r') s3 ∧
        read_array s3 r' (length l) = Some out.
Proof.
  intros Hg Hr%read_array_reads.
  destruct (quicksort_correct (S (length l)) l data s)
    as (r & s1 & Hrun & _ & out & Hres & Hp & Hs);
    [lia|done..|].
  exists out, r, s1. split; [done|]. split.
  { rewrite <-(Permutation_length Hp). by apply result_at_read. }
  assert (∀ t' s' r', sorting t' s' data l → t' = Exited r' →
            read_array s' r' (length l) = Some out) as Hexit.
  { intros t' s' r' Hs' ->. destruct (sorted_at_read _ _ _ Hs') as (out' & Hread & Hp' & Hsort').
    by rewrite (sorted_unique out out' l). }
  intros sched.
  destruct (run_sound sched (Start (mkArgs data (length l))) s data l)
    as (t & s2 & Hsched & Hg2 & Hnd2 & Hs2 & _); [done|constructor|by apply start_sorting|].
  exists t, s2. split; [done|]. split; [|split].
  - apply run_bounded in Hsched. cbn [steps_left size] in Hsched.
    unfold potential in Hsched. lia.
  - intros r'. by apply Hexit.
  - destruct (run_complete (steps_left t) t s2 data l) as (rest & r' & s3 & Hrest);
      [done..|].
    exists rest, r', s3. split; [done|].
    destruct (run_sound rest t s2 data l Hg2 Hnd2 Hs2) as (t3 & s3' & Hrest' & _ & _ & Hs3 & _).
    rewrite Hrest in Hrest'. injection Hrest' as <- <-. by eapply Hexit.
Qed.

Lemma quicksort_threaded_same_output_witness :
  ∃ out r s1,
    quicksort (S (length example_input)) (length example_input) (Ptr 0 0)
      (init_state example_input []) = Done r s1 ∧
    read_array s1 r (length example_input) = Some out ∧
    ∀ sched, ∃ t s2,
      run sched (Start (mkArgs (Ptr 0 0) (length example_input)))
        (init_state example_input []) = Stepped t s2 ∧
      (steps_taken sched (Start (mkArgs (Ptr 0 0) (length example_input)))
         (init_state example_input []) ≤ 11 * length example_input + 2)%nat ∧
      (∀ r', t = Exited r' → read_array s2 r' (length example_input) = Some out) ∧
      ∃ rest r' s3,
        run rest t s2 = Stepped (Exited r') s3 ∧
        read_array s3 r' (length example_input) = Some out.
Proof.
  apply (quicksort_threaded_same_output (init_state example_input []) (Ptr 0 0)
           example_input).
  - constructor.
  - reflexivity.
Defined.

(** The two schedulers of the examples agree with [quicksort] on the
    example of the specification. *)
Example threaded_example_first :
  let t := Start (mkArgs (Ptr 0 0) 5) in
  let s := init_state [5; 3; 8; 3; 1] [] in
  match run (schedule head 100 t s) t s with
  | Stepped (Exited r) s' => read_array s' r 5 = Some [1; 3; 3; 5; 8] ∧ thread_count s' = 9
  | _ => False
  end.
Proof. vm_compute. by split. Qed.

Example threaded_example_last :
  let t := Start (mkArgs (Ptr 0 0) 5) in
  let s := init_state [5; 3; 8; 3; 1] [] in
  match run (schedule last 100 t s) t s with
  | Stepped (Exited r) s' => read_array s' r 5 = Some [1; 3; 3; 5; 8] ∧ thread_count s' = 9
  | _ => False
  end.
Proof. vm_compute. by split. Qed.

(** The counter when the first thread has ended: every invocation has
    incremented it once. *)
Lemma threaded_count s data l sched r s' :
  granting s → reads s data l → - 2 ^ 31 ≤ thread_count s < 2 ^ 31 →
  run sched (Start (mkArgs data (length l))) s = Stepped (Exited r) s' →
  thread_count s' = wrap_int (thread_count s + Z.of_nat (invocations l)).
Proof.
  intros Hg Hr Hint Hrun.
  destruct (run_sound sched (Start (mkArgs data (length l))) s data l)
    as (t & s2 & Hsched & _ & _ & _ & Hcount); [done|constructor|by apply start_sorting|].
  rewrite Hrun in Hsched. injection Hsched as <- <-.
  apply Hcount. cbn [counted]. rewrite Z.add_0_r. by rewrite wrap_int_small.
Qed.

Lemma threaded_exit s data l sched r s' :
  granting s → reads s data l →
  run sched (Start (mkArgs data (length l))) s = Stepped (Exited r) s' →
  sorted_at s' r l.
Proof.
  intros Hg Hr Hrun.
  destruct (run_sound sched (Start (mkArgs data (length l))) s data l)
    as (t & s2 & Hsched & _ & _ & Hs & _); [done|constructor|by apply start_sorting|].
  rewrite Hrun in Hsched. by injection Hsched as <- <-.
Qed.

Lemma threaded_completes s data l sched :
  granting s → reads s data l →
  ∃ t s', run sched (Start (mkArgs data (length l))) s = Stepped t s' ∧
          ∃ rest r s'', run rest t s' = Stepped (Exited r) s''.
Proof.
  intros Hg Hr.
  destruct (run_sound sched (Start (mkArgs data (length l))) s data l)
    as (t & s2 & Hsched & Hg2 & Hnd2 & Hs2 & _); [done|constructor|by apply start_sorting|].
  exists t, s2. split; [done|]. by eapply (run_complete (steps_left t)).
Qed.

Lemma invocations_singleton x : invocations [x] = 3%nat.
Proof.
  rewrite invocations_cons, below_cons, above_cons. decide_by_lia. reflexivity.
Qed.

(** C4, as the code has it.  For a single-element input the threaded
    sorter returns that same element, and when the first thread has ended
    the counter, which [main] starts at 0, is exactly 3: the first
    invocation and the two invocations it starts on its empty [less] and
    [more] partitions have each incremented it once.  The increment is the
    first step of an invocation and touches nothing else.  This holds under
    every schedule, and every schedule can be run on to that end. *)
Theorem singleton_threaded_count s data x sched :
  granting s → thread_count s = 0 → read_array s data 1 = Some [x] →
  (∀ a s0, step Self (Start a) s0 =
     Stepped (Entered a) (mkState (heap s0) (oracle s0) (wrap_int (thread_count s0 + 1)))) ∧
  ∃ t s',
    run sched (Start (mkArgs data 1)) s = Stepped t s' ∧
    (∀ r, t = Exited r → read_array s' r 1 = Some [x] ∧ thread_count s' = 3) ∧
    ∃ rest r s'',
      run rest t s' = Stepped (Exited r) s'' ∧
      read_array s'' r 1 = Some [x] ∧ thread_count s'' = 3.
Proof.
  intros Hg Htc Hr%(read_array_reads s data [x]). split; [done|].
  assert (∀ sched' r s', run sched' (Start (mkArgs data 1)) s = Stepped (Exited r) s' →
            read_array s' r 1 = Some [x] ∧ thread_count s' = 3) as Hend.
  { intros sched' r s' Hrun. split.
    - apply (threaded_exit s data [x]) in Hrun as (out & Hres & Hp & _); [|done..].
      apply Permutation_singleton_r in Hp as ->. by apply (result_at_read _ _ [x]).
    - apply (threaded_count s data [x]) in Hrun; [|done|done|rewrite Htc; lia].
      rewrite Hrun, Htc, invocations_singleton. reflexivity. }
  destruct (threaded_completes s data [x] sched Hg Hr) as (t & s' & Hrun & rest & r & s'' & Hrest).
  exists t, s'. split; [done|]. split.
  - intros r' ->. by eapply Hend.
  - exists rest, r, s''. split; [done|].
    apply (Hend (sched ++ rest)). rewrite run_app. cbn [length] in Hrun. by rewrite Hrun.
Qed.

Lemma singleton_threaded_count_witness :
  ∃ t s',
    run [Self; Self; Self; Self; LessThread Self; MoreThread Self]
        (Start (mkArgs (Ptr 0 0) 1)) (init_state [7] []) = Stepped t s' ∧
    (∀ r, t = Exited r → read_array s' r 1 = Some [7] ∧ thread_count s' = 3) ∧
    ∃ rest r s'',
      run rest t s' = Stepped (Exited r) s'' ∧
      read_array s'' r 1 = Some [7] ∧ thread_count s'' = 3.
Proof.
  apply (singleton_threaded_count (init_state [7] []) (Ptr 0 0) 7
           [Self; Self; Self; Self; LessThread Self; MoreThread Self]).
  - constructor.
  - reflexivity.
  - reflexivity.
Defined.

(** C4 as stated fails: on the one-element array [7] the counter is 3,
    not 1, when the first thread has ended. *)
Lemma singleton_counter_counterexample :
  ¬ (∀ sched r s',
       run_threaded sched [7] [] = Stepped (Exited r) s' → thread_count s' = 1).
Proof.
  intros Hclaim.
  assert (∃ r s',
    run_threaded [Self; Self; Self; Self; LessThread Self; MoreThread Self;
                  LessThread Self; MoreThread Self; Self; Self; Self] [7] []
      = Stepped (Exited r) s' ∧ thread_count s' = 3) as (r & s' & Hrun & Hcount).
  { eexists _, _. vm_compute. split; reflexivity. }
  apply Hclaim in Hrun. rewrite Hcount in Hrun. discriminate.
Qed.

(** C5, as the code has it.  Sorting an empty sequence returns the null
    pointer and changes nothing; read with its size 0 the null pointer is
    the zero-length sequence. *)
Theorem quicksort_empty fuel data s :
  quicksort (S fuel) 0 data s = Done NULL s ∧ read_array s NULL 0 = Some [].
Proof. by split. Qed.

(** C5 as stated fails: the value returned for an empty sequence is the
    value returned when [partition] could not allocate (here on the array
    [7], the first request being refused), so the value returned does not
    tell the one from the other. *)
Lemma empty_result_counterexample :
  ¬ (∀ r0 s0 r1 s1,
       quicksort 1 0 (Ptr 0 0) (init_state [] []) = Done r0 s0 →
       quicksort 2 1 (Ptr 0 0) (init_state [7] [false]) = Done r1 s1 →
       r0 ≠ r1).
Proof.
  intros Hclaim. by eapply (Hclaim NULL _ NULL _); vm_compute.
Qed.

(** C6, where the code departs from it.  On the array [5; 3; 8], with the
    second of the three requests refused, [partition] reports the failure
    (return value -1) and returns while the two buffers it did obtain, the
    one allocated before the refused request and the one after, are still
    allocated. *)
Theorem partition_failure_leaks :
  ∃ s', partition (Ptr 0 0) 3 5 (init_state [5; 3; 8] [true; false]) = Done None s' ∧
        partition_rc None = -1 ∧
        block_at s' 1 = Some [None; None; None] ∧
        block_at s' 2 = Some [None; None; None].
Proof. eexists. vm_compute. by repeat split. Qed.

(** C7. For any three sequences and a destination buffer of their total
    length, [merge] writes [less] first, then [equal], then [more],
    contiguously: [destination[i] = less[i]],
    [destination[|less| + i] = equal[i]] and
    [destination[|less| + |equal| + i] = more[i]].  It writes to the
    destination only, and it compares nothing: renaming the stored values
    by any function renames the outcome in the same way. *)
Theorem merge_contiguous s bd cd pl pe pm L E G :
  heap s !! bd = Some (Some cd) →
  length cd = (length L + length E + length G)%nat →
  source s bd pl L → source s bd pe E → source s bd pm G →
  ∃ s',
    merge (Ptr bd 0) pl (length L) pe (length E) pm (length G) s = Done () s' ∧
    (∀ i v, L !! i = Some v → load (Ptr bd 0) i s' = Done v s') ∧
    (∀ i v, E !! i = Some v → load (Ptr bd 0) (length L + i) s' = Done v s') ∧
    (∀ i v, G !! i = Some v →
       load (Ptr bd 0) (length L + length E + i) s' = Done v s') ∧
    read_array s' (Ptr bd 0) (length cd) = Some (L ++ E ++ G) ∧
    (∀ b, b ≠ bd → heap s' !! b = heap s !! b) ∧
    ∀ f, merge (Ptr bd 0) pl (length L) pe (length E) pm (length G) (relabel f s)
         = Done () (relabel f s').
Proof.
  intros Hbd Hlen HL HE HG.
  pose proof (merge_spec s bd cd pl pe pm L E G Hbd Hlen HL HE HG) as Hrun.
  eexists. split; [done|].
  assert (reads (set_heap (<[bd := Some (Some <$> (L ++ E ++ G))]> (heap s)) s)
            (Ptr bd 0) (L ++ E ++ G)) as Hreads.
  { apply reads_block with []. rewrite app_nil_r. simpl.
    apply list_lookup_insert_eq. by eapply lookup_lt_Some. }
  split; [|split; [|split; [|split; [|split]]]].
  - intros i v Hi. apply Hreads. by apply lookup_app_l_Some.
  - intros i v Hi. apply Hreads. rewrite lookup_app_r by lia.
    replace (length L + i - length L)%nat with i by lia. by apply lookup_app_l_Some.
  - intros i v Hi. apply Hreads. rewrite lookup_app_r by lia.
    rewrite lookup_app_r by lia.
    by replace (length L + length E + i - length L - length E)%nat with i by lia.
  - rewrite Hlen.
    replace (length L + length E + length G)%nat with (length (L ++ E ++ G))
      by (rewrite !length_app; lia).
    by apply read_array_reads.
  - intros b Hb. simpl. by apply list_lookup_insert_ne.
  - intros f. by rewrite merge_relabel, Hrun.
Qed.

Lemma merge_contiguous_witness :
  ∃ s',
    merge (Ptr 0 0) (Ptr 1 0) 3 (Ptr 2 0) 1 (Ptr 3 0) 1 merge_example_state = Done () s' ∧
    (∀ i v, [1; 3; 3] !! i = Some v → load (Ptr 0 0) i s' = Done v s') ∧
    (∀ i v, [5] !! i = Some v → load (Ptr 0 0) (3 + i) s' = Done v s') ∧
    (∀ i v, [8] !! i = Some v → load (Ptr 0 0) (3 + 1 + i) s' = Done v s') ∧
    read_array s' (Ptr 0 0) 5 = Some [1; 3; 3; 5; 8] ∧
    (∀ b, b ≠ 0%nat → heap s' !! b = heap merge_example_state !! b) ∧
    ∀ f, merge (Ptr 0 0) (Ptr 1 0) 3 (Ptr 2 0) 1 (Ptr 3 0) 1 (relabel f merge_example_state)
         = Done () (relabel f s').
Proof.
  apply (merge_contiguous merge_example_state 0 [None; None; None; None; None]
           (Ptr 1 0) (Ptr 2 0) (Ptr 3 0) [1; 3; 3] [5] [8]).
  - reflexivity.
  - reflexivity.
  - right. exists 1%nat, [None]. split; [reflexivity|]. split; [lia|reflexivity].
  - right. exists 2%nat, []. split; [reflexivity|]. split; [lia|reflexivity].
  - right. exists 3%nat, []. split; [reflexivity|]. split; [lia|reflexivity].
Defined.

(** Running a schedule: the blocks that were there before the first
    thread started stay as they were, whatever the allocator answers. *)
Lemma run_frame sched :
  ∀ t s t' s' n,
  run sched t s = Stepped t' s' →
  (n ≤ length (heap s))%nat → (∀ b, b ∈ owned t → (n ≤ b)%nat) →
  (n ≤ length (heap s'))%nat ∧ (∀ b, b ∈ owned t' → (n ≤ b)%nat) ∧
  ∀ b, (b < n)%nat → heap s' !! b = heap s !! b.
Proof.
  induction sched as [|π sched IH]; intros t s t' s' n Hrun Hn Hown; simpl in Hrun.
  { injection Hrun as <- <-. done. }
  destruct (step π t s) as [t1 s1| |] eqn:Hstep; [| |done].
  - apply step_touch in Hstep as (Hle & Hkeep & Hnew).
    apply (IH _ _ _ _ n) in Hrun as (Hn' & Hown' & Hsame); [|lia|].
    + split; [done|]. split; [done|]. intros b Hb. rewrite Hsame by done.
      apply Hkeep; [lia|]. intros Hin. apply Hown in Hin. lia.
    + intros b Hb. destruct (Hnew b Hb) as [Hin|?]; [by apply Hown|lia].
  - by apply (IH _ _ _ _ n) in Hrun.
Qed.

(** C8. Neither sorter changes its input: whatever the allocator answers
    and, for the threads, under every schedule and at every point of the
    run, the input array reads as before, and so does every block that
    was allocated before the sorter started.  The sorters write to and
    release only blocks they allocated themselves. *)
Theorem sorters_keep_input fuel sched n data s l :
  read_array s data (length l) = Some l →
  (∀ r s', quicksort fuel n data s = Done r s' →
     read_array s' data (length l) = Some l ∧
     ∀ b, (b < length (heap s))%nat → heap s' !! b = heap s !! b) ∧
  (∀ t s', run sched (Start (mkArgs data n)) s = Stepped t s' →
     read_array s' data (length l) = Some l ∧
     ∀ b, (b < length (heap s))%nat → heap s' !! b = heap s !! b).
Proof.
  intros Hr%read_array_reads. split.
  - intros r s' Hrun. apply quicksort_frame in Hrun as (_ & He & _).
    split; [|apply He]. apply read_array_reads. by eapply reads_extends.
  - intros t s' Hrun.
    apply (run_frame _ _ _ _ _ (length (heap s))) in Hrun as (_ & _ & Hsame); [|done|].
    + split; [|done]. apply read_array_reads. by eapply reads_stable.
    + intros b Hb. by apply elem_of_nil in Hb.
Qed.

Lemma sorters_keep_input_witness :
  (∀ r s', quicksort 6 5 (Ptr 0 0) (init_state example_input [true; true; false]) = Done r s' →
     read_array s' (Ptr 0 0) (length example_input) = Some example_input ∧
     ∀ b, (b < length (heap (init_state example_input [true; true; false])))%nat →
          heap s' !! b = heap (init_state example_input [true; true; false]) !! b) ∧
  (∀ t s', run [Self; Self; Self; Self; LessThread Self; MoreThread Self]
               (Start (mkArgs (Ptr 0 0) 5)) (init_state example_input [true; true; false])
           = Stepped t s' →
     read_array s' (Ptr 0 0) (length example_input) = Some example_input ∧
     ∀ b, (b < length (heap (init_state example_input [true; true; false])))%nat →
          heap s' !! b = heap (init_state example_input [true; true; false]) !! b).
Proof.
  apply (sorters_keep_input 6 [Self; Self; Self; Self; LessThread Self; MoreThread Self]
           5 (Ptr 0 0) (init_state example_input [true; true; false]) example_input).
  reflexivity.
Defined.

(** C9. Sorting is idempotent: on a sequence that is already in
    non-descending order [quicksort] returns an array that reads back as
    that same sequence, element for element. *)
Theorem quicksort_idempotent fuel s data l :
  (length l < fuel)%nat → granting s → read_array s data (length l) = Some l →
  non_descending l →
  ∃ r s', quicksort fuel (length l) data s = Done r s' ∧
          read_array s' r (length l) = Some l.
Proof.
  intros Hfuel Hg Hr%read_array_reads Hl%StronglySorted_non_descending.
  destruct (quicksort_correct fuel l data s Hfuel Hg Hr)
    as (r & s' & Hrun & _ & out & Hres & Hp & Hs).
  exists r, s'. split; [done|].
  assert (out = l) as -> by (by apply (sorted_unique out l l)).
  by apply result_at_read.
Qed.

Lemma quicksort_idempotent_witness :
  ∃ r s', quicksort 6 (length [1; 3; 3; 5; 8]) (Ptr 0 0) (init_state [1; 3; 3; 5; 8] [])
            = Done r s' ∧
          read_array s' r (length [1; 3; 3; 5; 8]) = Some [1; 3; 3; 5; 8].
Proof.
  apply (quicksort_idempotent 6 (init_state [1; 3; 3; 5; 8] []) (Ptr 0 0) [1; 3; 3; 5; 8]).
  - simpl. lia.
  - constructor.
  - reflexivity.
  - apply StronglySorted_non_descending. repeat constructor; lia.
Defined.

(** C10. [quicksort] terminates on every input: in any memory and
    whatever the allocator answers, a recursion budget above the size is
    never exhausted, and any larger budget gives the same outcome.  The
    reason: when [partition] succeeds on a non-empty array with its first
    element as the pivot, the pivot is in the [equal] group, so [less] and
    [more] are each strictly smaller than the input, and both recursive
    calls are on strictly smaller arrays. *)
Theorem quicksort_terminates fuel n data s :
  (n < fuel)%nat →
  quicksort fuel n data s ≠ OutOfFuel ∧
  (∀ fuel', (fuel ≤ fuel')%nat → quicksort fuel' n data s = quicksort fuel n data s) ∧
  ∀ pivot ps s',
    n ≠ 0%nat → load data 0 s = Done pivot s →
    partition data n pivot s = Done (Some ps) s' →
    (0 < equal_size ps)%nat ∧ (less_size ps < n)%nat ∧ (more_size ps < n)%nat ∧
    ∀ l, read_array s data n = Some l →
         ∃ E, read_array s' (equal ps) (equal_size ps) = Some E ∧ pivot ∈ E.
Proof.
  intros Hfuel. split; [by apply quicksort_no_timeout|].
  split; [intros fuel' Hfuel'; apply quicksort_budget; lia|].
  intros pivot ps s' Hn Hpiv Hpart.
  pose proof Hpart as (_ & _ & _ & Hps)%partition_Done.
  destruct (Hps ps eq_refl) as (_ & _ & _ & _ & Hsum & Heq).
  specialize (Heq Hpiv ltac:(lia)).
  split; [done|]. split; [lia|]. split; [lia|].
  intros l Hl. pose proof (read_array_length _ _ _ _ Hl) as <-.
  apply read_array_reads in Hl.
  destruct (partition_success s data l pivot ps s' Hl Hpart) as (_ & HE & _).
  exists (same pivot l). split; [done|].
  destruct l as [|x l]; [done|].
  rewrite (Hl 0%nat x eq_refl) in Hpiv. injection Hpiv as ->.
  apply same_spec. split; [done|by left].
Qed.

Lemma quicksort_terminates_witness :
  quicksort 6 5 (Ptr 0 0) (init_state example_input [true; true; true; false]) ≠ OutOfFuel ∧
  (∀ fuel', (6 ≤ fuel')%nat →
     quicksort fuel' 5 (Ptr 0 0) (init_state example_input [true; true; true; false])
     = quicksort 6 5 (Ptr 0 0) (init_state example_input [true; true; true; false])) ∧
  ∀ pivot ps s',
    5%nat ≠ 0%nat →
    load (Ptr 0 0) 0 (init_state example_input [true; true; true; false])
      = Done pivot (init_state example_input [true; true; true; false]) →
    partition (Ptr 0 0) 5 pivot (init_state example_input [true; true; true; false])
      = Done (Some ps) s' →
    (0 < equal_size ps)%nat ∧ (less_size ps < 5)%nat ∧ (more_size ps < 5)%nat ∧
    ∀ l, read_array (init_state example_input [true; true; true; false]) (Ptr 0 0) 5 = Some l →
         ∃ E, read_array s' (equal ps) (equal_size ps) = Some E ∧ pivot ∈ E.
Proof.
  apply (quicksort_terminates 6 5 (Ptr 0 0)
           (init_state example_input [true; true; true; false])).
  lia.
Defined.

(** * More of the code *)

(** ** [quicksort] whatever the allocator answers *)

Lemma memcpy_Done_nonnull dst src n s u s' :
  memcpy dst src (S n) s = Done u s' → dst ≠ NULL ∧ src ≠ NULL.
Proof. unfold memcpy. by destruct dst, src. Qed.

(** When the second half of a sorter returns, the request for the result
    was granted, and a null sorted array stood for an empty partition. *)
Lemma merge_and_release_Done_inv sz p sl sm s r s' :
  merge_and_release sz p sl sm s = Done r s' → (0 < equal_size p)%nat →
  next_answer (oracle s) = true ∧
  (sl = NULL → less_size p = 0%nat) ∧ (sm = NULL → more_size p = 0%nat).
Proof.
  intros Hrun Heq. unfold merge_and_release in Hrun.
  apply bind_Done in Hrun as (res & s1 & Hmalloc & Hrun).
  apply bind_Done in Hrun as ([] & s2 & Hmerge & _).
  unfold merge in Hmerge.
  apply bind_Done in Hmerge as ([] & s3 & Hc1 & Hmerge).
  apply bind_Done in Hmerge as ([] & s4 & Hc2 & Hc3).
  destruct (equal_size p) as [|es] eqn:Hes; [lia|].
  apply memcpy_Done_nonnull in Hc2 as [Hres _].
  rewrite malloc_answer in Hmalloc.
  destruct (next_answer (oracle s)); injection Hmalloc as <- <-; [|done].
  split; [done|]. split.
  - intros ->. destruct (less_size p); [done|].
    by apply memcpy_Done_nonnull in Hc1 as [_ ?].
  - intros ->. destruct (more_size p); [done|].
    by apply memcpy_Done_nonnull in Hc3 as [_ ?].
Qed.

Lemma sorted_at_nil s : sorted_at s NULL [].
Proof. exists []. split; [done|]. split; [done|constructor]. Qed.

Lemma sorted_at_extends s s' r l :
  sorted_at s r l → extends (length (heap s)) s s' → sorted_at s' r l.
Proof.
  intros (out & Hr & Hp & Hs) He. exists out. split; [|done].
  by eapply result_at_extends.
Qed.

Lemma sorted_at_nonnull s r l : sorted_at s r l → l ≠ [] → r ≠ NULL.
Proof.
  intros (out & Hr & Hp & _) Hl ->. destruct out as [|y out].
  - apply Permutation_nil in Hp. done.
  - by destruct Hr as (b & ? & _).
Qed.

Lemma distinct_nil : distinct [] = 0%nat.
Proof. reflexivity. Qed.

(** The pivot and the distinct values on each side of it. *)
Lemma distinct_cons x l :
  distinct (x :: l) = S (distinct (below x (x :: l)) + distinct (above x (x :: l))).
Proof.
  unfold distinct.
  assert ((list_to_set (x :: l) : gset Z)
          = {[x]} ∪ (list_to_set (below x (x :: l)) ∪ list_to_set (above x (x :: l))))
    as ->.
  { apply set_eq. intros y. rewrite !elem_of_union, !elem_of_list_to_set,
      elem_of_singleton, below_spec, above_spec.
    split.
    - intros Hy. destruct (decide (y = x)) as [->|Hne]; [by left|right].
      destruct (decide (y < x)); [left|right]; (split; [lia|done]).
    - intros [->|[[_ ?]|[_ ?]]]; [by left|done..]. }
  rewrite size_union, size_singleton, size_union; [done| |].
  - intros y. rewrite !elem_of_list_to_set, below_spec, above_spec. lia.
  - intros y. rewrite elem_of_singleton, elem_of_union, !elem_of_list_to_set,
      below_spec, above_spec. lia.
Qed.

Lemma distinct_le_length l : (distinct l ≤ length l)%nat.
Proof.
  induction l as [|x l IH]; [done|]. unfold distinct in *. cbn [list_to_set foldr length].
  rewrite size_union_alt, size_singleton.
  pose proof (subseteq_size (list_to_set l ∖ {[x]}) (list_to_set l : gset Z)) as Hsub.
  assert (base.size ((list_to_set l : gset Z) ∖ {[x]}) ≤ base.size (list_to_set l : gset Z))%nat
    by (apply Hsub; set_solver).
  lia.
Qed.

Lemma granted_upto_add k1 k2 o :
  granted_upto k1 o → granted_upto k2 (drop k1 o) → granted_upto (k1 + k2) o.
Proof.
  intros H1 H2 i Hi. destruct (decide (i < k1)%nat) as [?|?]; [by apply H1|].
  specialize (H2 (i - k1)%nat ltac:(lia)). rewrite drop_drop in H2.
  by replace (k1 + (i - k1))%nat with i in H2 by lia.
Qed.

Lemma three_granted_upto o : three_granted o → granted_upto 3 o.
Proof.
  intros (H1 & H2 & H3) i Hi.
  destruct i as [|[|[|i]]]; [done| | |lia].
  - by destruct o.
  - by destruct o as [|? [|? ?]].
Qed.

Lemma drop_3_tail {A} (o : list A) : tail (tail (tail o)) = drop 3 o.
Proof. by destruct o as [|? [|? [|? ?]]]. Qed.

Lemma drop_1_tail {A} (o : list A) : tail o = drop 1 o.
Proof. by destruct o. Qed.

(** After the two recursive calls the three buffers are still what
    [partition] left, and the five arrays to release are five blocks. *)
Lemma children_ready x l s r1 s2 r2 s3 :
  extends (length (heap (partitioned x (x :: l) s))) (partitioned x (x :: l) s) s2 →
  extends (length (heap s2)) s2 s3 →
  (r1 = NULL ∨ ∃ b, r1 = Ptr b 0 ∧
     (length (heap (partitioned x (x :: l) s)) ≤ b < length (heap s2))%nat) →
  (r2 = NULL ∨ ∃ b, r2 = Ptr b 0 ∧ (length (heap s2) ≤ b < length (heap s3))%nat) →
  split_at s3 (length (x :: l)) (parts_of x (x :: l) s) x (x :: l) ∧
  NoDup (pblocks (parts_of x (x :: l) s) ++ blk r1 ++ blk r2).
Proof.
  intros He2 He3 Hr1 Hr2.
  set (s1 := partitioned x (x :: l) s) in *.
  set (n := length (heap s)) in *.
  assert (heap s1 !! n = Some (buffer (length (x :: l)) (below x (x :: l)))) as Hbl
    by apply tail3_lookup_0.
  assert (heap s1 !! S n = Some (buffer (length (x :: l)) (above x (x :: l)))) as Hbm
    by apply tail3_lookup_1.
  assert (heap s1 !! S (S n) = Some (buffer (length (x :: l)) (same x (x :: l)))) as Hbe
    by apply tail3_lookup_2.
  assert (length (heap s1) = S (S (S n))) as Hlen1.
  { unfold s1, partitioned. simpl. rewrite length_app. simpl. lia. }
  pose proof He2 as [Hlen2 Hkeep2]. pose proof He3 as [Hlen3 Hkeep3].
  assert (∀ b v, (b < length (heap s1))%nat → heap s1 !! b = Some v → heap s3 !! b = Some v)
    as Hkeep.
  { intros b v Hb Hv. rewrite Hkeep3 by lia. by rewrite Hkeep2. }
  split.
  - unfold split_at, stored, parts_of. fold n.
    cbn [hd less more equal less_size more_size equal_size].
    split; [done|]. split; [done|]. split; [done|]. split; [done|].
    split; [|split]; eexists _, _; (split; [done|]); apply Hkeep; (lia || done).
  - unfold pblocks, parts_of. fold n. cbn [less more equal blk app].
    change (NoDup ([n; S n; S (S n)] ++ blk r1 ++ blk r2)).
    apply NoDup_app. split; [|split].
    + repeat constructor; rewrite ?elem_of_cons, ?elem_of_nil; lia.
    + intros b Hb Hin. rewrite !elem_of_cons in Hb.
      assert (length (heap s1) ≤ b)%nat as Hge.
      { apply elem_of_app in Hin as [Hin|Hin].
        - destruct Hr1 as [->|(b1 & -> & ?)]; [by apply elem_of_nil in Hin|].
          apply list_elem_of_singleton in Hin as ->. lia.
        - destruct Hr2 as [->|(b2 & -> & ?)]; [by apply elem_of_nil in Hin|].
          apply list_elem_of_singleton in Hin as ->. lia. }
      destruct Hb as [->|[->|[->|Hb]]]; [lia..|by apply elem_of_nil in Hb].
    + apply NoDup_app. split; [|split].
      * destruct r1; simpl; [constructor|apply NoDup_singleton].
      * intros b Hb1 Hb2.
        destruct Hr1 as [->|(b1 & -> & ?)]; [by apply elem_of_nil in Hb1|].
        destruct Hr2 as [->|(b2 & -> & ?)]; [by apply elem_of_nil in Hb2|].
        apply list_elem_of_singleton in Hb1 as ->.
        apply list_elem_of_singleton in Hb2. lia.
      * destruct r2; simpl; [constructor|apply NoDup_singleton].
Qed.

(** What [quicksort] has done when it returns, whatever the allocator
    answered: nothing on an empty array; on a non-empty array either its
    own [partition] was refused a buffer and it returns the null pointer,
    or it returns the sorted array, having released every other block it
    allocated. *)
Lemma quicksort_Done fuel :
  ∀ l d s r s', reads s d l → quicksort fuel (length l) d s = Done r s' →
  (l = [] ∧ r = NULL ∧ s' = s) ∨
  (l ≠ [] ∧ r = NULL ∧ ¬ three_granted (oracle s)) ∨
  (l ≠ [] ∧ three_granted (oracle s) ∧ sorted_at s' r l ∧
   tidy (length (heap s)) s' r ∧
   oracle s' = drop (4 * distinct l) (oracle s) ∧
   granted_upto (4 * distinct l) (oracle s) ∧
   length (heap s') = (length (heap s) + 4 * distinct l)%nat).
Proof.
  induction fuel as [|fuel IH]; intros l d s r s' Hr Hrun; [done|].
  rewrite quicksort_unfold in Hrun. destruct l as [|x l].
  { left. by injection Hrun as <- <-. }
  right. rewrite bool_decide_eq_false_2 in Hrun by done.
  apply bind_Done in Hrun as (pivot & s0 & Hpiv & Hrun).
  rewrite (Hr 0%nat x eq_refl) in Hpiv. injection Hpiv as <- <-.
  apply bind_Done in Hrun as (pr & s1 & Hpart & Hrun).
  destruct (decide (three_granted (oracle s))) as [Hyes|Hno].
  2:{ left. destruct (partition_refused s d (length (x :: l)) x Hno) as (s1' & Hfail & _).
      rewrite Hfail in Hpart. injection Hpart as <- <-. by injection Hrun as <- <-. }
  right. pose proof Hyes as (H1 & H2 & H3).
  rewrite (partition_granted s d (x :: l) x H1 H2 H3 Hr) in Hpart.
  injection Hpart as <- <-.
  set (s1 := partitioned x (x :: l) s) in *.
  set (n := length (heap s)) in *.
  assert (heap s1 !! n = Some (buffer (length (x :: l)) (below x (x :: l)))) as Hbl
    by apply tail3_lookup_0.
  assert (heap s1 !! S n = Some (buffer (length (x :: l)) (above x (x :: l)))) as Hbm
    by apply tail3_lookup_1.
  assert (heap s1 !! S (S n) = Some (buffer (length (x :: l)) (same x (x :: l)))) as Hbe
    by apply tail3_lookup_2.
  assert (length (heap s1) = S (S (S n))) as Hlen1.
  { unfold s1, partitioned. simpl. rewrite length_app. simpl. lia. }
  cbn [parts_of less less_size more more_size equal equal_size] in Hrun. fold n in Hrun.
  apply bind_Done in Hrun as (r1 & s2 & Hrun1 & Hrun).
  apply bind_Done in Hrun as (r2 & s3 & Hrun2 & Hfin).
  pose proof (merge_and_release_Done_inv _ _ _ _ _ _ _ Hfin) as (Hans & Hnull1 & Hnull2);
    [cbn [equal_size]; apply same_hd|].
  cbn [less_size more_size] in Hnull1, Hnull2.
  (* the less group *)
  assert (reads s1 (Ptr n 0) (below x (x :: l))) as Hreads1 by (by eapply reads_block).
  pose proof (IH _ _ _ _ _ Hreads1 Hrun1) as Hcase1.
  apply quicksort_frame in Hrun1 as (_ & He2 & Hr1).
  assert (sorted_at s2 r1 (below x (x :: l)) ∧ tidy (length (heap s1)) s2 r1 ∧
          oracle s2 = drop (4 * distinct (below x (x :: l))) (oracle s1) ∧
          granted_upto (4 * distinct (below x (x :: l))) (oracle s1) ∧
          length (heap s2) = (length (heap s1) + 4 * distinct (below x (x :: l)))%nat)
    as (Hsl & Htidy1 & Ho2 & Hgr1 & Hsz2).
  { destruct Hcase1 as [(Hnil & -> & ->)|[(Hne & -> & _)|(_ & _ & ? & ? & ? & ? & ?)]];
      [| |done].
    - rewrite Hnil, distinct_nil. split; [apply sorted_at_nil|].
      split; [intros b Hb; lia|]. split; [done|]. split; [intros i Hi; lia|lia].
    - exfalso. apply Hne. apply nil_length_inv. by apply Hnull1. }
  (* the more group *)
  assert (reads s2 (Ptr (S n) 0) (above x (x :: l))) as Hreads2.
  { eapply reads_extends; [|done]. by eapply reads_block. }
  pose proof (IH _ _ _ _ _ Hreads2 Hrun2) as Hcase2.
  apply quicksort_frame in Hrun2 as (_ & He3 & Hr2).
  assert (sorted_at s3 r2 (above x (x :: l)) ∧ tidy (length (heap s2)) s3 r2 ∧
          oracle s3 = drop (4 * distinct (above x (x :: l))) (oracle s2) ∧
          granted_upto (4 * distinct (above x (x :: l))) (oracle s2) ∧
          length (heap s3) = (length (heap s2) + 4 * distinct (above x (x :: l)))%nat)
    as (Hsm & Htidy2 & Ho3 & Hgr2 & Hsz3).
  { destruct Hcase2 as [(Hnil & -> & ->)|[(Hne & -> & _)|(_ & _ & ? & ? & ? & ? & ?)]];
      [| |done].
    - rewrite Hnil, distinct_nil. split; [apply sorted_at_nil|].
      split; [intros b Hb; lia|]. split; [done|]. split; [intros i Hi; lia|lia].
    - exfalso. apply Hne. apply nil_length_inv. by apply Hnull2. }
  (* merging *)
  pose proof He2 as [Hlen2 Hkeep2]. pose proof He3 as [Hlen3 Hkeep3].
  assert (∀ b v, (b < length (heap s1))%nat → heap s1 !! b = Some v → heap s3 !! b = Some v)
    as Hkeep.
  { intros b v Hb Hv. rewrite Hkeep3 by lia. by rewrite Hkeep2. }
  set (ps := mkParts (Ptr n 0) (length (below x (x :: l))) (Ptr (S (S n)) 0)
               (length (same x (x :: l))) (Ptr (S n) 0) (length (above x (x :: l)))) in *.
  destruct (children_ready x l s r1 s2 r2 s3 He2 He3 Hr1 Hr2) as [Hsplit Hnd].
  destruct (merge_and_release_done s3 (length (x :: l)) ps r1 r2 (x :: l))
    as (out & Hdone & Hout & Hp & Hs & Hbs);
    [done|done|exact Hsplit|by eapply sorted_at_extends|done|exact Hnd|].
  - assert (r = Ptr (length (heap s3)) 0 ∧
            s' = mkState (release_all (pblocks ps ++ blk r1 ++ blk r2)
                            (heap s3 ++ [Some (Some <$> out)]))
                         (tail (oracle s3)) (thread_count s3)) as [-> ->].
    { change (parts_of x (x :: l) s) with ps in Hfin. split; congruence. }
    assert (oracle s1 = drop 3 (oracle s)) as Ho1 by apply drop_3_tail.
    assert (4 * distinct (x :: l)
            = 3 + 4 * distinct (below x (x :: l)) + 4 * distinct (above x (x :: l)) + 1)%nat
      as Hfour by (rewrite distinct_cons; lia).
    assert (oracle s2 = drop (3 + 4 * distinct (below x (x :: l))) (oracle s)) as Ho2'
      by (by rewrite Ho2, Ho1, drop_drop).
    assert (oracle s3 = drop (3 + 4 * distinct (below x (x :: l))
                              + 4 * distinct (above x (x :: l))) (oracle s)) as Ho3'
      by (by rewrite Ho3, Ho2', drop_drop).
    split; [done|]. split; [done|]. split; [by apply merged_sorted_at|].
    split; [|split; [|split]].
    2:{ cbn [oracle]. rewrite drop_1_tail, Ho3', drop_drop. by rewrite Hfour. }
    2:{ rewrite Hfour. apply granted_upto_add; [|].
        - apply granted_upto_add; [|by rewrite <-Ho2'].
          apply granted_upto_add; [by apply three_granted_upto|by rewrite <-Ho1].
        - intros [|i] Hi; [|lia]. by rewrite drop_0, <-Ho3'. }
    2:{ cbn [heap]. rewrite release_all_length, length_app. cbn [length]. lia. }
    intros b Hb Hnot. cbn [heap] in *.
    rewrite release_all_length, length_app in Hb. cbn [length] in Hb.
    assert (b < length (heap s3))%nat as Hb3.
    { destruct (decide (b = length (heap s3))) as [->|?]; [|lia].
      exfalso. apply Hnot. simpl. by left. }
    destruct (decide (b ∈ pblocks ps ++ blk r1 ++ blk r2)) as [Hin|Hnin].
    { apply release_all_freed; [done|]. rewrite length_app. lia. }
    rewrite release_all_other by done. rewrite lookup_app_l by done.
    unfold pblocks, ps in Hnin. cbn [less more equal blk app] in Hnin.
    rewrite !not_elem_of_cons, not_elem_of_app in Hnin.
    destruct Hnin as (? & ? & ? & Hn1 & Hn2).
    destruct (decide (b < length (heap s2))%nat) as [Hlt2|Hge2].
    + rewrite Hkeep3 by done. apply Htidy1; [lia|done].
    + apply Htidy2; [lia|done].
Qed.

Lemma distinct_pos l : l ≠ [] → (0 < distinct l)%nat.
Proof. destruct l as [|x l]; [done|]. rewrite distinct_cons. lia. Qed.

Lemma granted_upto_three k o : (3 ≤ k)%nat → granted_upto k o → three_granted o.
Proof.
  intros Hk H. split; [|split].
  - specialize (H 0%nat ltac:(lia)). by rewrite drop_0 in H.
  - specialize (H 1%nat ltac:(lia)). by rewrite <-drop_1_tail in H.
  - specialize (H 2%nat ltac:(lia)). by destruct o as [|? [|? ?]].
Qed.

Lemma granted_upto_drop k1 k2 o : granted_upto (k1 + k2) o → granted_upto k2 (drop k1 o).
Proof. intros H i Hi. rewrite drop_drop. apply H. lia. Qed.

Lemma granted_upto_le k k' o : (k' ≤ k)%nat → granted_upto k o → granted_upto k' o.
Proof. intros ? H i Hi. apply H. lia. Qed.

Lemma granting_upto s k : granting s → granted_upto k (oracle s).
Proof.
  intros Hg i _. unfold next_answer.
  destruct (drop i (oracle s)) as [|a o] eqn:Hd; [done|]. simpl.
  unfold granting in Hg. rewrite Forall_forall in Hg. apply Hg.
  apply (list_elem_of_lookup_2 _ i). rewrite <-(Nat.add_0_r i), <-lookup_drop. by rewrite Hd.
Qed.

(** A call that returns after its requests were granted. *)
Lemma quicksort_Done_granted fuel l d s r s' :
  reads s d l → quicksort fuel (length l) d s = Done r s' →
  granted_upto (4 * distinct l) (oracle s) →
  sorted_at s' r l ∧ tidy (length (heap s)) s' r ∧
  oracle s' = drop (4 * distinct l) (oracle s).
Proof.
  intros Hr Hrun Hg.
  destruct (quicksort_Done fuel l d s r s' Hr Hrun)
    as [(-> & -> & ->)|[(Hne & _ & Hno)|(_ & _ & ? & ? & ? & _)]]; [| |done].
  - split; [apply sorted_at_nil|]. split; [intros b Hb; lia|done].
  - exfalso. apply Hno. apply (granted_upto_three (4 * distinct l)); [|done].
    pose proof (distinct_pos l Hne). lia.
Qed.

(** [quicksort] returns when the requests it makes are granted, four for
    each distinct value, whatever the allocator would answer after them. *)
Lemma quicksort_granted fuel :
  ∀ l d s, (length l < fuel)%nat → reads s d l →
  granted_upto (4 * distinct l) (oracle s) →
  ∃ r s', quicksort fuel (length l) d s = Done r s'.
Proof.
  induction fuel as [|fuel IH]; intros l d s Hfuel Hr Hg; [lia|].
  rewrite quicksort_unfold. destruct l as [|x l].
  { by exists NULL, s. }
  rewrite bool_decide_eq_false_2 by done.
  unfold mbind at 1, M_bind at 1, bind at 1. rewrite (Hr 0%nat x eq_refl).
  unfold mbind at 1, M_bind at 1, bind at 1.
  assert (4 * distinct (x :: l)
          = 3 + (4 * distinct (below x (x :: l)) + (4 * distinct (above x (x :: l)) + 1)))%nat
    as Hfour by (rewrite distinct_cons; lia).
  rewrite Hfour in Hg.
  assert (three_granted (oracle s)) as (H1 & H2 & H3)
    by (eapply granted_upto_three; [|exact Hg]; lia).
  rewrite (partition_granted s d (x :: l) x H1 H2 H3 Hr).
  apply granted_upto_drop in Hg.
  set (s1 := partitioned x (x :: l) s) in *.
  set (n := length (heap s)).
  assert (oracle s1 = drop 3 (oracle s)) as Ho1 by apply drop_3_tail.
  rewrite <-Ho1 in Hg.
  assert (heap s1 !! n = Some (buffer (length (x :: l)) (below x (x :: l)))) as Hbl
    by apply tail3_lookup_0.
  assert (heap s1 !! S n = Some (buffer (length (x :: l)) (above x (x :: l)))) as Hbm
    by apply tail3_lookup_1.
  pose proof (three_way_sizes x l) as Hsizes.
  cbn [parts_of less less_size more more_size equal equal_size]. fold n.
  (* the less group *)
  assert (reads s1 (Ptr n 0) (below x (x :: l))) as Hreads1 by (by eapply reads_block).
  destruct (IH (below x (x :: l)) (Ptr n 0) s1) as (r1 & s2 & Hrun1);
    [simpl in *; lia|done|by eapply granted_upto_le; [|exact Hg]; lia|].
  unfold mbind at 1, M_bind at 1, bind at 1. rewrite Hrun1.
  destruct (quicksort_Done_granted _ _ _ _ _ _ Hreads1 Hrun1) as (Hsl & _ & Ho2).
  { eapply granted_upto_le; [|exact Hg]. lia. }
  apply quicksort_frame in Hrun1 as (_ & He2 & Hr1).
  apply granted_upto_drop in Hg. rewrite <-Ho2 in Hg.
  (* the more group *)
  assert (reads s2 (Ptr (S n) 0) (above x (x :: l))) as Hreads2.
  { eapply reads_extends; [|done]. by eapply reads_block. }
  destruct (IH (above x (x :: l)) (Ptr (S n) 0) s2) as (r2 & s3 & Hrun2);
    [simpl in *; lia|done|by eapply granted_upto_le; [|exact Hg]; lia|].
  unfold mbind at 1, M_bind at 1, bind at 1. rewrite Hrun2.
  destruct (quicksort_Done_granted _ _ _ _ _ _ Hreads2 Hrun2) as (Hsm & _ & Ho3).
  { eapply granted_upto_le; [|exact Hg]. lia. }
  apply quicksort_frame in Hrun2 as (_ & He3 & Hr2).
  apply granted_upto_drop in Hg. rewrite <-Ho3 in Hg.
  (* merging *)
  destruct (children_ready x l s r1 s2 r2 s3 He2 He3 Hr1 Hr2) as [Hsplit Hnd].
  destruct (merge_and_release_done s3 (length (x :: l)) (parts_of x (x :: l) s) r1 r2 (x :: l))
    as (out & Hdone & _);
    [|done|exact Hsplit|by eapply sorted_at_extends|done|exact Hnd|].
  { specialize (Hg 0%nat ltac:(lia)). by rewrite drop_0 in Hg. }
  eexists _, _. exact Hdone.
Qed.

(** X1. Whatever the allocator answers, a call of [quicksort] that
    returns never returns a wrong array: it returns the null pointer
    exactly when the array is empty or one of the three buffers of its own
    [partition] was refused, and any other result reads back as a
    permutation of the input in non-descending order. *)
Theorem quicksort_result fuel s data l r s' :
  read_array s data (length l) = Some l →
  quicksort fuel (length l) data s = Done r s' →
  (r = NULL ↔ l = [] ∨ ¬ three_granted (oracle s)) ∧
  (r ≠ NULL →
   ∃ out, read_array s' r (length l) = Some out ∧ out ≡ₚ l ∧ non_descending out).
Proof.
  intros Hr%read_array_reads Hrun.
  destruct (quicksort_Done fuel l data s r s' Hr Hrun)
    as [(-> & -> & ->)|[(Hne & -> & Hno)|(Hne & Hyes & Hs & _)]].
  - split; [naive_solver|done].
  - split; [naive_solver|done].
  - pose proof (sorted_at_nonnull _ _ _ Hs Hne) as Hnn. split; [naive_solver|].
    intros _. destruct (sorted_at_read _ _ _ Hs) as (out & Hread & Hp & Hsort).
    exists out. split; [done|]. split; [done|]. by apply StronglySorted_non_descending.
Qed.

Lemma quicksort_result_witness :
  (NULL = NULL ↔ example_input = [] ∨ ¬ three_granted [true; false]) ∧
  (NULL ≠ NULL →
   ∃ out, read_array (mkState [Some (Some <$> example_input); Some (replicate 5 None);
                      Some (replicate 5 None)] [] 0)
            NULL (length example_input) = Some out ∧
          out ≡ₚ example_input ∧ non_descending out).
Proof.
  apply (quicksort_result 6 (init_state example_input [true; false]) (Ptr 0 0) example_input
           NULL (mkState [Some (Some <$> example_input); Some (replicate 5 None);
                      Some (replicate 5 None)] [] 0)).
  - reflexivity.
  - vm_compute. reflexivity.
Defined.

(** X2. [quicksort] leaves no block behind when it does not fail: on an
    empty array, or when the three buffers of its own [partition] were
    granted, a call that returns has released every block that was
    allocated during the call, the returned array apart, which is a
    live block. *)
Theorem quicksort_releases fuel s data l r s' :
  read_array s data (length l) = Some l →
  quicksort fuel (length l) data s = Done r s' →
  l = [] ∨ three_granted (oracle s) →
  (∀ b, (length (heap s) ≤ b < length (heap s'))%nat → r ≠ Ptr b 0 → block_at s' b = None) ∧
  (r = NULL ∨ ∃ b c, r = Ptr b 0 ∧ (length (heap s) ≤ b)%nat ∧ block_at s' b = Some c).
Proof.
  intros Hr%read_array_reads Hrun Hok.
  pose proof (quicksort_frame _ _ _ _ _ _ Hrun) as (_ & _ & Hres).
  destruct (quicksort_Done fuel l data s r s' Hr Hrun)
    as [(-> & -> & ->)|[(Hne & -> & Hno)|(Hne & Hyes & Hs & Htidy & _)]].
  - split; [intros b Hb; lia|by left].
  - naive_solver.
  - split.
    + intros b Hb Hnot. unfold block_at. rewrite Htidy; [done|done|].
      destruct Hres as [->|(b' & -> & _)]; [apply not_elem_of_nil|].
      simpl. rewrite list_elem_of_singleton. congruence.
    + right. destruct Hs as (out & Hout & Hp & _).
      destruct out as [|y out]; [by apply Permutation_nil in Hp|].
      destruct Hout as (b & -> & Hb). exists b, (Some <$> y :: out).
      split; [done|]. split; [|by apply block_at_Some].
      destruct Hres as [?|(b' & [= <-] & ?)]; [done|lia].
Qed.

Lemma quicksort_releases_witness :
  ∃ r s',
    quicksort 6 (length example_input) (Ptr 0 0) (init_state example_input []) = Done r s' ∧
    (∀ b, (length (heap (init_state example_input [])) ≤ b < length (heap s'))%nat →
          r ≠ Ptr b 0 → block_at s' b = None) ∧
    (r = NULL ∨ ∃ b c, r = Ptr b 0 ∧ (length (heap (init_state example_input [])) ≤ b)%nat ∧
                       block_at s' b = Some c).
Proof.
  eexists _, _. split; [vm_compute; reflexivity|].
  eapply (quicksort_releases 6 (init_state example_input []) (Ptr 0 0) example_input).
  - reflexivity.
  - vm_compute. reflexivity.
  - right. by repeat split.
Defined.

(** X3. [quicksort] makes four allocation requests for each distinct
    value of its input and no other: on a non-empty array it returns an
    array exactly when these requests are granted, whatever the allocator
    would answer afterwards, and it then leaves the allocator after the
    last of them, with one block more than before in memory. *)
Theorem quicksort_requests fuel s data l :
  (length l < fuel)%nat → read_array s data (length l) = Some l → l ≠ [] →
  ((∃ b s', quicksort fuel (length l) data s = Done (Ptr b 0) s')
   ↔ granted_upto (4 * distinct l) (oracle s)) ∧
  ∀ b s', quicksort fuel (length l) data s = Done (Ptr b 0) s' →
    oracle s' = drop (4 * distinct l) (oracle s) ∧
    length (heap s') = (length (heap s) + 4 * distinct l)%nat.
Proof.
  intros Hfuel Hr%read_array_reads Hne. split; [split|].
  - intros (b & s' & Hrun).
    destruct (quicksort_Done fuel l data s _ s' Hr Hrun)
      as [(? & _)|[(_ & ? & _)|(_ & _ & _ & _ & _ & ? & _)]]; done.
  - intros Hg. destruct (quicksort_granted fuel l data s Hfuel Hr Hg) as (r & s' & Hrun).
    destruct (quicksort_Done_granted _ _ _ _ _ _ Hr Hrun Hg) as ((out & Hout & Hp & _) & _).
    destruct out as [|y out]; [by apply Permutation_nil in Hp|].
    destruct Hout as (b & -> & _). by exists b, s'.
  - intros b s' Hrun.
    destruct (quicksort_Done fuel l data s _ s' Hr Hrun)
      as [(? & _)|[(_ & ? & _)|(_ & _ & _ & _ & ? & _ & ?)]]; done.
Qed.

Lemma quicksort_requests_witness :
  (length repeated_input < 5)%nat ∧ repeated_input ≠ [] ∧
  ((∃ b s', quicksort 5 (length repeated_input) (Ptr 0 0)
              (init_state repeated_input twelve_granted) = Done (Ptr b 0) s')
   ↔ granted_upto (4 * distinct repeated_input)
       (oracle (init_state repeated_input twelve_granted))) ∧
  ∀ b s', quicksort 5 (length repeated_input) (Ptr 0 0)
            (init_state repeated_input twelve_granted) = Done (Ptr b 0) s' →
    oracle s' = drop (4 * distinct repeated_input)
                  (oracle (init_state repeated_input twelve_granted)) ∧
    length (heap s')
    = (length (heap (init_state repeated_input twelve_granted))
       + 4 * distinct repeated_input)%nat.
Proof.
  split; [simpl; lia|]. split; [done|].
  apply (quicksort_requests 5 (init_state repeated_input twelve_granted)
           (Ptr 0 0) repeated_input).
  - simpl. lia.
  - reflexivity.
  - done.
Defined.

(** X4. A refusal below the top level is not reported: when the three
    buffers of the first [partition] are granted and one of the later
    requests of the sort is refused, [quicksort] does not return the null
    pointer, it runs into undefined behaviour (a copy from or into a null
    array in [merge]). *)
Theorem quicksort_refusal_faults fuel s data l :
  (length l < fuel)%nat → read_array s data (length l) = Some l →
  three_granted (oracle s) → ¬ granted_upto (4 * distinct l) (oracle s) →
  quicksort fuel (length l) data s = Fault.
Proof.
  intros Hfuel Hr%read_array_reads Hyes Hno.
  destruct (quicksort fuel (length l) data s) as [r s'| |] eqn:Hrun; [|done|].
  - exfalso.
    destruct (quicksort_Done fuel l data s r s' Hr Hrun)
      as [(-> & _)|[(_ & _ & ?)|(_ & _ & _ & _ & _ & ? & _)]]; [|done..].
    apply Hno. intros i Hi. rewrite distinct_nil in Hi. lia.
  - by apply quicksort_no_timeout in Hrun.
Qed.

Lemma quicksort_refusal_faults_witness :
  quicksort 6 (length example_input) (Ptr 0 0)
    (init_state example_input [true; true; true; false]) = Fault.
Proof.
  apply (quicksort_refusal_faults 6 (init_state example_input [true; true; true; false])
           (Ptr 0 0) example_input).
  - simpl. lia.
  - reflexivity.
  - by repeat split.
  - intros H. assert (next_answer (drop 3 [true; true; true; false]) = true) as Hbad.
    { apply H. vm_compute. lia. }
    discriminate Hbad.
Defined.

(** ** [partition] whatever the allocator answers *)

(** The requests that were granted among the three of [partition]. *)
Lemma partition_outcome s arr l pivot :
  reads s arr l →
  ∃ r s', partition arr (length l) pivot s = Done r s' ∧
    oracle s' = drop 3 (oracle s) ∧ thread_count s' = thread_count s ∧
    (three_granted (oracle s) → r = Some (parts_of pivot l s) ∧ s' = partitioned pivot l s) ∧
    (¬ three_granted (oracle s) → r = None ∧
       heap s' = heap s ++ replicate (granted_of 3 (oracle s)) (Some (replicate (length l) None))).
Proof.
  intros Hr. destruct (decide (three_granted (oracle s))) as [Hyes|Hno].
  - pose proof Hyes as (H1 & H2 & H3).
    eexists _, _. split; [by apply partition_granted|].
    split; [apply drop_3_tail|]. split; [done|]. split; [done|done].
  - destruct (partition_refused s arr (length l) pivot Hno) as (s' & Hrun & Ho & Htc & Hh).
    exists None, s'. split; [done|]. split; [by rewrite Ho, drop_3_tail|].
    split; [done|]. split; [done|]. intros _. split; [done|].
    rewrite Hh. f_equal. unfold granted_of, next_answer.
    by destruct (oracle s) as [|[] [|[] [|[] ?]]].
Qed.

(** X5. [partition] reports a refusal and nothing else: on an array that
    is in memory it always returns, having made its three requests
    whatever they were answered; it returns 0 exactly when all three were
    granted, and -1 otherwise; when it returns -1 the buffers that were
    granted are still allocated, as they came from the allocator. *)
Theorem partition_reports s arr l pivot :
  read_array s arr (length l) = Some l →
  ∃ r s', partition arr (length l) pivot s = Done r s' ∧
    oracle s' = drop 3 (oracle s) ∧
    (partition_rc r = 0 ↔ three_granted (oracle s)) ∧
    (partition_rc r = -1 ↔ ¬ three_granted (oracle s)) ∧
    (partition_rc r = 0 → length (heap s') = (length (heap s) + 3)%nat) ∧
    (partition_rc r = -1 →
     heap s' = heap s ++ replicate (granted_of 3 (oracle s))
                           (Some (replicate (length l) None))).
Proof.
  intros Hr%read_array_reads.
  destruct (partition_outcome s arr l pivot Hr) as (r & s' & Hrun & Ho & _ & Hyes & Hno).
  exists r, s'. split; [done|]. split; [done|].
  destruct (decide (three_granted (oracle s))) as [Hg|Hg].
  - destruct (Hyes Hg) as [-> ->]. simpl.
    split; [done|]. split; [split; [done|by intros []]|]. split; [|done].
    intros _. rewrite length_app. simpl. lia.
  - destruct (Hno Hg) as [-> Hh]. simpl. split; [split; [done|by intros ?]|].
    split; [done|]. split; [done|]. by intros _.
Qed.

Lemma partition_reports_witness :
  ∃ r s', partition (Ptr 0 0) (length example_input) 5
            (init_state example_input [true; false; true; false]) = Done r s' ∧
    oracle s' = drop 3 (oracle (init_state example_input [true; false; true; false])) ∧
    (partition_rc r = 0
     ↔ three_granted (oracle (init_state example_input [true; false; true; false]))) ∧
    (partition_rc r = -1
     ↔ ¬ three_granted (oracle (init_state example_input [true; false; true; false]))) ∧
    (partition_rc r = 0 →
     length (heap s')
     = (length (heap (init_state example_input [true; false; true; false])) + 3)%nat) ∧
    (partition_rc r = -1 →
     heap s' = heap (init_state example_input [true; false; true; false])
               ++ replicate (granted_of 3 (oracle (init_state example_input
                                                     [true; false; true; false])))
                    (Some (replicate (length example_input) None))).
Proof.
  apply (partition_reports (init_state example_input [true; false; true; false]) (Ptr 0 0)
           example_input 5).
  reflexivity.
Defined.

Lemma buffer_length n (g : list Z) :
  (length g ≤ n)%nat → ∃ c, buffer n g = Some c ∧ length c = n.
Proof.
  intros Hg. eexists. split; [done|].
  rewrite length_app, length_fmap, length_replicate. lia.
Qed.

(** X6. [partition] is stable and asks for three full-size buffers: when
    it succeeds, each group holds its elements in the order they have in
    the input (the group is the input filtered by its comparison with the
    pivot), and the three buffers are three different blocks allocated by
    the call, each with room for the whole input. *)
Theorem partition_stable s arr l pivot ps s' :
  read_array s arr (length l) = Some l →
  partition arr (length l) pivot s = Done (Some ps) s' →
  read_array s' (less ps) (less_size ps) = Some (filter (λ x, x < pivot) l) ∧
  read_array s' (equal ps) (equal_size ps) = Some (filter (λ x, x = pivot) l) ∧
  read_array s' (more ps) (more_size ps) = Some (filter (λ x, pivot < x) l) ∧
  ∃ bl be bm,
    less ps = Ptr bl 0 ∧ equal ps = Ptr be 0 ∧ more ps = Ptr bm 0 ∧
    NoDup [bl; be; bm] ∧
    ∀ b, b ∈ [bl; be; bm] →
         (length (heap s) ≤ b)%nat ∧ ∃ c, block_at s' b = Some c ∧ length c = length l.
Proof.
  intros Hr%read_array_reads Hrun.
  destruct (partition_success s arr l pivot ps s' Hr Hrun) as (HL & HE & HG & _).
  split; [done|]. split; [done|]. split; [done|].
  destruct (partition_outcome s arr l pivot Hr) as (r & s1 & Hrun1 & _ & _ & Hyes & Hno).
  rewrite Hrun in Hrun1. injection Hrun1 as <- <-.
  destruct (decide (three_granted (oracle s))) as [Hg|Hg]; [|by destruct (Hno Hg)].
  destruct (Hyes Hg) as [[= ->] ->].
  exists (length (heap s)), (S (S (length (heap s)))), (S (length (heap s))).
  split; [done|]. split; [done|]. split; [done|]. split.
  { repeat constructor; rewrite ?elem_of_cons, ?elem_of_nil; lia. }
  intros b Hb. rewrite !elem_of_cons, elem_of_nil in Hb.
  unfold block_at, partitioned. cbn [heap].
  destruct Hb as [->|[->|[->|[]]]].
  - split; [lia|]. rewrite tail3_lookup_0. apply buffer_length, length_filter.
  - split; [lia|]. rewrite tail3_lookup_2. apply buffer_length, length_filter.
  - split; [lia|]. rewrite tail3_lookup_1. apply buffer_length, length_filter.
Qed.

Lemma partition_stable_witness :
  ∃ ps s',
    partition (Ptr 0 0) (length [3; 9; 1; 3; 7; 2]) 3 (init_state [3; 9; 1; 3; 7; 2] [])
      = Done (Some ps) s' ∧
    read_array s' (less ps) (less_size ps) = Some [1; 2] ∧
    read_array s' (equal ps) (equal_size ps) = Some [3; 3] ∧
    read_array s' (more ps) (more_size ps) = Some [9; 7].
Proof.
  eexists _, _. split; [vm_compute; reflexivity|].
  destruct (partition_stable (init_state [3; 9; 1; 3; 7; 2] []) (Ptr 0 0) [3; 9; 1; 3; 7; 2] 3
              _ _ eq_refl eq_refl) as (HL & HE & HG & _).
  split; [exact HL|]. split; [exact HE|exact HG].
Defined.

(** ** The number of threads *)

Lemma invocations_distinct l : invocations l = (2 * distinct l + 1)%nat.
Proof.
  remember (length l) as n eqn:Hn. revert l Hn.
  induction n as [n IH] using lt_wf_ind. intros [|x l] Hn; [done|].
  rewrite invocations_cons, distinct_cons.
  pose proof (three_way_sizes x l) as Hsz.
  rewrite (IH (length (below x (x :: l)))) by (done || lia).
  rewrite (IH (length (above x (x :: l)))) by (done || lia).
  lia.
Qed.

(** X7. The threaded sorter runs one invocation of [quicksort_threaded]
    for the array and two for every distinct value in it: when the
    allocator grants its requests, under every schedule the counter has
    advanced by [2 * d + 1] when the first thread has ended, [d] the number
    of distinct values of the input; from zero, and for an array whose
    size leaves the counter in range, it is then exactly [2 * d + 1], at
    most [2 * size + 1]. *)
Theorem threaded_count_distinct s data l sched r s' :
  granting s → read_array s data (length l) = Some l →
  - 2 ^ 31 ≤ thread_count s < 2 ^ 31 →
  run sched (Start (mkArgs data (length l))) s = Stepped (Exited r) s' →
  thread_count s' = wrap_int (thread_count s + (2 * Z.of_nat (distinct l) + 1)) ∧
  (thread_count s = 0 → 2 * Z.of_nat (length l) + 1 < 2 ^ 31 →
   thread_count s' = 2 * Z.of_nat (distinct l) + 1 ∧
   thread_count s' ≤ 2 * Z.of_nat (length l) + 1).
Proof.
  intros Hg Hr%read_array_reads Hint Hrun.
  pose proof (threaded_count s data l sched r s' Hg Hr Hint Hrun) as Hcount.
  rewrite invocations_distinct in Hcount.
  replace (Z.of_nat (2 * distinct l + 1)) with (2 * Z.of_nat (distinct l) + 1) in Hcount by lia.
  split; [done|]. intros Hzero Hsmall.
  pose proof (distinct_le_length l) as Hle.
  rewrite Hcount, Hzero, wrap_int_small by lia. lia.
Qed.

Lemma threaded_count_distinct_witness :
  ∃ r s',
    run (replicate 40 Self ++ replicate 40 (LessThread Self) ++ replicate 40 (MoreThread Self)
         ++ replicate 40 Self)
        (Start (mkArgs (Ptr 0 0) (length [4; 4; 4; 4]))) (init_state [4; 4; 4; 4] [])
      = Stepped (Exited r) s' ∧
    thread_count s' = 3.
Proof.
  eexists _, _. split; [vm_compute; reflexivity|].
  edestruct (threaded_count_distinct (init_state [4; 4; 4; 4] []) (Ptr 0 0) [4; 4; 4; 4]
               (replicate 40 Self ++ replicate 40 (LessThread Self)
                ++ replicate 40 (MoreThread Self) ++ replicate 40 Self))
    as [_ Hcount].
  - constructor.
  - reflexivity.
  - simpl. lia.
  - vm_compute. reflexivity.
  - destruct Hcount as [Hcount _]; [reflexivity|simpl; lia|]. exact Hcount.
Defined.

(** ** The threads release what they allocate *)

(** Under an allocator that grants every request, a block that a step
    allocates, or that the tree was responsible for, is released by the
    end of the step unless the tree is responsible for it afterwards. *)
Lemma step_released t :
  ∀ π s d l t' s',
  granting s → NoDup (owned t) → sorting t s d l →
  step π t s = Stepped t' s' →
  ∀ b, (b < length (heap s'))%nat → b ∉ owned t' →
       b ∈ owned t ∨ (length (heap s) ≤ b)%nat → heap s' !! b = Some None.
Proof.
  induction t as [a|a|n p|n p c1 IH1|n p c1 IH1 c2 IH2|n p sl c2 IH2|n p sl sm|r];
    intros [|π|π] s d l t' s' Hg Hnd Hs Hstep b Hb Hnot Hwas; simpl in Hstep; try done.
  - (* Start *) injection Hstep as <- <-. simpl in *. set_solver by lia.
  - (* Entered *)
    destruct Hs as [-> Hr]. unfold split_thread in Hstep. cbn [size data] in Hstep.
    destruct l as [|x l0].
    { rewrite bool_decide_eq_true_2 in Hstep by done. injection Hstep as <- <-.
      simpl in *. set_solver by lia. }
    rewrite bool_decide_eq_false_2 in Hstep by done.
    unfold mbind at 1, M_bind at 1, bind at 1 in Hstep. rewrite (Hr 0%nat x eq_refl) in Hstep.
    unfold mbind at 1, M_bind at 1, bind at 1 in Hstep.
    pose proof (granted_upto_three 3 _ (le_n _) (granting_upto s 3 Hg)) as (H1 & H2 & H3).
    rewrite (partition_granted s d (x :: l0) x H1 H2 H3 Hr) in Hstep.
    injection Hstep as <- <-. exfalso.
    unfold partitioned in Hb. cbn [heap] in Hb. rewrite length_app in Hb. cbn [length] in Hb.
    cbn [owned] in Hnot, Hwas. unfold pblocks, parts_of in Hnot.
    cbn [less more equal blk app] in Hnot.
    rewrite !not_elem_of_cons in Hnot. destruct Hwas as [Hin|?]; [by apply elem_of_nil in Hin|].
    lia.
  - (* Partitioned *) injection Hstep as <- <-. simpl in *. set_solver by lia.
  - (* Spawned1, itself *) injection Hstep as <- <-. simpl in *. set_solver by lia.
  - (* Spawned1, below *)
    destruct (step π c1 s) as [c1' s1| |] eqn:Hc; [|done..].
    injection Hstep as <- <-. destruct Hs as (Hne & Hsplit & Hc1). cbn [owned] in *.
    pose proof Hnd as (_ & _ & Hnd1)%NoDup_app.
    apply (IH1 π s _ _ c1' s1 Hg Hnd1 Hc1 Hc); [done|set_solver|set_solver].
  - (* Spawned2, itself *)
    destruct c1; try done. injection Hstep as <- <-. simpl in *. set_solver by lia.
  - (* Spawned2, below the first child *)
    destruct (step π c1 s) as [c1' s1| |] eqn:Hc; [|done..].
    injection Hstep as <- <-. destruct Hs as (Hne & Hsplit & Hc1 & Hc2). cbn [owned] in *.
    pose proof Hnd as (_ & _ & (Hnd1 & _)%NoDup_app)%NoDup_app.
    apply (IH1 π s _ _ c1' s1 Hg Hnd1 Hc1 Hc); [done|set_solver|set_solver].
  - (* Spawned2, below the second child *)
    destruct (step π c2 s) as [c2' s1| |] eqn:Hc; [|done..].
    injection Hstep as <- <-. destruct Hs as (Hne & Hsplit & Hc1 & Hc2). cbn [owned] in *.
    pose proof Hnd as (_ & _ & (_ & _ & Hnd2)%NoDup_app)%NoDup_app.
    apply (IH2 π s _ _ c2' s1 Hg Hnd2 Hc2 Hc); [done|set_solver|set_solver].
  - (* Joined1, itself *)
    destruct c2; try done. injection Hstep as <- <-. simpl in *. set_solver by lia.
  - (* Joined1, below the second child *)
    destruct (step π c2 s) as [c2' s1| |] eqn:Hc; [|done..].
    injection Hstep as <- <-. destruct Hs as (Hne & Hsplit & Hsl & Hc2). cbn [owned] in *.
    pose proof Hnd as (_ & _ & (_ & _ & Hnd2)%NoDup_app)%NoDup_app.
    apply (IH2 π s _ _ c2' s1 Hg Hnd2 Hc2 Hc); [done|set_solver|set_solver].
  - (* Joined2 *)
    destruct Hs as (Hne & Hsplit & Hsl & Hsm). cbn [owned] in Hnd, Hwas.
    destruct (merge_and_release_done s n p sl sm l)
      as (out & Hdone & _ & _ & _ & Hbs); [by apply granting_answer|done..|].
    rewrite merge_thread_eq, Hdone in Hstep. injection Hstep as <- <-.
    cbn [heap owned blk] in *.
    rewrite release_all_length, length_app in Hb. cbn [length] in Hb.
    apply not_elem_of_cons in Hnot as [Hnot _].
    destruct Hwas as [Hin|?]; [|lia].
    apply release_all_freed; [done|]. rewrite length_app. cbn [length]. lia.
Qed.

(** Under every schedule the blocks the threads have allocated and are
    not responsible for any more are released. *)
Lemma run_released sched :
  ∀ t s d l t' s' n,
  granting s → NoDup (owned t) → sorting t s d l →
  run sched t s = Stepped t' s' →
  (∀ b, (n ≤ b < length (heap s))%nat → b ∉ owned t → heap s !! b = Some None) →
  ∀ b, (n ≤ b < length (heap s'))%nat → b ∉ owned t' → heap s' !! b = Some None.
Proof.
  induction sched as [|π sched IH]; intros t s d l t' s' n Hg Hnd Hs Hrun Htidy; simpl in Hrun.
  { by injection Hrun as <- <-. }
  pose proof (step_sound t π s d l Hg Hnd Hs) as Hsound.
  destruct (step π t s) as [t1 s1| |] eqn:Hstep; [| |done].
  - destruct Hsound as (Hg1 & Hnd1 & Hs1 & _).
    apply (IH t1 s1 d l t' s' n Hg1 Hnd1 Hs1 Hrun).
    intros b Hb Hnot.
    destruct (decide (b ∈ owned t ∨ (length (heap s) ≤ b)%nat)) as [Hwas|Hnew].
    + apply (step_released t π s d l t1 s1); (done || lia).
    + apply step_touch in Hstep as (_ & Hkeep & _).
      rewrite Hkeep; [apply Htidy| |]; (lia || tauto).
  - by apply (IH t s d l t' s' n).
Qed.

(** X8. The threaded sorter leaves no block behind: when the allocator
    grants its requests, under every schedule, once the first thread has
    ended every block allocated during the sort has been released, the
    returned array apart; the returned array is the null pointer for an
    empty input and a live block allocated during the sort otherwise. *)
Theorem threads_release s data l sched r s' :
  granting s → read_array s data (length l) = Some l →
  run sched (Start (mkArgs data (length l))) s = Stepped (Exited r) s' →
  (∀ b, (length (heap s) ≤ b < length (heap s'))%nat → r ≠ Ptr b 0 → block_at s' b = None) ∧
  (l = [] → r = NULL) ∧
  (l ≠ [] → ∃ b c, r = Ptr b 0 ∧ (length (heap s) ≤ b)%nat ∧ block_at s' b = Some c).
Proof.
  intros Hg Hr%read_array_reads Hrun.
  pose proof (threaded_exit s data l sched r s' Hg Hr Hrun) as (out & Hout & Hp & _).
  pose proof (run_frame _ _ _ _ _ (length (heap s)) Hrun (le_n _)) as (_ & Hown & _).
  { intros b Hb. by apply elem_of_nil in Hb. }
  split; [|split].
  - intros b Hb Hnot. unfold block_at.
    rewrite (run_released sched (Start (mkArgs data (length l))) s data l _ s'
               (length (heap s)) Hg (NoDup_nil_2 : NoDup (owned (Start _)))
               (start_sorting s data l Hr) Hrun); [done| |done|].
    + intros b' Hb'. lia.
    + cbn [owned]. destruct out as [|y out]; [by rewrite Hout; apply not_elem_of_nil|].
      destruct Hout as (b' & -> & _). simpl. rewrite list_elem_of_singleton. congruence.
  - intros ->. apply Permutation_nil_r in Hp as ->. exact Hout.
  - intros Hne. destruct out as [|y out]; [by apply Permutation_nil in Hp|].
    destruct Hout as (b & -> & Hb). exists b, (Some <$> y :: out).
    split; [done|]. split; [|by apply block_at_Some].
    apply Hown. simpl. by left.
Qed.

Lemma threads_release_witness :
  ∃ r s',
    run (schedule head 60 (Start (mkArgs (Ptr 0 0) (length example_input)))
           (init_state example_input []))
        (Start (mkArgs (Ptr 0 0) (length example_input))) (init_state example_input [])
      = Stepped (Exited r) s' ∧
    (∀ b, (length (heap (init_state example_input [])) ≤ b < length (heap s'))%nat →
          r ≠ Ptr b 0 → block_at s' b = None) ∧
    (example_input = [] → r = NULL) ∧
    (example_input ≠ [] →
     ∃ b c, r = Ptr b 0 ∧ (length (heap (init_state example_input [])) ≤ b)%nat ∧
            block_at s' b = Some c).
Proof.
  eexists _, _. split; [vm_compute; reflexivity|].
  eapply (threads_release (init_state example_input []) (Ptr 0 0) example_input
            (schedule head 60 (Start (mkArgs (Ptr 0 0) (length example_input)))
               (init_state example_input []))).
  - constructor.
  - reflexivity.
  - vm_compute. reflexivity.
Defined.

(** ** Printing an array *)

Lemma shown_from_cons v l :
  shown_from (v :: l)
  = PrintInt v :: (if bool_decide (l ≠ []) then [Print ", "] else []) ++ shown_from l.
Proof. by destruct l. Qed.

Lemma print_loop_spec s p l :
  reads s p l →
  ∀ k i, (i + k = length l)%nat →
  print_loop p (length l) k i s = Done (shown_from (drop i l)) s.
Proof.
  intros Hr k. induction k as [|k IH]; intros i Hik.
  { simpl. by rewrite drop_ge by lia. }
  destruct (lookup_lt_is_Some_2 l i) as [v Hv]; [lia|].
  cbn [print_loop]. unfold mbind at 1, M_bind at 1, bind at 1. rewrite (Hr i v Hv).
  unfold mbind at 1, M_bind at 1, bind at 1. rewrite IH by lia.
  rewrite (drop_S l v i Hv), shown_from_cons. unfold mret, M_ret, ret. do 3 f_equal.
  destruct (decide (i < length l - 1)%nat) as [Hlt|Hge].
  - rewrite bool_decide_eq_true_2 by done. rewrite bool_decide_eq_true_2; [done|].
    intros Hnil%(f_equal length). rewrite length_drop in Hnil. simpl in Hnil. lia.
  - rewrite bool_decide_eq_false_2 by done. rewrite bool_decide_eq_false_2; [done|].
    intros Hne. apply Hne. apply nil_length_inv. rewrite length_drop. lia.
Qed.

Lemma print_list_spec title s p l :
  reads s p l → print_list title p (length l) s = Done (shown title l) s.
Proof.
  intros Hr. unfold print_list, mbind, M_bind, bind.
  by rewrite (print_loop_spec s p l Hr (length l) 0%nat eq_refl).
Qed.

(** Printing an array that is not there. *)
Lemma print_list_null title n s : print_list title NULL (S n) s = Fault.
Proof. reflexivity. Qed.

(** ** Reading the input *)

Lemma realloc_answer b cells n s :
  heap s !! b = Some (Some cells) →
  realloc (Ptr b 0) n s =
    if next_answer (oracle s)
    then Done (Ptr (length (heap s)) 0)
           (mkState (<[b := None]> (heap s)
                     ++ [Some (take n cells ++ replicate (n - length cells) None)])
                    (tail (oracle s)) (thread_count s))
    else Done NULL (mkState (heap s) (tail (oracle s)) (thread_count s)).
Proof.
  intros Hb%block_at_Some. unfold realloc, next_answer. rewrite Hb.
  by destruct (oracle s) as [|[] o].
Qed.

Lemma released_but_insert b c s :
  released_but [b] s → released_but [b] (set_heap (<[b := c]> (heap s)) s).
Proof.
  intros Hrel b' Hb' Hne. cbn [heap set_heap] in *. rewrite length_insert in Hb'.
  rewrite list_lookup_insert_ne by set_solver. by apply Hrel.
Qed.

Lemma granted_upto_S k o :
  granted_upto (S k) o ↔ next_answer o = true ∧ granted_upto k (tail o).
Proof.
  split.
  - intros H. split.
    + specialize (H 0%nat ltac:(lia)). by rewrite drop_0 in H.
    + intros i Hi. rewrite drop_1_tail, drop_drop. apply H. lia.
  - intros [H0 H] [|i] Hi; [by rewrite drop_0|].
    specialize (H i ltac:(lia)). by rewrite drop_1_tail, drop_drop in H.
Qed.

(** The reading loop on an array that holds [pre] in a block of
    [capacity] cells: it returns the whole input when its requests are
    granted, and it stops with [None] at the first refused request,
    leaving the array with what it has read in memory.  The blocks it
    gives up are released. *)
Lemma read_loop_outcome input :
  ∀ pre b capacity s,
  heap s !! b = Some (Some ((Some <$> pre) ++ replicate (capacity - length pre) None)) →
  (length pre < capacity)%nat →
  ∃ r s' b' pad done rest,
    read_loop input (Ptr b 0) (length pre) capacity s = Done r s' ∧
    thread_count s' = thread_count s ∧
    input = done ++ rest ∧
    heap s' !! b' = Some (Some ((Some <$> pre ++ done) ++ pad)) ∧
    (released_but [b] s → released_but [b'] s') ∧
    (granted_upto (doublings (length input) (length pre) capacity) (oracle s) →
     r = Some (Ptr b' 0, length (pre ++ input)) ∧ rest = [] ∧
     oracle s' = drop (doublings (length input) (length pre) capacity) (oracle s)) ∧
    (¬ granted_upto (doublings (length input) (length pre) capacity) (oracle s) →
     r = None).
Proof.
  induction input as [|v input IH]; intros pre b capacity s Hb Hlt.
  { exists (Some (Ptr b 0, length pre)), s, b, (replicate (capacity - length pre) None), [], [].
    rewrite !app_nil_r. split; [done|]. split; [done|]. split; [done|]. split; [done|].
    split; [done|]. split; [done|]. intros Hno. exfalso. apply Hno. intros i Hi. simpl in Hi. lia. }
  cbn [read_loop]. unfold mbind at 1, M_bind at 1, bind at 1.
  destruct (capacity - length pre)%nat as [|m] eqn:Hm; [lia|].
  rewrite (store_live b 0 _ (length pre) v s Hb)
    by (rewrite length_app, length_fmap, length_replicate; lia).
  cbn [replicate]. rewrite buffer_push.
  set (s1 := set_heap _ s).
  assert (b < length (heap s))%nat as Hblt by (by eapply lookup_lt_Some).
  assert (heap s1 !! b = Some (Some ((Some <$> pre ++ [v]) ++ replicate m None))) as Hb1.
  { unfold s1. cbn [heap set_heap]. by apply list_lookup_insert_eq. }
  assert (S (length pre) = length (pre ++ [v])) as Hsize
    by (rewrite length_app; simpl; lia).
  cbn [doublings length].
  destruct (decide (S (length pre) = capacity)) as [Hfull|Hroom].
  - rewrite !(bool_decide_eq_true_2 (S (length pre) = capacity)) by done.
    assert (m = 0%nat) as -> by lia. cbn [replicate] in Hb1. rewrite app_nil_r in Hb1.
    unfold mbind at 1, M_bind at 1, bind at 1.
    rewrite (realloc_answer b _ (capacity * 2) s1 Hb1).
    destruct (next_answer (oracle s1)) eqn:Hans.
    + rewrite bool_decide_eq_false_2 by done.
      set (s2 := mkState _ _ _).
      assert (length (heap s1) = length (heap s)) as Hlen1
        by (unfold s1; cbn [heap set_heap]; by rewrite length_insert).
      destruct (IH (pre ++ [v]) (length (heap s1)) (capacity * 2)%nat s2)
        as (r & s' & b' & pad & done & rest & Hrun & Htc & Hin & Hb' & Hrel & Hyes & Hno).
      { unfold s2. cbn [heap]. rewrite lookup_app_r by (rewrite length_insert; lia).
        rewrite length_insert, Nat.sub_diag. cbn [lookup list_lookup].
        rewrite take_ge by (rewrite length_fmap; lia). by rewrite length_fmap. }
      { lia. }
      rewrite <-Hsize in Hrun, Hyes, Hno.
      exists r, s', b', pad, (v :: done), rest. split; [exact Hrun|]. split; [done|].
      split; [by rewrite Hin|]. split; [by rewrite <-app_assoc in Hb'|].
      split; [|split].
      * intros Hrel0. apply Hrel. intros b0 Hb0 Hne. unfold s2 in *. cbn [heap] in *.
        rewrite length_app, length_insert in Hb0. cbn [length] in Hb0.
        rewrite not_elem_of_cons in Hne. destruct Hne as [Hne _].
        rewrite lookup_app_l by (rewrite length_insert; lia).
        destruct (decide (b0 = b)) as [->|Hbb].
        -- apply list_lookup_insert_eq. lia.
        -- rewrite list_lookup_insert_ne by done. unfold s1. cbn [heap set_heap].
           rewrite list_lookup_insert_ne by done. apply Hrel0; [lia|set_solver].
      * intros [_ Hg]%granted_upto_S. destruct (Hyes Hg) as (-> & -> & Ho).
        split; [by rewrite <-app_assoc|]. split; [done|]. rewrite Ho. unfold s2. cbn [oracle].
        unfold s1. cbn [oracle set_heap]. by rewrite drop_1_tail, drop_drop.
      * intros Hg. apply Hno. intros Hg'. apply Hg. apply granted_upto_S. by split.
    + rewrite bool_decide_eq_true_2 by done.
      eexists None, _, b, [], [v], input. split; [done|]. split; [done|].
      split; [done|]. split; [by rewrite app_nil_r|]. split; [|split].
      * intros Hrel0. by apply (released_but_insert b _ s).
      * intros [Hg _]%granted_upto_S. unfold s1 in Hans. cbn [oracle set_heap] in Hans.
        congruence.
      * done.
  - rewrite !(bool_decide_eq_false_2 (S (length pre) = capacity)) by done.
    destruct (IH (pre ++ [v]) b capacity s1)
      as (r & s' & b' & pad & done & rest & Hrun & Htc & Hin & Hb' & Hrel & Hyes & Hno).
    { rewrite Hb1. repeat f_equal. rewrite length_app. simpl. lia. }
    { rewrite length_app. simpl. lia. }
    rewrite <-Hsize in Hrun, Hyes, Hno.
    exists r, s', b', pad, (v :: done), rest. split; [exact Hrun|]. split; [done|].
    split; [by rewrite Hin|]. split; [by rewrite <-app_assoc in Hb'|].
    split; [|split].
    + intros Hrel0. apply Hrel. by apply (released_but_insert b _ s).
    + intros Hg. destruct (Hyes Hg) as (-> & -> & Ho).
      split; [by rewrite <-app_assoc|]. done.
    + done.
Qed.

(** The first array and the reading loop. *)
Lemma read_input_outcome input s :
  ∃ r s',
    read_input input s = Done r s' ∧ thread_count s' = thread_count s ∧
    (granted_upto (input_requests (length input)) (oracle s) →
     ∃ b pad, r = Some (Ptr b 0, length input) ∧
       heap s' !! b = Some (Some ((Some <$> input) ++ pad)) ∧
       oracle s' = drop (input_requests (length input)) (oracle s) ∧
       (released_but [] s → released_but [b] s')) ∧
    (¬ granted_upto (input_requests (length input)) (oracle s) →
     r = None ∧
     (next_answer (oracle s) = false → heap s' = heap s) ∧
     (next_answer (oracle s) = true →
      ∃ b pad done rest, input = done ++ rest ∧
        heap s' !! b = Some (Some ((Some <$> done) ++ pad)))).
Proof.
  unfold read_input, input_requests. unfold mbind at 1, M_bind at 1, bind at 1.
  rewrite malloc_answer. destruct (next_answer (oracle s)) eqn:Hans.
  - rewrite bool_decide_eq_false_2 by done.
    set (s1 := mkState _ _ _).
    destruct (read_loop_outcome input [] (length (heap s)) 10 s1)
      as (r & s' & b' & pad & done & rest & Hrun & Htc & Hin & Hb' & Hrel & Hyes & Hno).
    { unfold s1. cbn [heap]. by rewrite lookup_app_r, Nat.sub_diag by lia. }
    { simpl. lia. }
    cbn [length app] in *.
    exists r, s'. split; [done|]. split; [done|]. split.
    + intros [_ Hg]%granted_upto_S. destruct (Hyes Hg) as (-> & -> & Ho).
      rewrite app_nil_r in Hin. subst done.
      exists b', pad. split; [done|]. split; [done|]. split.
      * rewrite Ho. unfold s1. cbn [oracle]. by rewrite drop_1_tail, drop_drop.
      * intros Hrel0. apply Hrel. intros b0 Hb0 Hne. unfold s1 in *. cbn [heap] in *.
        rewrite length_app in Hb0. cbn [length] in Hb0.
        rewrite lookup_app_l by set_solver by lia.
        apply Hrel0; [set_solver by lia|apply not_elem_of_nil].
    + intros Hg. split; [|split; [done|]].
      * apply Hno. intros Hg'. apply Hg. apply granted_upto_S. by split.
      * intros _. by exists b', pad, done, rest.
  - rewrite bool_decide_eq_true_2 by done.
    eexists None, _. split; [done|]. split; [done|]. split.
    + intros [Hg _]%granted_upto_S. congruence.
    + intros _. split; [done|]. split; [done|]. intros ?. done.
Qed.


(** ** The two sorts of [main] *)

Lemma print_if (flag : bool) title s p n l :
  n = length l → (flag = true → reads s p l) →
  (if flag then print_list title p n else ret []) s
  = Done (if flag then shown title l else []) s.
Proof. intros -> Hr. destruct flag; [by apply print_list_spec, Hr|done]. Qed.

Lemma sorted_merge_sort (out l : list Z) :
  out ≡ₚ l → StronglySorted Z.le out → out = merge_sort Z.le l.
Proof.
  intros Hp Hs. apply (sorted_unique _ _ l); [done| |done|].
  - apply merge_sort_Permutation.
  - apply (StronglySorted_merge_sort Z.le).
Qed.

Lemma sorted_at_shown s r l :
  sorted_at s r l → reads s r (merge_sort Z.le l).
Proof.
  intros (out & Hout & Hp & Hs). rewrite <-(sorted_merge_sort out l Hp Hs).
  by apply result_at_reads.
Qed.

Lemma sort_and_report_outcome flag b l pad s sched r1 s1 t s2 :
  heap s !! b = Some (Some ((Some <$> l) ++ pad)) →
  quicksort (S (length l)) (length l) (Ptr b 0) s = Done r1 s1 →
  granting s1 →
  - 2 ^ 31 ≤ thread_count s < 2 ^ 31 →
  (flag = true → r1 = NULL → l = []) →
  run sched (Start (mkArgs (Ptr b 0) (length l))) s1 = Stepped t s2 →
  match t with
  | Exited r2 =>
      ∃ s', sort_and_report flag (Ptr b 0) (length l) sched s
            = Done (report flag l (wrap_int (thread_count s + Z.of_nat (invocations l)))) s' ∧
        thread_count s' = wrap_int (thread_count s + Z.of_nat (invocations l)) ∧
        length (heap s') = length (heap s2) ∧
        ∀ b0, (b0 < length (heap s'))%nat →
          if decide ((b0 < length (heap s1))%nat ∧ b0 ≠ b ∧ b0 ∉ blk r1)
          then heap s' !! b0 = heap s1 !! b0
          else heap s' !! b0 = Some None
  | _ => sort_and_report flag (Ptr b 0) (length l) sched s = OutOfFuel
  end.
Proof.
  intros Hb Hq Hg1 Hint Hflag Hrun.
  pose proof (reads_block _ _ _ _ Hb) as Hr.
  pose proof (quicksort_frame _ _ _ _ _ _ Hq) as (Htc1 & He1 & Hr1).
  assert (b < length (heap s))%nat as Hblt by (by eapply lookup_lt_Some).
  assert (sorted_at s1 r1 l ∨ (flag = false ∧ r1 = NULL)) as Hres1.
  { destruct (quicksort_Done _ _ _ _ _ _ Hr Hq)
      as [(-> & -> & ->)|[(Hne & -> & _)|(_ & _ & ? & _)]].
    - left. apply sorted_at_nil.
    - right. split; [|done]. destruct flag; [|done]. by destruct Hne, Hflag.
    - by left. }
  assert (r1 = NULL ∨ ∃ b1 c, r1 = Ptr b1 0 ∧ heap s1 !! b1 = Some (Some c) ∧
                              (length (heap s) ≤ b1 < length (heap s1))%nat) as Hlive1.
  { destruct Hr1 as [->|(b1 & -> & Hb1)]; [by left|right].
    destruct Hres1 as [(out & Hout & Hp & _)|[_ ?]]; [|done].
    destruct out as [|y out]; [done|]. destruct Hout as (b1' & [= <-] & Hlive). eauto. }
  pose proof (reads_extends _ _ _ _ Hr He1) as Hrd1.
  destruct (run_sound sched (Start (mkArgs (Ptr b 0) (length l))) s1 (Ptr b 0) l Hg1)
    as (t' & s2' & Hrun' & Hg2 & _ & Hs2 & _); [constructor|by apply start_sorting|].
  rewrite Hrun in Hrun'. injection Hrun' as <- <-.
  assert (length l = length (merge_sort Z.le l)) as Hlen by (by rewrite merge_sort_Permutation).
  assert (flag = true → reads s (Ptr b 0) l) as Hp1 by done.
  assert (flag = true → reads s1 r1 (merge_sort Z.le l)) as Hp3.
  { intros ->. destruct Hres1 as [Hs1|[? _]]; [by apply sorted_at_shown|done]. }
  assert (flag = true → reads s1 (Ptr b 0) l) as Hp4 by done.
  destruct t as [a|a|n p|n p c1|n p c1 c2|n p sl c2|n p sl sm|r2];
    try (eexists);
    (unfold sort_and_report;
     unfold mbind at 1, M_bind at 1, bind at 1;
     rewrite (print_if flag _ s (Ptr b 0) (length l) l eq_refl Hp1);
     unfold mbind at 1, M_bind at 1, bind at 1; rewrite Hq;
     unfold mbind at 1, M_bind at 1, bind at 1;
     rewrite (print_if flag _ s1 r1 (length l) (merge_sort Z.le l) Hlen Hp3);
     unfold mbind at 1, M_bind at 1, bind at 1;
     rewrite (print_if flag _ s1 (Ptr b 0) (length l) l eq_refl Hp4);
     unfold mbind at 1, M_bind at 1, bind at 1; unfold join_first; rewrite Hrun);
    try reflexivity.
  cbn [sorting] in Hs2.
  unfold mbind at 1, M_bind at 1, bind at 1.
  unfold mbind at 1, M_bind at 1, bind at 1.
  rewrite (print_if flag _ s2 r2 (length l) (merge_sort Z.le l) Hlen
             (λ _, sorted_at_shown _ _ _ Hs2)).
  pose proof (threaded_count s1 (Ptr b 0) l sched r2 s2 Hg1 Hrd1) as Hcount.
  rewrite Htc1 in Hcount. specialize (Hcount Hint Hrun).
  pose proof (run_frame _ _ _ _ _ (length (heap s1)) Hrun (le_n _)) as (Hlen2 & Hown2 & Hsame2).
  { intros b0 Hb0. by apply elem_of_nil in Hb0. }
  pose proof (run_released sched _ s1 (Ptr b 0) l _ s2 (length (heap s1)) Hg1
                (NoDup_nil_2 : NoDup (owned (Start _))) (start_sorting s1 _ l Hrd1) Hrun)
    as Htidy2.
  specialize (Htidy2 ltac:(intros; lia)). cbn [owned] in Hown2, Htidy2.
  assert (r2 = NULL ∨ ∃ b2 c, r2 = Ptr b2 0 ∧ heap s2 !! b2 = Some (Some c) ∧
                              (length (heap s1) ≤ b2)%nat) as Hlive2.
  { destruct Hs2 as (out & Hout & _). destruct out as [|y out]; [by left|right].
    destruct Hout as (b2 & -> & Hb2). exists b2, (Some <$> y :: out).
    split; [done|]. split; [done|]. apply Hown2. simpl. by left. }
  pose proof He1 as [Hlen1 Hsame1].
  match goal with |- context [ret ?x] => set (out := x) end.
  pose proof (frees_run [Ptr b 0; r1; r2] (ret out : M (list output)) s2) as Hfree.
  cbn [foldr] in Hfree. rewrite Hfree; clear Hfree.
  - set (bs := [Ptr b 0; r1; r2] ≫= blk).
    assert (∀ b0, b0 ∈ bs ↔ b0 = b ∨ b0 ∈ blk r1 ∨ b0 ∈ blk r2) as Hbs.
    { intros b0. unfold bs. simpl. rewrite app_nil_r, elem_of_cons, elem_of_app. done. }
    split; [|split; [|split]].
    + unfold out, report. by rewrite Hcount.
    + done.
    + cbn [heap set_heap]. apply release_all_length.
    + cbn [heap set_heap]. intros b0 Hb0. rewrite release_all_length in Hb0.
      assert (∀ b2, b2 ∈ blk r2 → (length (heap s1) ≤ b2)%nat) as Hnew2.
      { intros b2 Hb2. destruct Hlive2 as [->|(b2' & c & -> & _ & ?)];
          [by apply elem_of_nil in Hb2|].
        apply list_elem_of_singleton in Hb2 as ->. done. }
      destruct (decide ((b0 < length (heap s1))%nat ∧ b0 ≠ b ∧ b0 ∉ blk r1))
        as [(Hold & Hne & Hnin)|Hnot].
      * rewrite release_all_other; [by apply Hsame2|].
        change (b0 ∉ bs). rewrite Hbs. intros [?|[?|Hin]]; [done..|]. apply Hnew2 in Hin. lia.
      * destruct (decide (b0 ∈ bs)) as [Hin|Hnin]; [by apply release_all_freed|].
        rewrite release_all_other by done. rewrite Hbs in Hnin.
        apply Htidy2; [|tauto].
        destruct (decide (b0 < length (heap s1))%nat); [|lia]. tauto.
  - simpl. rewrite app_nil_r. apply NoDup_cons. split.
    + rewrite elem_of_app. intros [Hin|Hin].
      * destruct Hlive1 as [->|(b1 & c & -> & _ & ?)]; [by apply elem_of_nil in Hin|].
        apply list_elem_of_singleton in Hin. lia.
      * destruct Hlive2 as [->|(b2 & c & -> & _ & ?)]; [by apply elem_of_nil in Hin|].
        apply list_elem_of_singleton in Hin. lia.
    + apply NoDup_app. split; [|split].
      * destruct r1; simpl; [constructor|apply NoDup_singleton].
      * intros b0 Hin1 Hin2.
        destruct Hlive1 as [->|(b1 & c & -> & _ & ?)]; [by apply elem_of_nil in Hin1|].
        destruct Hlive2 as [->|(b2 & c2 & -> & _ & ?)]; [by apply elem_of_nil in Hin2|].
        apply list_elem_of_singleton in Hin1, Hin2. lia.
      * destruct r2; simpl; [constructor|apply NoDup_singleton].
  - intros q Hq'. rewrite !elem_of_cons, elem_of_nil in Hq'.
    destruct Hq' as [->|[->|[->|[]]]].
    + right. exists b, ((Some <$> l) ++ pad). split; [done|].
      rewrite Hsame2 by lia. by rewrite Hsame1.
    + destruct Hlive1 as [?|(b1 & c & -> & Hc & ?)]; [by left|right].
      exists b1, c. split; [done|]. rewrite Hsame2 by lia. done.
    + destruct Hlive2 as [?|(b2 & c & -> & Hc & ?)]; [by left|right]. eauto.
Qed.

(** ** [main] *)

Lemma invoked_length argv flag file :
  invoked argv flag file → ¬ (length argv < 2 ∨ 3 < length argv)%nat.
Proof. intros []; simpl; lia. Qed.

Lemma invoked_total argv :
  ¬ (length argv < 2 ∨ 3 < length argv)%nat → ∃ flag file, invoked argv flag file.
Proof.
  destruct argv as [|prog [|a1 [|a2 [|a3 argv]]]]; simpl; try lia; intros _.
  - exists false, a1. constructor.
  - destruct (decide (a1 = "-p")) as [->|Hne].
    + exists true, a2. constructor.
    + exists false, a1. by constructor.
Qed.

Lemma invoked_unique argv flag1 file1 flag2 file2 :
  invoked argv flag1 file1 → invoked argv flag2 file2 → flag1 = flag2 ∧ file1 = file2.
Proof. intros H1 H2. destruct H1; inversion H2; by simplify_eq. Qed.

(** On an accepted command line [main] opens the file, reads it and
    sorts. *)
Lemma main_invoked argv flag file files sched :
  invoked argv flag file →
  main argv files sched =
    match files file with
    | None => ret (1, [Perror "Error opening file"])
    | Some input =>
        r ← read_input input;
        match r with
        | None => ret (1, [Perror "Memory allocation failed"])
        | Some (data, size) =>
            out ← sort_and_report flag data size sched;
            ret (0, out)
        end
    end.
Proof.
  intros [prog f|prog f|prog f more Hne]; unfold main; cbn [length];
    rewrite (bool_decide_eq_false_2 (_ ∨ _)) by lia; cbn [lookup list_lookup default].
  - rewrite bool_decide_eq_false_2 by (intros [? _]; lia). done.
  - rewrite bool_decide_eq_true_2 by done. done.
  - rewrite bool_decide_eq_false_2 by (by intros [_ ?]). done.
Qed.

Lemma main_usage argv files sched s :
  (length argv < 2 ∨ 3 < length argv)%nat →
  main argv files sched s =
    match argv with
    | prog :: _ =>
        Done (1, [PrintErr ("Usage: " +:+ prog +:+ " [-p] file_of_integers" +:+ newline)]) s
    | [] => Fault
    end.
Proof.
  intros Hargc. unfold main. rewrite bool_decide_eq_true_2 by done. by destruct argv.
Qed.

Lemma granted_upto_Forall k o :
  granted_upto k o ↔ Forall (λ i, next_answer (drop i o) = true) (seq 0 k).
Proof.
  unfold granted_upto. rewrite Forall_forall. setoid_rewrite elem_of_seq.
  split; intros H i Hi; apply H; lia.
Qed.

Lemma granted_upto_dec k o : granted_upto k o ∨ ¬ granted_upto k o.
Proof.
  rewrite granted_upto_Forall.
  destruct (decide (Forall (λ i, next_answer (drop i o) = true) (seq 0 k))); tauto.
Qed.

Lemma granting_drop s s' k : granting s → oracle s' = drop k (oracle s) → granting s'.
Proof. unfold granting. intros Hg ->. by apply Forall_drop. Qed.

(** What [main] has done by the time it starts the threads, on an
    accepted command line, when every request is granted: the input is in
    memory, the sequential sort has returned, and the rest of the run
    depends on the schedule only through the point the threads reach. *)
Lemma main_granted argv flag file files input s :
  invoked argv flag file → files file = Some input →
  granting s → thread_count s = 0 → released_but [] s →
  2 * Z.of_nat (length input) + 1 < 2 ^ 31 →
  ∃ b s2,
    granting s2 ∧ reads s2 (Ptr b 0) input ∧
    ∀ sched t s3,
      run sched (Start (mkArgs (Ptr b 0) (length input))) s2 = Stepped t s3 →
      match t with
      | Exited _ =>
          ∃ s', main argv files sched s
                = Done (0, report flag input (2 * Z.of_nat (distinct input) + 1)) s' ∧
                released_but [] s'
      | _ => main argv files sched s = OutOfFuel
      end.
Proof.
  intros Hinv Hfile Hg Htc Hrel Hsmall.
  destruct (read_input_outcome input s) as (r & s1 & Hread & Htc1 & Hyes & _).
  destruct Hyes as (b & pad & -> & Hb & Ho1 & Hrel1); [by apply granting_upto|].
  specialize (Hrel1 Hrel).
  pose proof (granting_drop s s1 _ Hg Ho1) as Hg1.
  pose proof (reads_block _ _ _ _ Hb) as Hr1.
  destruct (quicksort_correct (S (length input)) input (Ptr b 0) s1)
    as (r1 & s2 & Hq & Hg2 & Hs2); [lia|done..|].
  pose proof (quicksort_frame _ _ _ _ _ _ Hq) as (Htc2 & He2 & _).
  destruct (quicksort_Done_granted _ _ _ _ _ _ Hr1 Hq) as (_ & Htidy & _);
    [by apply granting_upto|].
  exists b, s2. split; [done|]. split; [by eapply reads_extends|].
  intros sched t s3 Hrun.
  pose proof (sort_and_report_outcome flag b input pad s1 sched r1 s2 t s3 Hb Hq Hg2) as Hout.
  rewrite Htc1, Htc in Hout. specialize (Hout ltac:(lia)).
  assert (flag = true → r1 = NULL → input = []) as Hflag.
  { intros _ ->. destruct input as [|x input]; [done|].
    exfalso. by apply (sorted_at_nonnull _ _ _ Hs2). }
  specialize (Hout Hflag Hrun).
  assert (main argv files sched s
          = (out ← sort_and_report flag (Ptr b 0) (length input) sched; ret (0, out)) s1)
    as Hmain.
  { rewrite (main_invoked argv flag file files sched Hinv), Hfile.
    unfold mbind at 1, M_bind at 1, bind at 1. by rewrite Hread. }
  rewrite Hmain. unfold mbind, M_bind, bind.
  destruct t as [a|a|n p|n p c1|n p c1 c2|n p sl c2|n p sl sm|r2]; try (by rewrite Hout).
  destruct Hout as (s' & -> & Htc' & Hlen' & Hheap).
  exists s'. split.
  - unfold mret, M_ret, ret. do 3 f_equal. rewrite invocations_distinct.
    pose proof (distinct_le_length input). rewrite wrap_int_small by lia. lia.
  - intros b0 Hb0 _. specialize (Hheap b0 Hb0).
    destruct (decide ((b0 < length (heap s2))%nat ∧ b0 ≠ b ∧ b0 ∉ blk r1))
      as [(Hlt & Hne & Hnin)|_]; [|done].
    rewrite Hheap.
    destruct (decide (b0 < length (heap s1))%nat) as [Hold|Hnew].
    + destruct He2 as [_ He2]. rewrite He2 by done. apply Hrel1; [done|set_solver].
    + apply Htidy; [lia|done].
Qed.

Lemma released_all s : released_but [] s → ∀ b, block_at s b = None.
Proof.
  intros Hrel b. unfold block_at. destruct (decide (b < length (heap s))%nat) as [Hlt|Hge].
  - by rewrite Hrel by (done || apply not_elem_of_nil).
  - by rewrite lookup_ge_None_2 by lia.
Qed.

(** X10. [main] from end to end.  On an accepted command line
    ([file], [-p file], or [file] followed by an argument that is
    ignored), when the file can be opened and every request is granted,
    whatever the schedule of the threads: [main] returns 0; it writes the
    two times and the number of threads, which is [2 * d + 1] for [d]
    distinct values, and with [-p] also the input, the sorted input, the
    input again and the sorted input again, each as a comma-separated
    line; and when it returns every block it allocated has been
    released.  (A schedule that stops early leaves [main] waiting in
    [pthread_join]; it can always be continued to the end.) *)
Theorem main_sorts argv flag file files input s sched :
  invoked argv flag file → files file = Some input →
  granting s → thread_count s = 0 → released_but [] s →
  2 * Z.of_nat (length input) + 1 < 2 ^ 31 →
  (main argv files sched s = OutOfFuel ∨
   ∃ s', main argv files sched s
         = Done (0, report flag input (2 * Z.of_nat (distinct input) + 1)) s' ∧
         ∀ b, block_at s' b = None) ∧
  ∃ rest s', main argv files (sched ++ rest) s
             = Done (0, report flag input (2 * Z.of_nat (distinct input) + 1)) s' ∧
             ∀ b, block_at s' b = None.
Proof.
  intros Hinv Hfile Hg Htc Hrel Hsmall.
  destruct (main_granted argv flag file files input s Hinv Hfile Hg Htc Hrel Hsmall)
    as (b & s2 & Hg2 & Hr2 & Hall).
  destruct (threaded_completes s2 (Ptr b 0) input sched Hg2 Hr2)
    as (t & s3 & Hrun & rest & r & s4 & Hrest).
  split.
  - specialize (Hall sched t s3 Hrun).
    destruct t; try (by left). right.
    destruct Hall as (s' & Hmain & Hrel'). exists s'. split; [done|by apply released_all].
  - specialize (Hall (sched ++ rest) (Exited r) s4). rewrite run_app, Hrun in Hall.
    destruct (Hall Hrest) as (s' & Hmain & Hrel').
    exists rest, s'. split; [done|by apply released_all].
Qed.

Lemma main_sorts_witness :
  ∃ s', main ["quicksort"; "-p"; "numbers.txt"] example_files example_schedule
          (start_state [])
        = Done (0, report true example_input 9) s' ∧
        ∀ b, block_at s' b = None.
Proof.
  destruct (main_sorts ["quicksort"; "-p"; "numbers.txt"] true "numbers.txt" example_files
              example_input (start_state []) example_schedule)
    as [[Hwait|Hdone] _].
  - constructor.
  - reflexivity.
  - constructor.
  - reflexivity.
  - intros b Hb. simpl in Hb. lia.
  - simpl. lia.
  - vm_compute in Hwait. discriminate Hwait.
  - exact Hdone.
Defined.

(** [quicksort] when its own [partition] is refused a buffer. *)
Lemma quicksort_refused fuel l d s :
  l ≠ [] → reads s d l → ¬ three_granted (oracle s) →
  ∃ s', quicksort (S fuel) (length l) d s = Done NULL s' ∧
        oracle s' = drop 3 (oracle s) ∧ thread_count s' = thread_count s ∧
        heap s' = heap s ++ replicate (granted_of 3 (oracle s))
                              (Some (replicate (length l) None)).
Proof.
  intros Hne Hr Hno. destruct l as [|x l]; [done|].
  destruct (partition_outcome s d (x :: l) x Hr) as (r & s' & Hpart & Ho & Htc & _ & Hfail).
  destruct (Hfail Hno) as [-> Hheap].
  exists s'. rewrite quicksort_unfold, bool_decide_eq_false_2 by done.
  unfold mbind at 1, M_bind at 1, bind at 1. rewrite (Hr 0%nat x eq_refl).
  unfold mbind at 1, M_bind at 1, bind at 1. by rewrite Hpart.
Qed.


(** X11. The exit status of [main] tells whether the input was read,
    and nothing about the sorts: whenever [main] returns, it returns 0 or
    1; it returns 0 exactly when the command line is accepted, the file
    can be opened and the requests for the input array are granted,
    whatever became of the two sorts; and when it returns 1 all it has
    written is one message on the standard error. *)
Theorem main_exit_status argv files sched s code out s' :
  main argv files sched s = Done (code, out) s' →
  (code = 0 ∨ code = 1) ∧
  (code = 0 ↔ ∃ flag file input,
     invoked argv flag file ∧ files file = Some input ∧
     granted_upto (input_requests (length input)) (oracle s)) ∧
  (code = 1 → ∃ text, out = [PrintErr text] ∨ out = [Perror text]).
Proof.
  intros Hmain.
  destruct (decide (length argv < 2 ∨ 3 < length argv)%nat) as [Hargc|Hargc].
  { rewrite main_usage in Hmain by done. destruct argv as [|prog argv]; [done|].
    injection Hmain as <- <- <-. split; [by right|]. split; [|eauto].
    split; [done|]. intros (flag & file & input & Hinv & _). by apply invoked_length in Hinv. }
  destruct (invoked_total argv Hargc) as (flag & file & Hinv).
  rewrite (main_invoked argv flag file files sched Hinv) in Hmain.
  destruct (files file) as [input|] eqn:Hfile.
  2:{ injection Hmain as <- <- <-. split; [by right|]. split; [|eauto].
      split; [done|]. intros (flag' & file' & input' & Hinv' & Hfile' & _).
      destruct (invoked_unique _ _ _ _ _ Hinv Hinv') as [_ <-]. congruence. }
  apply bind_Done in Hmain as (r & s1 & Hread & Hmain).
  destruct (read_input_outcome input s) as (r' & s1' & Hread' & _ & Hyes & Hno).
  rewrite Hread in Hread'. injection Hread' as <- <-.
  destruct (granted_upto_dec (input_requests (length input)) (oracle s)) as [Hg|Hg].
  - destruct (Hyes Hg) as (b & pad & -> & _).
    apply bind_Done in Hmain as (out' & s2 & _ & Hmain). injection Hmain as <- <- <-.
    split; [by left|]. split; [|done]. split; [|done]. intros _. by exists flag, file, input.
  - destruct (Hno Hg) as (-> & _). injection Hmain as <- <- <-.
    split; [by right|]. split; [|eauto].
    split; [done|]. intros (flag' & file' & input' & Hinv' & Hfile' & Hg').
    destruct (invoked_unique _ _ _ _ _ Hinv Hinv') as [_ <-]. congruence.
Qed.

Lemma main_exit_status_witness :
  0 = 0 ↔ ∃ flag file input,
    invoked ["quicksort"; "numbers.txt"; "more"] flag file ∧
    example_files file = Some input ∧
    granted_upto (input_requests (length input)) (oracle (start_state [true; false])).
Proof.
  eapply proj1, proj2,
    (main_exit_status ["quicksort"; "numbers.txt"; "more"] example_files example_schedule
       (start_state [true; false]) 0).
  vm_compute. reflexivity.
Defined.

(** X12. With [-p], a sequential sort that fails makes [main] print from
    a null array: when the input is read, it is not empty, and one of the
    three buffers of the first [partition] of [quicksort] is refused,
    [main] runs into undefined behaviour ([sorted_non_threaded[0]] with
    [sorted_non_threaded] null); the result of [quicksort] is not
    checked. *)
Theorem main_print_faults argv file files input s sched :
  invoked argv true file → files file = Some input → input ≠ [] →
  granted_upto (input_requests (length input)) (oracle s) →
  ¬ three_granted (drop (input_requests (length input)) (oracle s)) →
  main argv files sched s = Fault.
Proof.
  intros Hinv Hfile Hne Hg Hno.
  destruct (read_input_outcome input s) as (r & s1 & Hread & _ & Hyes & _).
  destruct (Hyes Hg) as (b & pad & -> & Hb & Ho1 & _).
  pose proof (reads_block _ _ _ _ Hb) as Hr1. rewrite <-Ho1 in Hno.
  destruct (quicksort_refused (length input) input (Ptr b 0) s1 Hne Hr1 Hno)
    as (s2 & Hq & _).
  rewrite (main_invoked argv true file files sched Hinv), Hfile.
  unfold mbind at 1, M_bind at 1, bind at 1. rewrite Hread.
  unfold mbind at 1, M_bind at 1, bind at 1. unfold sort_and_report.
  unfold mbind at 1, M_bind at 1, bind at 1.
  rewrite (print_list_spec _ s1 (Ptr b 0) input Hr1).
  unfold mbind at 1, M_bind at 1, bind at 1. rewrite Hq.
  unfold mbind at 1, M_bind at 1, bind at 1.
  destruct input as [|x input]; [done|]. cbn [length]. by rewrite print_list_null.
Qed.

Lemma main_print_faults_witness :
  main ["quicksort"; "-p"; "numbers.txt"] example_files example_schedule
    (start_state [true; true; false]) = Fault.
Proof.
  apply (main_print_faults ["quicksort"; "-p"; "numbers.txt"] "numbers.txt" example_files
           example_input).
  - constructor.
  - reflexivity.
  - done.
  - intros [|i] Hi; [done|]. vm_compute in Hi. lia.
  - intros (_ & H2 & _). discriminate H2.
Defined.

(** [main] without [-p] when the first [partition] of [quicksort] is
    refused a buffer and every later request is granted. *)
Lemma main_unchecked argv file files input s :
  invoked argv false file → files file = Some input → input ≠ [] →
  thread_count s = 0 → 2 * Z.of_nat (length input) + 1 < 2 ^ 31 →
  granted_upto (input_requests (length input)) (oracle s) →
  ¬ three_granted (drop (input_requests (length input)) (oracle s)) →
  Forall (λ a, a = true) (drop (input_requests (length input) + 3) (oracle s)) →
  ∃ b s2 n0,
    granting s2 ∧ reads s2 (Ptr b 0) input ∧
    ∀ sched t s3,
      run sched (Start (mkArgs (Ptr b 0) (length input))) s2 = Stepped t s3 →
      match t with
      | Exited _ =>
          ∃ s', main argv files sched s
                = Done (0, report false input (2 * Z.of_nat (distinct input) + 1)) s' ∧
                left_behind n0
                  (granted_of 3 (drop (input_requests (length input)) (oracle s)))
                  (length input) s'
      | _ => main argv files sched s = OutOfFuel
      end.
Proof.
  intros Hinv Hfile Hne Htc Hsmall Hg Hno Hrest.
  destruct (read_input_outcome input s) as (r & s1 & Hread & Htc1 & Hyes & _).
  destruct (Hyes Hg) as (b & pad & -> & Hb & Ho1 & _).
  pose proof (reads_block _ _ _ _ Hb) as Hr1. rewrite <-Ho1 in Hno.
  destruct (quicksort_refused (length input) input (Ptr b 0) s1 Hne Hr1 Hno)
    as (s2 & Hq & Ho2 & Htc2 & Hheap2).
  assert (granting s2) as Hg2.
  { unfold granting. by rewrite Ho2, Ho1, drop_drop. }
  pose proof (quicksort_frame _ _ _ _ _ _ Hq) as (_ & He2 & _).
  assert (b < length (heap s1))%nat as Hblt by (by eapply lookup_lt_Some).
  exists b, s2, (length (heap s1)). split; [done|]. split; [by eapply reads_extends|].
  intros sched t s3 Hrun.
  pose proof (sort_and_report_outcome false b input pad s1 sched NULL s2 t s3 Hb Hq Hg2)
    as Hout.
  rewrite Htc1, Htc in Hout. specialize (Hout ltac:(lia) ltac:(done) Hrun).
  assert (main argv files sched s
          = (out ← sort_and_report false (Ptr b 0) (length input) sched; ret (0, out)) s1)
    as Hmain.
  { rewrite (main_invoked argv false file files sched Hinv), Hfile.
    unfold mbind at 1, M_bind at 1, bind at 1. by rewrite Hread. }
  rewrite Hmain. unfold mbind, M_bind, bind.
  pose proof (run_frame _ _ _ _ _ (length (heap s2)) Hrun (le_n _)) as (Hlen3 & _).
  { intros b0 Hb0. by apply elem_of_nil in Hb0. }
  destruct t as [a|a|n p|n p c1|n p c1 c2|n p sl c2|n p sl sm|r2]; try (by rewrite Hout).
  destruct Hout as (s' & -> & Htc' & Hlen' & Hheap).
  exists s'. split.
  - unfold mret, M_ret, ret. do 3 f_equal. rewrite invocations_distinct.
    pose proof (distinct_le_length input). rewrite wrap_int_small by lia. lia.
  - intros i Hi. rewrite <-Ho1 in Hi.
    assert (length (heap s2)
            = (length (heap s1) + granted_of 3 (oracle s1))%nat) as Hlen2
      by (by rewrite Hheap2, length_app, length_replicate).
    specialize (Hheap (length (heap s1) + i)%nat ltac:(lia)).
    rewrite decide_True in Hheap.
    2:{ split; [lia|]. split; [lia|apply not_elem_of_nil]. }
    unfold block_at. rewrite Hheap, Hheap2.
    rewrite lookup_app_r by lia.
    rewrite lookup_replicate_2 by lia. done.
Qed.

(** X13. Without [-p], [main] does not notice a failed sequential sort:
    when the input is read and is not empty, one of the three buffers of
    the first [partition] of [quicksort] is refused, and every later
    request is granted, [main] still returns 0, under every schedule, and
    itself writes what it writes when both sorts succeed (the only trace
    of the failure is the message of [partition] on the standard error);
    the buffers that were granted to the failed [partition] are never
    released. *)
Theorem main_ignores_failed_sort argv file files input s sched :
  invoked argv false file → files file = Some input → input ≠ [] →
  thread_count s = 0 → 2 * Z.of_nat (length input) + 1 < 2 ^ 31 →
  granted_upto (input_requests (length input)) (oracle s) →
  ¬ three_granted (drop (input_requests (length input)) (oracle s)) →
  Forall (λ a, a = true) (drop (input_requests (length input) + 3) (oracle s)) →
  ∃ n0,
    (main argv files sched s = OutOfFuel ∨
     ∃ s', main argv files sched s
           = Done (0, report false input (2 * Z.of_nat (distinct input) + 1)) s' ∧
           left_behind n0 (granted_of 3 (drop (input_requests (length input)) (oracle s)))
             (length input) s') ∧
    ∃ rest s', main argv files (sched ++ rest) s
               = Done (0, report false input (2 * Z.of_nat (distinct input) + 1)) s' ∧
               left_behind n0 (granted_of 3 (drop (input_requests (length input)) (oracle s)))
                 (length input) s'.
Proof.
  intros Hinv Hfile Hne Htc Hsmall Hg Hno Hrest.
  destruct (main_unchecked argv file files input s Hinv Hfile Hne Htc Hsmall Hg Hno Hrest)
    as (b & s2 & n0 & Hg2 & Hr2 & Hall).
  destruct (threaded_completes s2 (Ptr b 0) input sched Hg2 Hr2)
    as (t & s3 & Hrun & rest & r & s4 & Hrest').
  exists n0. split.
  - specialize (Hall sched t s3 Hrun). destruct t; try (by left). by right.
  - specialize (Hall (sched ++ rest) (Exited r) s4). rewrite run_app, Hrun in Hall.
    destruct (Hall Hrest') as (s' & Hmain & Hleft). by exists rest, s'.
Qed.

Lemma main_ignores_failed_sort_witness :
  ∃ n0 s',
    main ["quicksort"; "numbers.txt"] example_files example_schedule
      (start_state [true; true; false])
    = Done (0, report false example_input 9) s' ∧
    left_behind n0 2 (length example_input) s'.
Proof.
  destruct (main_ignores_failed_sort ["quicksort"; "numbers.txt"] "numbers.txt" example_files
              example_input (start_state [true; true; false]) example_schedule)
    as (n0 & [Hwait|Hdone] & _).
  - constructor.
  - reflexivity.
  - done.
  - reflexivity.
  - simpl. lia.
  - intros [|i] Hi; [done|]. vm_compute in Hi. lia.
  - intros (_ & H2 & _). discriminate H2.
  - constructor.
  - vm_compute in Hwait. discriminate Hwait.
  - exists n0. exact Hdone.
Defined.

(** ** The threads whatever the allocator answers *)

Lemma ended_at_same s s' r l :
  ended_at s r l → (∀ b, b ∈ blk r → heap s' !! b = heap s !! b) → ended_at s' r l.
Proof. intros [->|Hs] Hsame; [by left|right]. by eapply sorted_at_same. Qed.

Lemma ended_at_blk s r l b : ended_at s r l → b ∈ blk r → (b < length (heap s))%nat.
Proof.
  intros [->|Hs] Hb; [by apply elem_of_nil in Hb|]. by eapply sorted_at_blk.
Qed.

Lemma trying_same t :
  ∀ s s' d l, trying t s d l →
  (∀ b, b ∈ owned t ++ blk d → heap s' !! b = heap s !! b) →
  trying t s' d l.
Proof.
  induction t as [a|a|n p|n p c1 IH1|n p c1 IH1 c2 IH2|n p sl c2 IH2|n p sl sm|r];
    intros s s' d l Hs Hsame; simpl in *.
  - destruct Hs as [-> Hr]. split; [done|]. by eapply reads_same.
  - destruct Hs as [-> Hr]. split; [done|]. by eapply reads_same.
  - destruct Hs as (Hne & Hs). split; [done|].
    eapply split_at_same; [done|]. intros b Hb. apply Hsame. set_solver.
  - destruct Hs as (Hne & Hs & Hc1). split; [done|]. split.
    + eapply split_at_same; [done|]. intros b Hb. apply Hsame. set_solver.
    + eapply IH1; [done|]. intros b Hb. apply Hsame. unfold pblocks. set_solver.
  - destruct Hs as (Hne & Hs & Hc1 & Hc2). split; [done|]. split; [|split].
    + eapply split_at_same; [done|]. intros b Hb. apply Hsame. set_solver.
    + eapply IH1; [done|]. intros b Hb. apply Hsame. unfold pblocks. set_solver.
    + eapply IH2; [done|]. intros b Hb. apply Hsame. unfold pblocks. set_solver.
  - destruct Hs as (Hne & Hs & Hsl & Hc2). split; [done|]. split; [|split].
    + eapply split_at_same; [done|]. intros b Hb. apply Hsame. set_solver.
    + eapply ended_at_same; [done|]. intros b Hb. apply Hsame. set_solver.
    + eapply IH2; [done|]. intros b Hb. apply Hsame. unfold pblocks. set_solver.
  - destruct Hs as (Hne & Hs & Hsl & Hsm). split; [done|]. split; [|split].
    + eapply split_at_same; [done|]. intros b Hb. apply Hsame. set_solver.
    + eapply ended_at_same; [done|]. intros b Hb. apply Hsame. set_solver.
    + eapply ended_at_same; [done|]. intros b Hb. apply Hsame. set_solver.
  - eapply ended_at_same; [done|]. intros b Hb. apply Hsame. set_solver.
Qed.

Lemma trying_allocated t :
  ∀ s d l b, trying t s d l → b ∈ owned t → (b < length (heap s))%nat.
Proof.
  induction t as [a|a|n p|n p c1 IH1|n p c1 IH1 c2 IH2|n p sl c2 IH2|n p sl sm|r];
    intros s d l b Hs Hb; simpl in *.
  - by apply elem_of_nil in Hb.
  - by apply elem_of_nil in Hb.
  - destruct Hs as (_ & Hs). apply (split_at_blk _ _ _ _ _ _ Hs Hb).
  - destruct Hs as (_ & Hs & Hc1). apply elem_of_app in Hb as [Hb|Hb].
    + apply (split_at_blk _ _ _ _ _ _ Hs Hb).
    + apply (IH1 _ _ _ _ Hc1 Hb).
  - destruct Hs as (_ & Hs & Hc1 & Hc2). rewrite !elem_of_app in Hb.
    destruct Hb as [Hb|[Hb|Hb]].
    + apply (split_at_blk _ _ _ _ _ _ Hs Hb).
    + apply (IH1 _ _ _ _ Hc1 Hb).
    + apply (IH2 _ _ _ _ Hc2 Hb).
  - destruct Hs as (_ & Hs & Hsl & Hc2). rewrite !elem_of_app in Hb.
    destruct Hb as [Hb|[Hb|Hb]].
    + apply (split_at_blk _ _ _ _ _ _ Hs Hb).
    + apply (ended_at_blk _ _ _ _ Hsl Hb).
    + apply (IH2 _ _ _ _ Hc2 Hb).
  - destruct Hs as (_ & Hs & Hsl & Hsm). rewrite !elem_of_app in Hb.
    destruct Hb as [Hb|[Hb|Hb]].
    + apply (split_at_blk _ _ _ _ _ _ Hs Hb).
    + apply (ended_at_blk _ _ _ _ Hsl Hb).
    + apply (ended_at_blk _ _ _ _ Hsm Hb).
  - apply (ended_at_blk _ _ _ _ Hs Hb).
Qed.

(** The step of a thread that has just incremented the counter, whatever
    the allocator answers. *)
Lemma split_step_any d l s :
  reads s d l →
  ∃ t' s', step Self (Entered (mkArgs d (length l))) s = Stepped t' s' ∧
           NoDup (owned t') ∧ trying t' s' d l ∧
           (l ≠ [] ∧ three_granted (oracle s) → past_partition t') ∧
           (l = [] ∨ ¬ three_granted (oracle s) → t' = Exited NULL) ∧
           (l = [] → s' = s) ∧
           (l ≠ [] → oracle s' = drop 3 (oracle s)) ∧
           (l ≠ [] ∧ three_granted (oracle s) → ∃ p, t' = Partitioned (length l) p).
Proof.
  intros Hr. cbn [step]. unfold split_thread. cbn [size data].
  destruct l as [|x l0].
  { exists (Exited NULL), s. rewrite bool_decide_eq_true_2 by done. simpl.
    split; [done|]. split; [constructor|]. split; [by left|]. split; [by intros [? _]|].
    split; [done|]. split; [done|]. split; [done|]. by intros [? _]. }
  set (l := x :: l0) in *.
  rewrite bool_decide_eq_false_2 by done.
  unfold mbind at 1, M_bind at 1, bind at 1. rewrite (Hr 0%nat x eq_refl).
  unfold mbind at 1, M_bind at 1, bind at 1.
  destruct (partition_outcome s d l x Hr) as (r & s' & -> & Ho & _ & Hyes & Hno).
  destruct (decide (three_granted (oracle s))) as [Hg|Hg].
  - destruct (Hyes Hg) as [-> ->].
    exists (Partitioned (length l) (parts_of x l s)), (partitioned x l s).
    split; [done|]. split; [|split; [|split; [done|split; [|]]]].
    + simpl. unfold pblocks, parts_of. simpl.
      repeat constructor; set_unfold; lia.
    + cbn [trying hd]. split; [done|].
      unfold split_at, parts_of, partitioned, stored. cbn [less more equal less_size
        more_size equal_size heap].
      repeat split; eexists _, _; (split; [done|]);
        [apply tail3_lookup_0|apply tail3_lookup_1|apply tail3_lookup_2].
    + intros [?|?]; done.
    + split; [done|]. split; [done|]. intros _. by eexists.
  - destruct (Hno Hg) as [-> _]. exists (Exited NULL), s'.
    split; [done|]. split; [constructor|]. split; [by left|]. split; [by intros [_ ?]|].
    split; [done|]. split; [done|]. split; [done|]. by intros [_ ?].
Qed.

(** The step of a thread that has collected both results: if it does not
    crash, neither result stood for a failure. *)
Lemma merge_step_any s n p sl sm d l t' s' :
  NoDup (owned (Joined2 n p sl sm)) → trying (Joined2 n p sl sm) s d l →
  step Self (Joined2 n p sl sm) s = Stepped t' s' →
  ∃ r, t' = Exited r ∧ r ≠ NULL ∧ NoDup (owned (Exited r)) ∧ sorted_at s' r l ∧
       (sl = NULL → below (hd 0 l) l = []) ∧ (sm = NULL → above (hd 0 l) l = []) ∧
       next_answer (oracle s) = true ∧ oracle s' = drop 1 (oracle s).
Proof.
  intros Hnd (Hne & Hsplit & Hsl & Hsm) Hstep. cbn [owned] in Hnd. cbn [step] in Hstep.
  destruct (merge_thread n p sl sm s) as [r s1| |] eqn:Hrun; [|done..].
  injection Hstep as <- <-. rewrite merge_thread_eq in Hrun.
  pose proof Hsplit as (_ & Hls & Hms & Hes & _).
  destruct l as [|x l]; [done|]. cbn [hd] in *.
  destruct (merge_and_release_Done_inv _ _ _ _ _ _ _ Hrun) as (Hans & Hnull1 & Hnull2).
  { rewrite Hes. apply same_hd. }
  assert (sorted_at s sl (below x (x :: l))) as Hsl'.
  { destruct Hsl as [->|?]; [|done]. rewrite Hls in Hnull1.
    rewrite (nil_length_inv _ (Hnull1 eq_refl)). apply sorted_at_nil. }
  assert (sorted_at s sm (above x (x :: l))) as Hsm'.
  { destruct Hsm as [->|?]; [|done]. rewrite Hms in Hnull2.
    rewrite (nil_length_inv _ (Hnull2 eq_refl)). apply sorted_at_nil. }
  destruct (merge_and_release_done s n p sl sm (x :: l))
    as (out & Hdone & Hout & Hp & Hs & Hbs); [done..|].
  rewrite Hdone in Hrun. injection Hrun as <- <-.
  exists (Ptr (length (heap s)) 0). split; [done|]. split; [done|].
  split; [apply NoDup_singleton|]. split; [by apply merged_sorted_at|].
  cbn [hd oracle]. rewrite Hls in Hnull1. rewrite Hms in Hnull2.
  split; [intros H; by apply nil_length_inv, Hnull1|].
  split; [intros H; by apply nil_length_inv, Hnull2|].
  split; [done|apply drop_1_tail].
Qed.

(** Whatever the allocator answers, a step that does not crash keeps the
    tree on its way, and a thread that has its buffers ends with an
    array. *)
Lemma step_trying t :
  ∀ π s d l t' s',
  NoDup (owned t) → trying t s d l → step π t s = Stepped t' s' →
  NoDup (owned t') ∧ trying t' s' d l ∧ (past_partition t → past_partition t').
Proof.
  induction t as [a|a|n p|n p c1 IH1|n p c1 IH1 c2 IH2|n p sl c2 IH2|n p sl sm|r];
    intros [|π|π] s d l t' s' Hnd Hs Hstep; try (by simpl in Hstep).
  - (* Start *)
    cbn [step count_thread continue_with] in Hstep. injection Hstep as <- <-.
    destruct Hs as [-> Hr]. split; [constructor|]. split; [|by intros []].
    split; [done|]. by eapply reads_same.
  - (* Entered *)
    destruct Hs as [-> Hr].
    destruct (split_step_any d l s Hr) as (t1 & s1 & Hstep1 & Hnd1 & Ht1 & _).
    rewrite Hstep1 in Hstep. injection Hstep as <- <-. split; [done|]. split; [done|].
    by intros [].
  - (* Partitioned *)
    cbn [step] in Hstep. injection Hstep as <- <-. destruct Hs as (Hne & Hsplit).
    pose proof Hsplit as (_ & Hls & _ & _ & Hl & _).
    split; [cbn [owned]; by rewrite app_nil_r|]. split; [|done].
    cbn [trying]. rewrite Hls. split; [done|]. split; [done|]. split; [done|].
    by apply stored_reads.
  - (* Spawned1, itself *)
    cbn [step] in Hstep. injection Hstep as <- <-. destruct Hs as (Hne & Hsplit & Hc1).
    pose proof Hsplit as (_ & _ & Hms & _ & _ & Hm & _).
    split; [cbn [owned]; by rewrite app_nil_r|]. split; [|done].
    cbn [trying]. rewrite Hms. split; [done|]. split; [done|]. split; [done|].
    split; [done|]. by apply stored_reads.
  - (* Spawned1, a thread below *)
    cbn [step] in Hstep. destruct (step π c1 s) as [c1' s1| |] eqn:Hc; [|done..].
    cbn [in_child] in Hstep. injection Hstep as <- <-.
    destruct Hs as (Hne & Hsplit & Hc1). cbn [owned] in Hnd.
    pose proof Hnd as (_ & _ & Hnd1)%NoDup_app.
    destruct (IH1 π s _ _ c1' s1 Hnd1 Hc1 Hc) as (Hnd1' & Hc1' & _).
    destruct (child_frame _ _ _ _ _ (pblocks p) Hc Hnd) as [Hkeep Hnd']; [|done|].
    { intros b Hb. by eapply split_at_blk. }
    split; [done|]. split; [|done].
    split; [done|]. split; [by eapply split_at_same|done].
  - (* Spawned2, itself: joining the first child *)
    destruct c1; try done. cbn [step] in Hstep. injection Hstep as <- <-.
    destruct Hs as (Hne & Hsplit & Hc1 & Hc2). done.
  - (* Spawned2, below the first child *)
    cbn [step] in Hstep. destruct (step π c1 s) as [c1' s1| |] eqn:Hc; [|done..].
    cbn [in_child] in Hstep. injection Hstep as <- <-.
    destruct Hs as (Hne & Hsplit & Hc1 & Hc2). cbn [owned] in Hnd.
    assert (NoDup ((pblocks p ++ owned c2) ++ owned c1)) as Hnd0.
    { rewrite <-app_assoc. by rewrite (Permutation_app_comm (owned c2)). }
    pose proof Hnd0 as (_ & _ & Hnd1)%NoDup_app.
    destruct (IH1 π s _ _ c1' s1 Hnd1 Hc1 Hc) as (Hnd1' & Hc1' & _).
    destruct (child_frame _ _ _ _ _ (pblocks p ++ owned c2) Hc Hnd0) as [Hkeep Hnd'];
      [|done|].
    { intros b [Hb|Hb]%elem_of_app; [by eapply split_at_blk|].
      apply (trying_allocated _ _ _ _ _ Hc2 Hb). }
    split.
    { cbn [owned]. rewrite (Permutation_app_comm (owned c1')). by rewrite app_assoc. }
    split; [|done]. split; [done|]. split; [|split; [done|]].
    + eapply split_at_same; [done|]. intros b Hb. apply Hkeep. set_solver.
    + eapply trying_same; [done|]. intros b Hb. apply Hkeep.
      unfold pblocks. set_solver.
  - (* Spawned2, below the second child *)
    cbn [step] in Hstep. destruct (step π c2 s) as [c2' s1| |] eqn:Hc; [|done..].
    cbn [in_child] in Hstep. injection Hstep as <- <-.
    destruct Hs as (Hne & Hsplit & Hc1 & Hc2). cbn [owned] in Hnd.
    rewrite app_assoc in Hnd.
    pose proof Hnd as (_ & _ & Hnd2)%NoDup_app.
    destruct (IH2 π s _ _ c2' s1 Hnd2 Hc2 Hc) as (Hnd2' & Hc2' & _).
    destruct (child_frame _ _ _ _ _ (pblocks p ++ owned c1) Hc Hnd) as [Hkeep Hnd'];
      [|done|].
    { intros b [Hb|Hb]%elem_of_app; [by eapply split_at_blk|].
      apply (trying_allocated _ _ _ _ _ Hc1 Hb). }
    split; [cbn [owned]; by rewrite app_assoc|].
    split; [|done]. split; [done|]. split; [|split; [|done]].
    + eapply split_at_same; [done|]. intros b Hb. apply Hkeep. set_solver.
    + eapply trying_same; [done|]. intros b Hb. apply Hkeep.
      unfold pblocks. set_solver.
  - (* Joined1, itself: joining the second child *)
    destruct c2; try done. cbn [step] in Hstep. injection Hstep as <- <-.
    destruct Hs as (Hne & Hsplit & Hsl & Hc2). done.
  - (* Joined1, below the second child *)
    cbn [step] in Hstep. destruct (step π c2 s) as [c2' s1| |] eqn:Hc; [|done..].
    cbn [in_child] in Hstep. injection Hstep as <- <-.
    destruct Hs as (Hne & Hsplit & Hsl & Hc2). cbn [owned] in Hnd.
    rewrite app_assoc in Hnd.
    pose proof Hnd as (_ & _ & Hnd2)%NoDup_app.
    destruct (IH2 π s _ _ c2' s1 Hnd2 Hc2 Hc) as (Hnd2' & Hc2' & _).
    destruct (child_frame _ _ _ _ _ (pblocks p ++ blk sl) Hc Hnd) as [Hkeep Hnd'];
      [|done|].
    { intros b [Hb|Hb]%elem_of_app; [by eapply split_at_blk|by eapply ended_at_blk]. }
    split; [cbn [owned]; by rewrite app_assoc|].
    split; [|done]. split; [done|]. split; [|split; [|done]].
    + eapply split_at_same; [done|]. intros b Hb. apply Hkeep. set_solver.
    + eapply ended_at_same; [done|]. intros b Hb. apply Hkeep. set_solver.
  - (* Joined2 *)
    destruct (merge_step_any s n p sl sm d l t' s' Hnd Hs Hstep)
      as (r & -> & Hnn & Hnd' & Hs' & _).
    split; [done|]. split; [by right|done].
Qed.

Lemma run_trying sched :
  ∀ t s d l t' s',
  NoDup (owned t) → trying t s d l → run sched t s = Stepped t' s' →
  NoDup (owned t') ∧ trying t' s' d l ∧ (past_partition t → past_partition t').
Proof.
  induction sched as [|π sched IH]; intros t s d l t' s' Hnd Hs Hrun; simpl in Hrun.
  { by injection Hrun as <- <-. }
  destruct (step π t s) as [t1 s1| |] eqn:Hstep; [| |done].
  - destruct (step_trying t π s d l t1 s1 Hnd Hs Hstep) as (Hnd1 & Hs1 & Hp1).
    destruct (IH t1 s1 d l t' s' Hnd1 Hs1 Hrun) as (Hnd' & Hs' & Hp'). auto.
  - by apply (IH t s d l).
Qed.

(** The first thread before it has its buffers: no other thread exists. *)
Lemma run_Exited sched r s : run sched (Exited r) s = Stepped (Exited r) s.
Proof. induction sched as [|[] sched IH]; simpl; done. Qed.

Lemma run_Entered sched :
  ∀ a s t' s', run sched (Entered a) s = Stepped t' s' →
  (t' = Entered a ∧ s' = s) ∨
  ∃ sched' t1 s1, step Self (Entered a) s = Stepped t1 s1 ∧ run sched' t1 s1 = Stepped t' s'.
Proof.
  induction sched as [|π sched IH]; intros a s t' s' Hrun.
  { left. simpl in Hrun. by injection Hrun as <- <-. }
  destruct π as [|π|π]; [|by apply IH..].
  cbn [run] in Hrun. destruct (step Self (Entered a) s) as [t1 s1| |] eqn:Hstep; [| |done].
  - right. by exists sched, t1, s1.
  - destruct (IH _ _ _ _ Hrun) as [?|(sched' & t1 & s1 & Hs1 & _)]; [by left|congruence].
Qed.

Lemma run_Start sched :
  ∀ a s t' s', run sched (Start a) s = Stepped t' s' →
  (t' = Start a ∧ s' = s) ∨
  ∃ sched', run sched' (Entered a)
              (mkState (heap s) (oracle s) (wrap_int (thread_count s + 1)))
            = Stepped t' s'.
Proof.
  induction sched as [|π sched IH]; intros a s t' s' Hrun.
  { left. simpl in Hrun. by injection Hrun as <- <-. }
  destruct π as [|π|π]; [|by apply IH..].
  right. by exists sched.
Qed.

(** What the first thread has ended with, whatever the allocator answers
    and whatever the schedule. *)
Lemma threads_outcome s data l sched r s' :
  reads s data l →
  run sched (Start (mkArgs data (length l))) s = Stepped (Exited r) s' →
  (r = NULL ↔ l = [] ∨ ¬ three_granted (oracle s)) ∧ ended_at s' r l.
Proof.
  intros Hr Hrun.
  apply run_Start in Hrun as [[? _]|(sched1 & Hrun)]; [done|].
  apply run_Entered in Hrun as [[? _]|(sched2 & t1 & s1 & Hstep & Hrun)]; [done|].
  set (s0 := mkState (heap s) (oracle s) (wrap_int (thread_count s + 1))) in *.
  assert (reads s0 data l) as Hr0 by (by eapply reads_same).
  destruct (split_step_any data l s0 Hr0)
    as (t1' & s1' & Hstep' & Hnd1 & Ht1 & Hpast & Hfail & _).
  rewrite Hstep in Hstep'. injection Hstep' as <- <-.
  destruct (decide (l = [] ∨ ¬ three_granted (oracle s))) as [Hnull|Hok].
  - rewrite (Hfail Hnull), run_Exited in Hrun. injection Hrun as <- <-.
    split; [done|]. by left.
  - assert (l ≠ [] ∧ three_granted (oracle s)) as Hyes.
    { split; [tauto|]. destruct (decide (three_granted (oracle s))); tauto. }
    destruct (run_trying sched2 t1 s1 data l _ _ Hnd1 Ht1 Hrun) as (_ & Hend & Hnn).
    specialize (Hnn (Hpast Hyes)). cbn [past_partition] in Hnn.
    split; [tauto|]. done.
Qed.

(** X14. Whatever the allocator answers and whatever the schedule, the
    threaded sorter never returns a wrong array: when the first thread has
    ended, its value is the null pointer exactly when the array is empty
    or one of the three buffers of its own [partition] was refused, and
    any other value reads back as a permutation of the input in
    non-descending order. *)
Theorem threads_result s data l sched r s' :
  read_array s data (length l) = Some l →
  run sched (Start (mkArgs data (length l))) s = Stepped (Exited r) s' →
  (r = NULL ↔ l = [] ∨ ¬ three_granted (oracle s)) ∧
  (r ≠ NULL →
   ∃ out, read_array s' r (length l) = Some out ∧ out ≡ₚ l ∧ non_descending out).
Proof.
  intros Hr%read_array_reads Hrun.
  destruct (threads_outcome s data l sched r s' Hr Hrun) as [Hnull Hend].
  split; [done|]. intros Hnn. destruct Hend as [?|Hs]; [done|].
  destruct (sorted_at_read _ _ _ Hs) as (out & Hread & Hp & Hsort).
  exists out. split; [done|]. split; [done|]. by apply StronglySorted_non_descending.
Qed.

Lemma threads_result_witness :
  ∃ r s',
    run example_schedule (Start (mkArgs (Ptr 0 0) (length example_input)))
      (init_state example_input (replicate 30 true ++ [false])) = Stepped (Exited r) s' ∧
    (r = NULL ↔ example_input = []
                ∨ ¬ three_granted (oracle (init_state example_input
                                            (replicate 30 true ++ [false])))) ∧
    (r ≠ NULL →
     ∃ out, read_array s' r (length example_input) = Some out ∧
            out ≡ₚ example_input ∧ non_descending out).
Proof.
  eexists _, _. split; [vm_compute; reflexivity|].
  apply (threads_result (init_state example_input (replicate 30 true ++ [false])) (Ptr 0 0)
           example_input example_schedule).
  - reflexivity.
  - vm_compute. reflexivity.
Defined.

(** ** The requests of the threads *)

(** A step of a tree in which no thread has met a refusal: the requests
    it has made were granted. *)
Lemma step_requests t :
  ∀ π s d l t' s',
  NoDup (owned t) → trying t s d l → step π t s = Stepped t' s' → unrefused t' l →
  unrefused t l ∧ (made t l ≤ made t' l)%nat ∧
  oracle s' = drop (made t' l - made t l) (oracle s) ∧
  granted_upto (made t' l - made t l) (oracle s).
Proof.
  induction t as [a|a|n p|n p c1 IH1|n p c1 IH1 c2 IH2|n p sl c2 IH2|n p sl sm|r];
    intros [|π|π] s d l t' s' Hnd Hs Hstep Hun; try (by simpl in Hstep).
  - (* Start *)
    cbn [step count_thread continue_with] in Hstep. injection Hstep as <- <-.
    cbn [made oracle]. split; [done|]. split; [done|]. split; [done|]. intros i Hi. lia.
  - (* Entered *)
    destruct Hs as [-> Hr].
    destruct (split_step_any d l s Hr)
      as (t1 & s1 & Hstep1 & _ & _ & _ & Hfail & Hnil & Hcons & Hpart).
    rewrite Hstep1 in Hstep. injection Hstep as -> ->. split; [done|].
    destruct (decide (l = [])) as [->|Hne].
    { rewrite (Hfail (or_introl eq_refl)), (Hnil eq_refl). cbn [made]. rewrite distinct_nil.
      split; [done|]. split; [done|]. intros i Hi. lia. }
    destruct (decide (three_granted (oracle s))) as [Hg|Hg].
    + destruct (Hpart (conj Hne Hg)) as [p ->].
      cbn [made]. split; [lia|]. split; [by apply Hcons|].
      by apply three_granted_upto.
    + rewrite (Hfail (or_intror Hg)) in Hun. cbn [unrefused] in Hun. by destruct Hne, Hun.
  - (* Partitioned *)
    cbn [step] in Hstep. injection Hstep as <- <-. cbn [made oracle].
    split; [done|]. split; [lia|]. rewrite Nat.add_0_r, Nat.sub_diag.
    split; [done|]. intros i Hi. lia.
  - (* Spawned1, itself *)
    cbn [step] in Hstep. injection Hstep as <- <-. cbn [made unrefused] in *.
    split; [tauto|]. split; [lia|].
    match goal with |- _ = drop ?e _ ∧ _ => replace e with 0%nat by lia end.
    split; [done|]. intros i Hi. lia.
  - (* Spawned1, a thread below *)
    cbn [step] in Hstep. destruct (step π c1 s) as [c1' s1| |] eqn:Hc; [|done..].
    cbn [in_child] in Hstep. injection Hstep as <- <-.
    destruct Hs as (Hne & Hsplit & Hc1). cbn [owned] in Hnd.
    pose proof Hnd as (_ & _ & Hnd1)%NoDup_app. cbn [made unrefused] in *.
    destruct (IH1 π s _ _ c1' s1 Hnd1 Hc1 Hc Hun) as (Hun1 & Hle & Ho & Hg).
    split; [done|]. split; [lia|].
    match type of Ho with _ = drop ?k _ =>
      match goal with |- _ = drop ?e _ ∧ _ => replace e with k by lia end end.
    done.
  - (* Spawned2, itself *)
    destruct c1; try done. cbn [step] in Hstep. injection Hstep as <- <-.
    cbn [made unrefused] in *. split; [done|]. split; [lia|].
    rewrite Nat.sub_diag. split; [done|]. intros i Hi. lia.
  - (* Spawned2, below the first child *)
    cbn [step] in Hstep. destruct (step π c1 s) as [c1' s1| |] eqn:Hc; [|done..].
    cbn [in_child] in Hstep. injection Hstep as <- <-.
    destruct Hs as (Hne & Hsplit & Hc1 & Hc2). cbn [owned] in Hnd.
    pose proof Hnd as (_ & _ & (Hnd1 & _)%NoDup_app)%NoDup_app.
    cbn [made unrefused] in *. destruct Hun as [Hun1 Hun2].
    destruct (IH1 π s _ _ c1' s1 Hnd1 Hc1 Hc Hun1) as (Hun1' & Hle & Ho & Hg).
    split; [done|]. split; [lia|].
    match type of Ho with _ = drop ?k _ =>
      match goal with |- _ = drop ?e _ ∧ _ => replace e with k by lia end end.
    done.
  - (* Spawned2, below the second child *)
    cbn [step] in Hstep. destruct (step π c2 s) as [c2' s1| |] eqn:Hc; [|done..].
    cbn [in_child] in Hstep. injection Hstep as <- <-.
    destruct Hs as (Hne & Hsplit & Hc1 & Hc2). cbn [owned] in Hnd.
    pose proof Hnd as (_ & _ & (_ & _ & Hnd2)%NoDup_app)%NoDup_app.
    cbn [made unrefused] in *. destruct Hun as [Hun1 Hun2].
    destruct (IH2 π s _ _ c2' s1 Hnd2 Hc2 Hc Hun2) as (Hun2' & Hle & Ho & Hg).
    split; [done|]. split; [lia|].
    match type of Ho with _ = drop ?k _ =>
      match goal with |- _ = drop ?e _ ∧ _ => replace e with k by lia end end.
    done.
  - (* Joined1, itself *)
    destruct c2; try done. cbn [step] in Hstep. injection Hstep as <- <-.
    cbn [made unrefused] in *. split; [done|]. split; [lia|].
    rewrite Nat.sub_diag. split; [done|]. intros i Hi. lia.
  - (* Joined1, below the second child *)
    cbn [step] in Hstep. destruct (step π c2 s) as [c2' s1| |] eqn:Hc; [|done..].
    cbn [in_child] in Hstep. injection Hstep as <- <-.
    destruct Hs as (Hne & Hsplit & Hsl & Hc2). cbn [owned] in Hnd.
    pose proof Hnd as (_ & _ & (_ & _ & Hnd2)%NoDup_app)%NoDup_app.
    cbn [made unrefused] in *. destruct Hun as [Hun1 Hun2].
    destruct (IH2 π s _ _ c2' s1 Hnd2 Hc2 Hc Hun2) as (Hun2' & Hle & Ho & Hg).
    split; [done|]. split; [lia|].
    match type of Ho with _ = drop ?k _ =>
      match goal with |- _ = drop ?e _ ∧ _ => replace e with k by lia end end.
    done.
  - (* Joined2 *)
    destruct (merge_step_any s n p sl sm d l t' s' Hnd Hs Hstep)
      as (r & -> & Hnn & _ & _ & Hn1 & Hn2 & Hans & Ho).
    destruct Hs as (Hne & _). destruct l as [|x l]; [done|].
    cbn [made unrefused hd] in *. rewrite distinct_cons.
    split; [done|]. split; [lia|].
    match goal with |- _ = drop ?e _ ∧ _ => replace e with 1%nat by lia end.
    split; [done|]. intros [|i] Hi; [by rewrite drop_0|lia].
Qed.

Lemma run_requests sched :
  ∀ t s d l t' s',
  NoDup (owned t) → trying t s d l → run sched t s = Stepped t' s' → unrefused t' l →
  unrefused t l ∧ (made t l ≤ made t' l)%nat ∧
  oracle s' = drop (made t' l - made t l) (oracle s) ∧
  granted_upto (made t' l - made t l) (oracle s).
Proof.
  induction sched as [|π sched IH]; intros t s d l t' s' Hnd Hs Hrun Hun; simpl in Hrun.
  { injection Hrun as <- <-. rewrite Nat.sub_diag. split; [done|]. split; [done|].
    split; [done|]. intros i Hi. lia. }
  destruct (step π t s) as [t1 s1| |] eqn:Hstep; [| |done].
  - destruct (step_trying t π s d l t1 s1 Hnd Hs Hstep) as (Hnd1 & Hs1 & _).
    destruct (IH t1 s1 d l t' s' Hnd1 Hs1 Hrun Hun) as (Hun1 & Hle1 & Ho1 & Hg1).
    destruct (step_requests t π s d l t1 s1 Hnd Hs Hstep Hun1) as (Hun0 & Hle0 & Ho0 & Hg0).
    split; [done|]. split; [lia|].
    replace (made t' l - made t l)%nat
      with ((made t1 l - made t l) + (made t' l - made t1 l))%nat by lia.
    split.
    + by rewrite Ho1, Ho0, drop_drop.
    + apply granted_upto_add; [done|]. by rewrite <-Ho0.
  - by apply (IH t s d l).
Qed.

(** X15. The threaded sorter makes the same requests as the sequential
    one: whatever the schedule and whatever the allocator would answer
    later, when the first thread has ended with an array (or on an empty
    array) the threads have made [4 * d] requests, [d] the number of
    distinct values, all of them granted, and no other. *)
Theorem threads_requests s data l sched r s' :
  read_array s data (length l) = Some l →
  run sched (Start (mkArgs data (length l))) s = Stepped (Exited r) s' →
  r ≠ NULL ∨ l = [] →
  granted_upto (4 * distinct l) (oracle s) ∧
  oracle s' = drop (4 * distinct l) (oracle s).
Proof.
  intros Hr%read_array_reads Hrun Hok.
  destruct (threads_outcome s data l sched r s' Hr Hrun) as [_ Hend].
  destruct (run_requests sched (Start (mkArgs data (length l))) s data l (Exited r) s')
    as (_ & _ & Ho & Hg); [constructor|by apply start_sorting|done| |].
  { cbn [unrefused]. intros ->. by destruct Hok. }
  cbn [made] in Ho, Hg. rewrite Nat.sub_0_r in Ho, Hg. done.
Qed.

Lemma threads_requests_witness :
  ∃ r s',
    run example_schedule (Start (mkArgs (Ptr 0 0) (length example_input)))
      (init_state example_input (replicate 16 true ++ [false])) = Stepped (Exited r) s' ∧
    granted_upto (4 * distinct example_input)
      (oracle (init_state example_input (replicate 16 true ++ [false]))) ∧
    oracle s' = drop (4 * distinct example_input)
                  (oracle (init_state example_input (replicate 16 true ++ [false]))).
Proof.
  eexists _, _. split; [vm_compute; reflexivity|].
  eapply (threads_requests (init_state example_input (replicate 16 true ++ [false]))
            (Ptr 0 0) example_input example_schedule).
  - reflexivity.
  - vm_compute. reflexivity.
  - by left.
Defined.

(** Until the first thread has ended some thread can take a step, which
    may be a crash. *)
Lemma progress_any t :
  ∀ s d l, NoDup (owned t) → trying t s d l →
  (∃ r, t = Exited r) ∨ ∃ π, step π t s ≠ Blocked.
Proof.
  induction t as [a|a|n p|n p c1 IH1|n p c1 IH1 c2 IH2|n p sl c2 IH2|n p sl sm|r];
    intros s d l Hnd Hs.
  - right. by exists Self.
  - right. exists Self. destruct Hs as [-> Hr].
    destruct (split_step_any d l s Hr) as (t' & s' & -> & _). done.
  - right. by exists Self.
  - right. by exists Self.
  - right. destruct Hs as (_ & _ & Hc1 & _). cbn [owned] in Hnd.
    apply NoDup_app in Hnd as (_ & _ & (Hnd1 & _ & _)%NoDup_app).
    destruct (IH1 s _ _ Hnd1 Hc1) as [[r ->]|(π & Hstep)].
    + by exists Self.
    + exists (LessThread π). cbn [step]. by destruct (step π c1 s).
  - right. destruct Hs as (_ & _ & _ & Hc2). cbn [owned] in Hnd.
    apply NoDup_app in Hnd as (_ & _ & (_ & _ & Hnd2)%NoDup_app).
    destruct (IH2 s _ _ Hnd2 Hc2) as [[r ->]|(π & Hstep)].
    + by exists Self.
    + exists (MoreThread π). cbn [step]. by destruct (step π c2 s).
  - right. exists Self. cbn [step]. by destruct (merge_thread n p sl sm s).
  - left. by exists r.
Qed.

(** Every tree can be run to the end of its first thread or to a crash. *)
Lemma run_ends k :
  ∀ t s d l, (steps_left t ≤ k)%nat → NoDup (owned t) → trying t s d l →
  ∃ rest, run rest t s = Crashed ∨ ∃ r s', run rest t s = Stepped (Exited r) s'.
Proof.
  induction k as [|k IH]; intros t s d l Hk Hnd Hs;
    (destruct (progress_any t s d l Hnd Hs) as [[r ->]|(π & Hstep)];
     [exists []; right; by exists r, s|]);
    (destruct (step π t s) as [t1 s1| |] eqn:Hπ; [|done|exists [π]; left; simpl; by rewrite Hπ]).
  - apply step_decreases in Hπ. lia.
  - destruct (step_trying t π s d l t1 s1 Hnd Hs Hπ) as (Hnd1 & Hs1 & _).
    apply step_decreases in Hπ as Hlt.
    destruct (IH t1 s1 d l ltac:(lia) Hnd1 Hs1) as [rest Hrest].
    exists (π :: rest). simpl. by rewrite Hπ.
Qed.

Lemma run_not_blocked sched : ∀ t s, run sched t s ≠ Blocked.
Proof.
  induction sched as [|π sched IH]; intros t s; simpl; [done|].
  destruct (step π t s); [apply IH|apply IH|done].
Qed.

(** X16. A refusal below the first thread is not reported by the
    threaded sorter either: when the three buffers of the first thread
    are granted and one of the later requests of the sort is refused, no
    schedule lets the first thread end, and every schedule can be
    continued to a crash (a thread that joins a thread that ended with the
    null pointer, or whose unchecked result array is null, copies from or
    into a null array in [merge]). *)
Theorem threads_refusal_crashes s data l :
  read_array s data (length l) = Some l →
  three_granted (oracle s) → ¬ granted_upto (4 * distinct l) (oracle s) →
  (∀ sched r s', run sched (Start (mkArgs data (length l))) s ≠ Stepped (Exited r) s') ∧
  ∀ sched, ∃ rest, run (sched ++ rest) (Start (mkArgs data (length l))) s = Crashed.
Proof.
  intros Hr%read_array_reads Hyes Hno.
  assert (∀ sched r s', run sched (Start (mkArgs data (length l))) s ≠ Stepped (Exited r) s')
    as Hnever.
  { intros sched r s' Hrun.
    destruct (threads_outcome s data l sched r s' Hr Hrun) as [Hnull _].
    assert (l ≠ []) as Hne.
    { intros ->. apply Hno. intros i Hi. rewrite distinct_nil in Hi. lia. }
    destruct (run_requests sched (Start (mkArgs data (length l))) s data l (Exited r) s')
      as (_ & _ & _ & Hg); [constructor|by apply start_sorting|done| |].
    - cbn [unrefused]. intros Hr0. apply Hnull in Hr0. tauto.
    - cbn [made] in Hg. by rewrite Nat.sub_0_r in Hg. }
  split; [done|]. intros sched.
  destruct (run sched (Start (mkArgs data (length l))) s) as [t s1| |] eqn:Hrun.
  - destruct (run_trying sched _ s data l t s1 (NoDup_nil_2 : NoDup (owned (Start _)))
                (start_sorting s data l Hr) Hrun) as (Hnd & Hs & _).
    destruct (run_ends (steps_left t) t s1 data l (le_n _) Hnd Hs) as [rest Hrest].
    exists rest. rewrite run_app, Hrun.
    destruct Hrest as [?|(r & s' & Hend)]; [done|].
    destruct (Hnever (sched ++ rest) r s'). by rewrite run_app, Hrun.
  - by destruct (run_not_blocked sched (Start (mkArgs data (length l))) s).
  - exists []. by rewrite app_nil_r.
Qed.

Lemma threads_refusal_crashes_witness :
  (∀ sched r s',
     run sched (Start (mkArgs (Ptr 0 0) (length example_input)))
       (init_state example_input [true; true; true; false]) ≠ Stepped (Exited r) s') ∧
  ∀ sched, ∃ rest,
    run (sched ++ rest) (Start (mkArgs (Ptr 0 0) (length example_input)))
      (init_state example_input [true; true; true; false]) = Crashed.
Proof.
  apply (threads_refusal_crashes (init_state example_input [true; true; true; false])
           (Ptr 0 0) example_input).
  - reflexivity.
  - by repeat split.
  - intros H. assert (next_answer (drop 3 [true; true; true; false]) = true) as Hbad.
    { apply H. vm_compute. lia. }
    discriminate Hbad.
Defined.
